(** * remote.js: the session WebSocket client [Remote]

    A shallow embedding of [notebook/static/services/sessions/remote.js]:
    the connection life cycle ([start_channel], [stop_channel], the three
    guarded close handlers, [_ws_closed], [_schedule_reconnect]), the
    envelope builder [_get_msg], [send_input_reply], and the inbound
    promise chain of [_handle_ws_message].

    JavaScript objects that are shared by reference (the WebSocket objects,
    the closure variables of one [start_channel] activation, promises) live
    in explicit stores and are named by their index.  Numbers are integers;
    the attempt counter never leaves the range where [Math.pow(2, n)] is the
    exact power.

    What the file does not define is kept apart: the wire codec
    ([serialize.serialize], [serialize.deserialize]) is symbolic or an
    input of the model, the subscribers of the bus are an input, and
    [utils.reject] and [utils.uuid] are modelled from the specification,
    each under a comment that says so.  The file defines no [reconnect]
    method: what [_schedule_reconnect] hands to [setTimeout] is
    [undefined], and the timer does nothing when it fires.

    The handler made by [_on_success] is kept apart in [Ajax], on the two
    fields of the object that it writes. *)

From Stdlib Require Import ZArith Lia Ascii String.
From stdpp Require Import base option list strings.

(** ** Values *)

(** The JavaScript values the file passes around as message parts. *)
#[local] Unset Elimination Schemes.
Inductive json :=
| JUndefined
| JNull
| JBool (b : bool)
| JNum (n : Z)
| JStr (s : string)
| JArr (items : list json)
| JObj (fields : list (string * json)).
#[local] Set Elimination Schemes.

(** Truthiness, as used by [x || default]. *)
Definition truthy (v : json) : bool :=
  match v with
  | JUndefined | JNull => false
  | JBool b => b
  | JNum n => negb (Z.eqb n 0)
  | JStr s => negb (String.eqb s "")
  | JArr _ | JObj _ => true
  end.

(** [v || d] *)
Definition js_or (v d : json) : json := if truthy v then v else d.

(** An omitted argument is [undefined]. *)
Definition arg (o : option json) : json := default JUndefined o.

(** ** Message envelopes *)

Module Msg.
Record header := {
  msg_id : nat;
  username : string;
  session : string;
  msg_type : string;
  version : string
}.

Record t := {
  hdr : header;
  metadata : json;
  content : json;
  buffers : json;
  parent_header : json;
  channel : option string
}.

Definition with_channel (c : string) (m : t) : t :=
  {| hdr := hdr m; metadata := metadata m; content := content m;
     buffers := buffers m; parent_header := parent_header m;
     channel := Some c |}.
End Msg.

(** [serialize.serialize] belongs to the wire codec
    ([services/kernels/serialize]); what it returns for [m] is kept
    symbolic. *)
Inductive wire := serialize (m : Msg.t).

(** ** WebSocket objects *)

Inductive ready_state := CONNECTING | OPEN | CLOSING | CLOSED.

Definition ready_state_eqb (a b : ready_state) : bool :=
  match a, b with
  | CONNECTING, CONNECTING | OPEN, OPEN | CLOSING, CLOSING | CLOSED, CLOSED => true
  | _, _ => false
  end.

(** What can be stored in [ws.onclose]: the two guarded handlers of the
    [start_channel] activation [g], or the local [close] of [stop_channel]. *)
Inductive close_handler :=
| ws_closed_early (g : nat)
| ws_closed_late (g : nat)
| stop_close.

(** A WebSocket object.  [onopen] and [onmessage] are the same bound
    methods for every socket the file creates and are not stored; [onerror]
    is [ws_error] of the activation [onerror]. *)
Record WebSocket := {
  url : string;
  readyState : ready_state;
  onclose : close_handler;
  onerror : nat
}.

(** The variables captured by the handlers of one [start_channel]
    activation. *)
Record activation := {
  already_called_onclose : bool;
  ws_host_url : string
}.

(** ** Timers, notifications, console *)

Inductive timer_callback :=
| grace_switch (g : nat)   (* function() { if (that.ws !== null) that.ws.onclose = ws_closed_late; } *)
| do_reconnect.            (* $.proxy(this.reconnect, this), which is undefined *)

Record timer := {
  timer_id : nat;
  delay_ms : Z;
  callback : timer_callback
}.

(** Events on the bus [base/js/events], by their names in the file
    (the [.Remote] namespace is left out). *)
Inductive notification :=
| remote_created
| remote_reconnecting
| remote_connected
| remote_starting
| remote_restarting
| remote_autorestarting
| remote_interrupting
| remote_disconnected
| remote_ready
| remote_killed
| remote_dead
| remote_connection_failed (master_url : string) (attempt : Z)
| remote_connection_dead (reconnect_attempt : Z)
| input_reply (content : json)
| bus_send_input_reply (data : json).

Inductive console_entry :=
| log_status (n : notification)            (* record_status *)
| log_starting (url : string)              (* "Starting Master WebSockets:" *)
| log_connection_failed (url : string)     (* "Master WebSocket connection failed: " *)
| log_reconnecting (timeout : Z)           (* "Connection lost, reconnecting in ... seconds." *)
| log_giving_up.                           (* "Failed to reconnect, giving up." *)

(** The three guarded paths of [start_channel]. *)
Inductive close_path := early_path | late_path | error_path.

(** ** Inbound frames and the codec *)

(** Errors: a thrown value, or the [WrappedError] built by the catch
    handler around the error it received. *)
Inductive err :=
| Err (what : string)
| Wrapped (message : string) (cause : err).

(** A decoded message as far as [_handle_ws_message] looks at it:
    [undefined]/[null], or an object with its [exec] property
    ([JUndefined] when the property is absent). *)
Inductive value :=
| undefined
| message (exec : json).

Inductive settled :=
| fulfilled_with (v : value)
| rejected_with (e : err).

(** How [serialize.deserialize(e.data)] answers for one frame.  The codec
    is not part of the file; a frame carries its answer: a synchronous
    throw, a plain value, or a promise that settles [latency] ticks after the
    call ([0]: a promise that is already settled when it is returned). *)
Inductive decode_answer :=
| sync_throw (e : err)
| sync_value (v : value)
| async (latency : nat) (r : settled).

Record frame := {
  data : nat;
  answer : decode_answer
}.

(** What the handler made by [utils.reject(message, true)] does after
    logging: return normally, or return a rejected promise. *)
Inductive catch_policy := log_and_return | log_and_reject.

(** Modelled from the spec: [utils.reject] (module [base/js/utils]) is not
    part of the file.  Section 4.3: an error of decode or dispatch "is
    reported (logged/surfaced) but does not abort the chain"; the handler
    logs the wrapped error and returns. *)
Definition utils_reject : catch_policy := log_and_return.

(** ** Promises *)

Module Promise.

(** The three functions [_handle_ws_message] passes to [then]/[catch]. *)
Inductive callback :=
| cb_decode (f : frame)   (* function() { return serialize.deserialize(e.data); } *)
| cb_dispatch             (* function(msg) { console.log(msg); if (msg.exec) ...; return Promise.resolve(); } *)
| cb_catch.               (* utils.reject("Couldn't process remote message", true) *)

(** One [then(on_fulfilled, on_rejected)] registration; [target] is the
    promise [then] returned.  With both handlers absent it is also the
    registration made when [target] adopts the state of a promise. *)
Record reaction := {
  on_fulfilled : option callback;
  on_rejected : option callback;
  target : nat
}.

Inductive cell :=
| pending (reactions : list reaction)
| fulfilled (v : value)
| rejected (e : err).

Definition cell_of (o : settled) : cell :=
  match o with
  | fulfilled_with v => fulfilled v
  | rejected_with e => rejected e
  end.

Inductive job :=
| reaction_job (r : reaction) (o : settled)
| thenable_job (target : nat) (p : nat).

(** What a callback hands back to the promise machinery. *)
Inductive completion :=
| ret (v : value)
| ret_promise (p : nat)
| throw (e : err).

(** Effects of the callbacks, oldest first. *)
Inductive output :=
| deserialize_call (data : nat)
| log_message (msg : value)
| trigger_exec (exec : json)
| console_error (e : err).

(** A promise the codec still has to settle. *)
Record decode_task := {
  promise : nat;
  remaining : nat;
  result : settled
}.

Record state := {
  heap : list cell;
  microtasks : list job;
  decoding : list decode_task;
  _msg_queue : nat;
  out : list output
}.

Definition set_heap (h : list cell) (s : state) : state :=
  {| heap := h; microtasks := microtasks s; decoding := decoding s;
     _msg_queue := _msg_queue s; out := out s |}.
Definition set_microtasks (q : list job) (s : state) : state :=
  {| heap := heap s; microtasks := q; decoding := decoding s;
     _msg_queue := _msg_queue s; out := out s |}.
Definition set_decoding (d : list decode_task) (s : state) : state :=
  {| heap := heap s; microtasks := microtasks s; decoding := d;
     _msg_queue := _msg_queue s; out := out s |}.
Definition set_msg_queue (p : nat) (s : state) : state :=
  {| heap := heap s; microtasks := microtasks s; decoding := decoding s;
     _msg_queue := p; out := out s |}.
Definition emit (o : output) (s : state) : state :=
  {| heap := heap s; microtasks := microtasks s; decoding := decoding s;
     _msg_queue := _msg_queue s; out := out s ++ [o] |}.

Definition enqueue (js : list job) (s : state) : state :=
  set_microtasks (microtasks s ++ js) s.

(** [new Promise] in state [c]. *)
Definition alloc (c : cell) (s : state) : nat * state :=
  (length (heap s), set_heap (heap s ++ [c]) s).

(** Settling a pending promise queues one job per registered reaction;
    a settled promise stays as it is. *)
Definition settle (p : nat) (o : settled) (s : state) : state :=
  match heap s !! p with
  | Some (pending rs) =>
      enqueue (map (fun r => reaction_job r o) rs) (set_heap (<[p := cell_of o]> (heap s)) s)
  | _ => s
  end.

(** Registering a reaction on [p]. *)
Definition register (p : nat) (r : reaction) (s : state) : state :=
  match heap s !! p with
  | Some (pending rs) => set_heap (<[p := pending (rs ++ [r])]> (heap s)) s
  | Some (fulfilled v) => enqueue [reaction_job r (fulfilled_with v)] s
  | Some (rejected e) => enqueue [reaction_job r (rejected_with e)] s
  | None => s
  end.

(** [p.then(f, r)]; [p.catch(r)] is [p.then(undefined, r)]. *)
Definition then_ (p : nat) (f r : option callback) (s : state) : nat * state :=
  let (t, s1) := alloc (pending []) s in
  (t, register p {| on_fulfilled := f; on_rejected := r; target := t |} s1).

(** Resolving [t] with what a handler returned: a promise is adopted
    through a job of its own, anything else settles [t]. *)
Definition resolve (t : nat) (c : completion) (s : state) : state :=
  match c with
  | ret v => settle t (fulfilled_with v) s
  | throw e => settle t (rejected_with e) s
  | ret_promise p => enqueue [thenable_job t p] s
  end.

Section Callbacks.
(** The handler [utils.reject] builds, and the subscribers of
    [exec.Remote] on the bus ([Some e]: one of them throws [e]). *)
Variable policy : catch_policy.
Variable exec_listener : json -> option err.

Definition run_decode (f : frame) (s : state) : completion * state :=
  let s := emit (deserialize_call (data f)) s in
  match answer f with
  | sync_throw e => (throw e, s)
  | sync_value v => (ret v, s)
  | async 0 r => let (p, s) := alloc (cell_of r) s in (ret_promise p, s)
  | async (S n) r =>
      let (p, s) := alloc (pending []) s in
      (ret_promise p,
       set_decoding (decoding s ++ [{| promise := p; remaining := S n; result := r |}]) s)
  end.

Definition run_dispatch (msg : value) (s : state) : completion * state :=
  let s := emit (log_message msg) s in
  match msg with
  | undefined => (throw (Err "TypeError"), s)
  | message exec =>
      if truthy exec then
        let s := emit (trigger_exec exec) s in
        match exec_listener exec with
        | Some e => (throw e, s)
        | None => let (p, s) := alloc (fulfilled undefined) s in (ret_promise p, s)
        end
      else let (p, s) := alloc (fulfilled undefined) s in (ret_promise p, s)
  end.

Definition run_catch (error : err) (s : state) : completion * state :=
  let wrapped_error := Wrapped "Couldn't process remote message" error in
  let s := emit (console_error wrapped_error) s in
  match policy with
  | log_and_return => (ret undefined, s)
  | log_and_reject => let (p, s) := alloc (rejected wrapped_error) s in (ret_promise p, s)
  end.

(** Calling a handler with the outcome it was registered for.
    [cb_dispatch] is only ever an [on_fulfilled] handler and [cb_catch]
    only an [on_rejected] one. *)
Definition run_callback (cb : callback) (o : settled) (s : state) : completion * state :=
  match cb, o with
  | cb_decode f, _ => run_decode f s
  | cb_dispatch, fulfilled_with v => run_dispatch v s
  | cb_dispatch, rejected_with e => (throw e, s)
  | cb_catch, rejected_with e => run_catch e s
  | cb_catch, fulfilled_with v => (ret v, s)
  end.

Definition handler_for (r : reaction) (o : settled) : option callback :=
  match o with
  | fulfilled_with _ => on_fulfilled r
  | rejected_with _ => on_rejected r
  end.

Definition run_job (j : job) (s : state) : state :=
  match j with
  | reaction_job r o =>
      match handler_for r o with
      | None => settle (target r) o s
      | Some cb => let (c, s) := run_callback cb o s in resolve (target r) c s
      end
  | thenable_job t p =>
      register p {| on_fulfilled := None; on_rejected := None; target := t |} s
  end.

(** One microtask. *)
Definition micro (s : state) : option state :=
  match microtasks s with
  | [] => None
  | j :: js => Some (run_job j (set_microtasks js s))
  end.

Fixpoint drain (fuel : nat) (s : state) : state :=
  match fuel with
  | O => s
  | S fuel => match micro s with
              | Some s' => drain fuel s'
              | None => s
              end
  end.

(** A bound on the microtasks still to run: a registration with a
    handler costs its own job, possibly the adoption of a returned
    promise and the job that forwards its outcome. *)
Definition reaction_weight (r : reaction) : nat :=
  match on_fulfilled r, on_rejected r with
  | None, None => 1
  | _, _ => 3
  end.

Definition job_weight (j : job) : nat :=
  match j with
  | reaction_job r _ => reaction_weight r
  | thenable_job _ _ => 2
  end.

Definition cell_weight (c : cell) : nat :=
  match c with
  | pending rs => sum_list_with reaction_weight rs
  | _ => 0
  end.

Definition weight (s : state) : nat :=
  sum_list_with job_weight (microtasks s) + sum_list_with cell_weight (heap s).

(** The microtask checkpoint at the end of a task. *)
Definition run_microtasks (s : state) : state := drain (weight s) s.

(** [_handle_ws_message]: three registrations at the tail of the chain,
    then the checkpoint that ends the [onmessage] task. *)
Definition _handle_ws_message (f : frame) (s : state) : state :=
  let (p1, s) := then_ (_msg_queue s) (Some (cb_decode f)) None s in
  let (p2, s) := then_ p1 (Some cb_dispatch) None s in
  let (p3, s) := then_ p2 None (Some cb_catch) s in
  set_msg_queue p3 s.

Definition on_message (f : frame) (s : state) : state :=
  run_microtasks (_handle_ws_message f s).

(** The codec settles the promise of a finished decode; each such
    settlement is a task of its own. *)
Definition finish_decode (t : decode_task) (s : state) : state :=
  run_microtasks (settle (promise t) (result t) s).

Definition age (t : decode_task) : decode_task :=
  {| promise := promise t; remaining := pred (remaining t); result := result t |}.

Definition due (t : decode_task) : bool := Nat.eqb (remaining t) 0.

(** One unit of decode time passes. *)
Definition tick (s : state) : state :=
  let aged := map age (decoding s) in
  let s := set_decoding (List.filter (fun t => negb (due t)) aged) s in
  fold_left (fun s t => finish_decode t s) (List.filter due aged) s.
End Callbacks.

(** [this._msg_queue = Promise.resolve()] *)
Definition init : state :=
  {| heap := [fulfilled undefined]; microtasks := []; decoding := [];
     _msg_queue := 0; out := [] |}.

End Promise.

(** ** The [Remote] object and its surroundings *)

(** The fields the methods read or write.  [events], [WebSocket],
    [_msg_callbacks], [info_reply], [last_msg_id] and [last_msg_callbacks]
    are set by the constructor and never used again in the file;
    [_msg_queue] is kept with the promises it points into. *)
Record Remote := {
  ws : option nat;
  master_url : string;
  username : string;
  session_id : string;
  _autorestart_attempt : Z;
  _reconnect_attempt : Z;
  reconnect_limit : Z
}.

Definition set_ws (v : option nat) (r : Remote) : Remote :=
  {| ws := v; master_url := master_url r; username := username r;
     session_id := session_id r; _autorestart_attempt := _autorestart_attempt r;
     _reconnect_attempt := _reconnect_attempt r; reconnect_limit := reconnect_limit r |}.

Definition set_autorestart_attempt (v : Z) (r : Remote) : Remote :=
  {| ws := ws r; master_url := master_url r; username := username r;
     session_id := session_id r; _autorestart_attempt := v;
     _reconnect_attempt := _reconnect_attempt r; reconnect_limit := reconnect_limit r |}.

Definition set_reconnect_attempt (v : Z) (r : Remote) : Remote :=
  {| ws := ws r; master_url := master_url r; username := username r;
     session_id := session_id r; _autorestart_attempt := _autorestart_attempt r;
     _reconnect_attempt := v; reconnect_limit := reconnect_limit r |}.

(** Everything the methods can reach: the object itself, the WebSocket
    objects and [start_channel] activations created so far, the pending
    timers, and what has been published, logged and sent (oldest first).
    [entered] records which guarded close handlers got past their guard. *)
Record world := {
  this : Remote;
  sockets : list WebSocket;
  activations : list activation;
  timers : list timer;
  next_timer : nat;
  triggered : list notification;
  console : list console_entry;
  sent : list (nat * wire);
  uuids : nat;
  entered : list (nat * close_path);
  inbound : Promise.state
}.

Definition set_this (v : Remote) (w : world) : world :=
  {| this := v; sockets := sockets w; activations := activations w;
     timers := timers w; next_timer := next_timer w; triggered := triggered w;
     console := console w; sent := sent w; uuids := uuids w;
     entered := entered w; inbound := inbound w |}.

Definition set_sockets (v : list WebSocket) (w : world) : world :=
  {| this := this w; sockets := v; activations := activations w;
     timers := timers w; next_timer := next_timer w; triggered := triggered w;
     console := console w; sent := sent w; uuids := uuids w;
     entered := entered w; inbound := inbound w |}.

Definition set_activations (v : list activation) (w : world) : world :=
  {| this := this w; sockets := sockets w; activations := v;
     timers := timers w; next_timer := next_timer w; triggered := triggered w;
     console := console w; sent := sent w; uuids := uuids w;
     entered := entered w; inbound := inbound w |}.

Definition set_timers (v : list timer) (w : world) : world :=
  {| this := this w; sockets := sockets w; activations := activations w;
     timers := v; next_timer := next_timer w; triggered := triggered w;
     console := console w; sent := sent w; uuids := uuids w;
     entered := entered w; inbound := inbound w |}.

Definition set_next_timer (v : nat) (w : world) : world :=
  {| this := this w; sockets := sockets w; activations := activations w;
     timers := timers w; next_timer := v; triggered := triggered w;
     console := console w; sent := sent w; uuids := uuids w;
     entered := entered w; inbound := inbound w |}.

Definition set_triggered (v : list notification) (w : world) : world :=
  {| this := this w; sockets := sockets w; activations := activations w;
     timers := timers w; next_timer := next_timer w; triggered := v;
     console := console w; sent := sent w; uuids := uuids w;
     entered := entered w; inbound := inbound w |}.

Definition set_console (v : list console_entry) (w : world) : world :=
  {| this := this w; sockets := sockets w; activations := activations w;
     timers := timers w; next_timer := next_timer w; triggered := triggered w;
     console := v; sent := sent w; uuids := uuids w;
     entered := entered w; inbound := inbound w |}.

Definition set_sent (v : list (nat * wire)) (w : world) : world :=
  {| this := this w; sockets := sockets w; activations := activations w;
     timers := timers w; next_timer := next_timer w; triggered := triggered w;
     console := console w; sent := v; uuids := uuids w;
     entered := entered w; inbound := inbound w |}.

Definition set_uuids (v : nat) (w : world) : world :=
  {| this := this w; sockets := sockets w; activations := activations w;
     timers := timers w; next_timer := next_timer w; triggered := triggered w;
     console := console w; sent := sent w; uuids := v;
     entered := entered w; inbound := inbound w |}.

Definition set_entered (v : list (nat * close_path)) (w : world) : world :=
  {| this := this w; sockets := sockets w; activations := activations w;
     timers := timers w; next_timer := next_timer w; triggered := triggered w;
     console := console w; sent := sent w; uuids := uuids w;
     entered := v; inbound := inbound w |}.

Definition set_inbound (v : Promise.state) (w : world) : world :=
  {| this := this w; sockets := sockets w; activations := activations w;
     timers := timers w; next_timer := next_timer w; triggered := triggered w;
     console := console w; sent := sent w; uuids := uuids w;
     entered := entered w; inbound := v |}.

(** *** Browser primitives *)

Definition console_log (e : console_entry) (w : world) : world :=
  set_console (console w ++ [e]) w.

(** [setTimeout(callback, delay)] *)
Definition setTimeout (cb : timer_callback) (delay : Z) (w : world) : world :=
  set_next_timer (S (next_timer w))
    (set_timers (timers w ++ [{| timer_id := next_timer w; delay_ms := delay; callback := cb |}]) w).

(** The socket [this.ws] refers to. *)
Definition current_socket (w : world) : option (nat * WebSocket) :=
  match ws (this w) with
  | Some i => match sockets w !! i with
              | Some s => Some (i, s)
              | None => None
              end
  | None => None
  end.

Definition with_readyState (st : ready_state) (s : WebSocket) : WebSocket :=
  {| url := url s; readyState := st; onclose := onclose s; onerror := onerror s |}.

Definition with_onclose (h : close_handler) (s : WebSocket) : WebSocket :=
  {| url := url s; readyState := readyState s; onclose := h; onerror := onerror s |}.

(** Modelled from the spec: [utils.uuid] (module [base/js/utils]) is not
    part of the file.  Section 3: [msgId] is "freshly generated per send"
    and "unique per message"; the n-th call returns the n-th id of a supply
    without repetitions. *)
Definition utils_uuid (w : world) : nat * world :=
  (uuids w, set_uuids (S (uuids w)) w).

(** *** The bus *)

(** The names [bind_events] binds [record_status] to. *)
Definition has_record_status (n : notification) : bool :=
  match n with
  | remote_created | remote_reconnecting | remote_connected | remote_starting
  | remote_restarting | remote_autorestarting | remote_interrupting
  | remote_disconnected | remote_ready | remote_killed | remote_dead => true
  | _ => false
  end.

(** The listeners [bind_events] installs, except the one for
    [send_input_reply.Remote] (see [publish]). *)
Definition listeners (n : notification) (w : world) : world :=
  let w := if has_record_status n then console_log (log_status n) w else w in
  match n with
  | remote_ready => set_this (set_autorestart_attempt 0 (this w)) w
  | remote_connected => set_this (set_reconnect_attempt 0 (this w)) w
  | _ => w
  end.

(** [this.events.trigger(n, ...)] *)
Definition trigger (n : notification) (w : world) : world :=
  listeners n (set_triggered (triggered w ++ [n]) w).

(** *** Methods *)

(** [_get_msg]; an omitted [metadata] or [buffers] is [None]. *)
Definition _get_msg (msg_type : string) (content : json) (metadata buffers : option json)
    (w : world) : Msg.t * world :=
  let (id, w) := utils_uuid w in
  ({| Msg.hdr := {| Msg.msg_id := id;
                    Msg.username := username (this w);
                    Msg.session := session_id (this w);
                    Msg.msg_type := msg_type;
                    Msg.version := "5.0" |};
      Msg.metadata := js_or (arg metadata) (JObj []);
      Msg.content := content;
      Msg.buffers := js_or (arg buffers) (JArr []);
      Msg.parent_header := JObj [];
      Msg.channel := None |}, w).

Definition is_connected (w : world) : bool :=
  match current_socket w with
  | Some (_, s) => ready_state_eqb (readyState s) OPEN
  | None => false
  end.

Definition is_fully_disconnected (w : world) : bool :=
  match ws (this w) with
  | None => true
  | Some _ => false
  end.

(** The local function [close] of [stop_channel]; it is also what
    [stop_channel] stores in [onclose] of an open socket. *)
Definition stop_channel_close (w : world) : world :=
  match current_socket w with
  | Some (_, s) =>
      if ready_state_eqb (readyState s) CLOSED then set_this (set_ws None (this w)) w else w
  | None => w
  end.

(** [stop_channel]; [ws.close()] on an open socket moves it to [CLOSING],
    the close event comes later. *)
Definition stop_channel (w : world) : world :=
  match current_socket w with
  | Some (i, s) =>
      if ready_state_eqb (readyState s) OPEN then
        set_sockets (<[i := with_readyState CLOSING (with_onclose stop_close s)]> (sockets w)) w
      else stop_channel_close w
  | None => w
  end.

Definition _schedule_reconnect (w : world) : world :=
  if (_reconnect_attempt (this w) <? reconnect_limit (this w))%Z then
    let timeout := (2 ^ _reconnect_attempt (this w))%Z in
    setTimeout do_reconnect (1000 * timeout) (console_log (log_reconnecting timeout) w)
  else
    console_log log_giving_up
      (trigger (remote_connection_dead (_reconnect_attempt (this w))) w).

Definition _ws_closed (master_url : string) (error : bool) (w : world) : world :=
  let w := stop_channel w in
  let w := trigger remote_disconnected w in
  let w := if error then
             trigger (remote_connection_failed master_url (_reconnect_attempt (this w)))
               (console_log (log_connection_failed master_url) w)
           else w in
  _schedule_reconnect w.

Definition _remote_connected (w : world) : world := trigger remote_connected w.

Definition _remote_dead (w : world) : world := stop_channel w.

Definition _ws_opened (w : world) : world :=
  if is_connected w then _remote_connected w else w.

Definition start_channel (w : world) : world :=
  let w := stop_channel w in
  let ws_host_url :=
    master_url (this w) +:+ "/api/sessions/" +:+ session_id (this w) +:+ "/ws" in
  let w := console_log (log_starting ws_host_url) w in
  let g := length (activations w) in
  let w := set_this (set_ws (Some (length (sockets w))) (this w))
             (set_sockets (sockets w ++ [{| url := ws_host_url; readyState := CONNECTING;
                                            onclose := ws_closed_early g; onerror := g |}]) w) in
  let w := set_activations
             (activations w ++ [{| already_called_onclose := false; ws_host_url := ws_host_url |}]) w in
  setTimeout (grace_switch g) 1000 w.

(** The test-and-set that opens each of the three guarded handlers of
    activation [g]: [None] when the guard was already set. *)
Definition enter_once (g : nat) (path : close_path) (w : world) : option (activation * world) :=
  match activations w !! g with
  | Some a =>
      if already_called_onclose a then None
      else Some (a, set_entered (entered w ++ [(g, path)])
                      (set_activations
                         (<[g := {| already_called_onclose := true; ws_host_url := ws_host_url a |}]>
                            (activations w)) w))
  | None => None
  end.

(** [ws_closed_early] and [ws_closed_late] have the same body. *)
Definition run_ws_closed (g : nat) (path : close_path) (wasClean : bool) (w : world) : world :=
  match enter_once g path w with
  | Some (a, w) => if negb wasClean then _ws_closed (ws_host_url a) false w else w
  | None => w
  end.

Definition run_ws_error (g : nat) (w : world) : world :=
  match enter_once g error_path w with
  | Some (a, w) => _ws_closed (ws_host_url a) true w
  | None => w
  end.

Definition run_close_handler (h : close_handler) (wasClean : bool) (w : world) : world :=
  match h with
  | ws_closed_early g => run_ws_closed g early_path wasClean w
  | ws_closed_late g => run_ws_closed g late_path wasClean w
  | stop_close => stop_channel_close w
  end.

(** The callback of the one-second timer of activation [g]. *)
Definition run_grace_switch (g : nat) (w : world) : world :=
  match current_socket w with
  | Some (i, s) => set_sockets (<[i := with_onclose (ws_closed_late g) s]> (sockets w)) w
  | None => w
  end.

(** [send_input_reply]: [inl] is the thrown error. *)
Definition send_input_reply (input : json) (w : world) : (string + nat) * world :=
  if negb (is_connected w) then (inl "remote is not connected", w)
  else
    let content := JObj [("value", input)] in
    let w := trigger (input_reply content) w in
    let (msg, w) := _get_msg "input_reply" content None None w in
    let msg := Msg.with_channel "stdin" msg in
    match ws (this w) with
    | Some i => (inr (Msg.msg_id (Msg.hdr msg)), set_sent (sent w ++ [(i, serialize msg)]) w)
    | None => (inl "TypeError", w)
    end.

(** [location.protocol.replace('http', 'ws')] for the two protocols a page
    is served over. *)
Definition ws_protocol (protocol : string) : string :=
  match protocol with
  | String "h"%char (String "t"%char (String "t"%char (String "p"%char rest))) => "ws" +:+ rest
  | _ => protocol
  end.

(** The constructor.  [body_master_url] is
    [utils.get_body_data("masterUrl")]; an absent value is the empty
    string. *)
Definition new_Remote (master_url body_master_url location_protocol location_host session_id : string)
    : world :=
  let m := if String.eqb master_url "" then body_master_url else master_url in
  let m := if String.eqb m "" then ws_protocol location_protocol +:+ "//" +:+ location_host else m in
  {| this := {| ws := None; master_url := m; username := "username";
                session_id := session_id; _autorestart_attempt := 0;
                _reconnect_attempt := 0; reconnect_limit := 7 |};
     sockets := []; activations := []; timers := []; next_timer := 0;
     triggered := []; console := []; sent := []; uuids := 0; entered := [];
     inbound := Promise.init |}.

(** ** Tasks *)

(** What the browser, the bus and the callers of the object can make
    happen, one task at a time.  A socket event first updates [readyState]
    as the browser does ([OPEN] before [open]; [CLOSED] before [error] and
    [close]) and then calls the handler stored on that socket; [onmessage] is
    the same bound [_handle_ws_message] on every socket. *)
Inductive event :=
| ev_open (sid : nat)
| ev_close (sid : nat) (wasClean : bool)
| ev_error (sid : nat)
| ev_message (sid : nat) (f : frame)
| ev_timer (tid : nat)
| ev_tick
| ev_bus (n : notification)
| call_start_channel
| call_stop_channel
| call_send_input_reply (input : json).

Definition mark (st : ready_state) (sid : nat) (s : WebSocket) (w : world) : world :=
  set_sockets (<[sid := with_readyState st s]> (sockets w)) w.

Definition deliver_open (sid : nat) (w : world) : world :=
  match sockets w !! sid with
  | Some s => _ws_opened (mark OPEN sid s w)
  | None => w
  end.

Definition deliver_close (sid : nat) (wasClean : bool) (w : world) : world :=
  match sockets w !! sid with
  | Some s => run_close_handler (onclose s) wasClean (mark CLOSED sid s w)
  | None => w
  end.

Definition deliver_error (sid : nat) (w : world) : world :=
  match sockets w !! sid with
  | Some s => run_ws_error (onerror s) (mark CLOSED sid s w)
  | None => w
  end.

Definition has_id (tid : nat) (t : timer) : bool := Nat.eqb (timer_id t) tid.

(** The callback of a timer that fires.  [Remote.prototype] has no
    [reconnect]: [$.proxy(this.reconnect, this)] is [$.proxy(undefined, this)],
    which returns [undefined], and a timer set with it runs nothing. *)
Definition run_timer (cb : timer_callback) (w : world) : world :=
  match cb with
  | grace_switch g => run_grace_switch g w
  | do_reconnect => w
  end.

Definition fire_timer (tid : nat) (w : world) : world :=
  match List.find (has_id tid) (timers w) with
  | Some t => run_timer (callback t)
                (set_timers (List.filter (fun t => negb (has_id tid t)) (timers w)) w)
  | None => w
  end.

(** A publication on the bus by someone else. *)
Definition publish (n : notification) (w : world) : world :=
  match n with
  | bus_send_input_reply data => snd (send_input_reply data w)
  | _ => listeners n w
  end.

Section Tasks.
Variable policy : catch_policy.
Variable exec_listener : json -> option err.

Definition step (w : world) (e : event) : world :=
  match e with
  | ev_open sid => deliver_open sid w
  | ev_close sid wasClean => deliver_close sid wasClean w
  | ev_error sid => deliver_error sid w
  | ev_message _ f => set_inbound (Promise.on_message policy exec_listener f (inbound w)) w
  | ev_timer tid => fire_timer tid w
  | ev_tick => set_inbound (Promise.tick policy exec_listener (inbound w)) w
  | ev_bus n => publish n w
  | call_start_channel => start_channel w
  | call_stop_channel => stop_channel w
  | call_send_input_reply input => snd (send_input_reply input w)
  end.

Definition run (evs : list event) (w : world) : world := fold_left step evs w.

End Tasks.

(** The timers of [_schedule_reconnect]. *)
Definition is_reconnect (t : timer) : bool :=
  match callback t with
  | do_reconnect => true
  | grace_switch _ => false
  end.

(** ** The AJAX success handler *)

Module Ajax.

(** The first field named [k]. *)
Fixpoint field (k : string) (fields : list (string * json)) : json :=
  match fields with
  | [] => JUndefined
  | (k', v) :: rest => if String.eqb k k' then v else field k rest
  end.

(** [data.id] and [data.name] for a truthy [data]: the property of an
    object; numbers, booleans, strings and arrays have neither. *)
Definition get (k : string) (data : json) : json :=
  match data with
  | JObj fields => field k fields
  | _ => JUndefined
  end.

(** The two fields of the object that [_on_success] writes. *)
Record target := {
  id : json;
  name : json
}.

(** One call of the [success] callback, with the fields of the object as
    they are when it is called. *)
Record call := {
  data : json;
  status : json;
  xhr : json;
  seen : target
}.

(** The function [_on_success(success)] returns, applied to
    [(data, status, xhr)]; [success] tells whether a callback was given. *)
Definition _on_success (success : bool) (d st x : json) (s : target * list call)
    : target * list call :=
  let t := if truthy d then {| id := get "id" d; name := get "name" d |} else fst s in
  (t, if success then snd s ++ [{| data := d; status := st; xhr := x; seen := t |}] else snd s).

(** The handler applied to the responses [rs], oldest first. *)
Definition handle_all (success : bool) (rs : list (json * json * json)) (s : target * list call)
    : target * list call :=
  fold_left (fun s r => _on_success success (fst (fst r)) (snd (fst r)) (snd r) s) rs s.

(** The fields after a response with the body [d]. *)
Definition after (d : json) (t : target) : target :=
  if truthy d then {| id := get "id" d; name := get "name" d |} else t.

End Ajax.

(** * Specification-level definitions *)

(** ** The connection *)

(** An open socket after [stop_channel]. *)
Definition closing (s : WebSocket) : WebSocket :=
  with_readyState CLOSING (with_onclose stop_close s).

(** A first transport that has opened. *)
Definition open_world : world :=
  run utils_reject (fun _ => None) [call_start_channel; ev_open 0]
    (new_Remote "ws://host" "" "" "" "s1").

(** [o || d] for an argument that may be omitted. *)
Definition with_default (o : option json) (d : json) : json :=
  match o with
  | Some v => if truthy v then v else d
  | None => d
  end.

(** The envelope [send_input_reply(input)] sends from [w]. *)
Definition input_reply_envelope (w : world) (input : json) : Msg.t :=
  {| Msg.hdr := {| Msg.msg_id := uuids w; Msg.username := username (this w);
                   Msg.session := session_id (this w); Msg.msg_type := "input_reply";
                   Msg.version := "5.0" |};
     Msg.metadata := JObj []; Msg.content := JObj [("value", input)];
     Msg.buffers := JArr []; Msg.parent_header := JObj [];
     Msg.channel := Some "stdin" |}.

(** A step that leaves the guards, the ceiling and the promises alone. *)
Definition quiet (w w' : world) : Prop :=
  activations w' = activations w /\ entered w' = entered w
  /\ reconnect_limit (this w') = reconnect_limit (this w)
  /\ inbound w' = inbound w.

(** Pending timers carry ids that were handed out, and the attempt counter
    is not negative. *)
Definition timers_ok (w : world) : Prop :=
  Forall (fun t => timer_id t < next_timer w) (timers w)
  /\ (0 <= _reconnect_attempt (this w))%Z.

(** A step that leaves the timers alone. *)
Definition same_timers (w w' : world) : Prop :=
  timers w' = timers w /\ next_timer w' = next_timer w
  /\ (0 <= _reconnect_attempt (this w) -> 0 <= _reconnect_attempt (this w'))%Z.

(** The guard of activation [g] is set. *)
Definition guard_set (g : nat) (w : world) : Prop :=
  exists a, activations w !! g = Some a /\ already_called_onclose a = true.

(** What no step undoes: a set guard stays set, a socket stays in the store
    with the [onerror] handler it was created with. *)
Definition persists (w w' : world) : Prop :=
  (forall g, guard_set g w -> guard_set g w')
  /\ (forall sid s, sockets w !! sid = Some s ->
        exists s', sockets w' !! sid = Some s' /\ onerror s' = onerror s).

(** The terminal notification. *)
Definition is_dead (n : notification) : bool :=
  match n with
  | remote_connection_dead _ => true
  | _ => false
  end.

(** ** The chain of inbound frames *)

Module Chain.
Import Promise.

Section Chain.
Variable policy : catch_policy.
Variable exec_listener : json -> option err.

(** What the dispatch handler prints and how it ends. *)
Definition dispatch (v : value) : list output * settled :=
  match v with
  | undefined => ([log_message v], rejected_with (Err "TypeError"))
  | message exec =>
      if truthy exec then
        ([log_message v; trigger_exec exec],
         match exec_listener exec with
         | Some e => rejected_with e
         | None => fulfilled_with undefined
         end)
      else ([log_message v], fulfilled_with undefined)
  end.

(** What the catch handler prints and how the link ends. *)
Definition report (e : err) : list output * settled :=
  let wrapped_error := Wrapped "Couldn't process remote message" e in
  ([console_error wrapped_error],
   match policy with
   | log_and_return => fulfilled_with undefined
   | log_and_reject => rejected_with wrapped_error
   end).

(** The rest of a link once its decode has ended with [o]. *)
Definition finish (o : settled) : list output * settled :=
  match o with
  | fulfilled_with v =>
      match dispatch v with
      | (l, fulfilled_with v') => (l, fulfilled_with v')
      | (l, rejected_with e) => (l ++ fst (report e), snd (report e))
      end
  | rejected_with e => report e
  end.

(** The chain seen from outside: how the last finished link ended, the
    decode in flight (ticks left and its result), the frames whose link has
    not started, and the output so far. *)
Record t := {
  last : settled;
  current : option (nat * settled);
  queue : list frame;
  log : list output
}.

(** Runs the links of [fs] in order until a decode has to wait. *)
Fixpoint advance (prev : settled) (fs : list frame) (lg : list output) : t :=
  match fs with
  | [] => {| last := prev; current := None; queue := []; log := lg |}
  | f :: fs' =>
      match prev with
      | rejected_with e => advance (snd (report e)) fs' (lg ++ fst (report e))
      | fulfilled_with _ =>
          let lg := lg ++ [deserialize_call (data f)] in
          match answer f with
          | sync_throw e =>
              advance (snd (finish (rejected_with e))) fs' (lg ++ fst (finish (rejected_with e)))
          | sync_value v =>
              advance (snd (finish (fulfilled_with v))) fs' (lg ++ fst (finish (fulfilled_with v)))
          | async 0 r => advance (snd (finish r)) fs' (lg ++ fst (finish r))
          | async (S n) r =>
              {| last := prev; current := Some (S n, r); queue := fs'; log := lg |}
          end
      end
  end.

Definition arrive (f : frame) (c : t) : t :=
  match current c with
  | None => advance (last c) (queue c ++ [f]) (log c)
  | Some _ => {| last := last c; current := current c; queue := queue c ++ [f]; log := log c |}
  end.

Definition tick (c : t) : t :=
  match current c with
  | Some (S (S n), r) =>
      {| last := last c; current := Some (S n, r); queue := queue c; log := log c |}
  | Some (_, r) => advance (snd (finish r)) (queue c) (log c ++ fst (finish r))
  | None => c
  end.

Definition init : t :=
  {| last := fulfilled_with undefined; current := None; queue := []; log := [] |}.

(** How the decode of a frame ends, and how long it takes. *)
Definition outcome (f : frame) : settled :=
  match answer f with
  | sync_throw e => rejected_with e
  | sync_value v => fulfilled_with v
  | async _ r => r
  end.

Definition latency (f : frame) : nat :=
  match answer f with
  | async n _ => n
  | _ => 0
  end.

Definition total_latency (fs : list frame) : nat := sum_list_with latency fs.

(** The whole link of one frame, given how the link before it ended. *)
Definition whole (prev : settled) (f : frame) : list output * settled :=
  match prev with
  | rejected_with e => report e
  | fulfilled_with _ =>
      (deserialize_call (data f) :: fst (finish (outcome f)),
       snd (finish (outcome f)))
  end.

(** The links of [fs] one after the other. *)
Fixpoint sequential (prev : settled) (fs : list frame) : list output * settled :=
  match fs with
  | [] => ([], prev)
  | f :: fs' =>
      (fst (whole prev f) ++ fst (sequential (snd (whole prev f)) fs'),
       snd (sequential (snd (whole prev f)) fs'))
  end.

(** What one frame prints when the link before it ended well. *)
Definition block (f : frame) : list output :=
  deserialize_call (data f) :: fst (finish (outcome f)).

(** The frame decodes to a message and its dispatch does not throw. *)
Definition healthy (f : frame) : bool :=
  match outcome f with
  | fulfilled_with (message exec) =>
      if truthy exec then
        match exec_listener exec with
        | None => true
        | Some _ => false
        end
      else true
  | _ => false
  end.

(** The message a healthy frame decodes to. *)
Definition decoded (f : frame) : value :=
  match outcome f with
  | fulfilled_with v => v
  | rejected_with _ => undefined
  end.

(** [Promise.resolve()], the chain before any frame. *)
Definition started : settled := fulfilled_with undefined.

(** The chain after the frames [fs] have arrived. *)
Definition follows (fs : list frame) (c : t) : Prop :=
  match current c with
  | None =>
      queue c = [] /\ log c = fst (sequential started fs)
      /\ last c = snd (sequential started fs)
  | Some (n, r) =>
      exists done f v,
        fs = done ++ f :: queue c
        /\ last c = fulfilled_with v
        /\ snd (sequential started done) = fulfilled_with v
        /\ log c = fst (sequential started done) ++ [deserialize_call (data f)]
        /\ outcome f = r /\ 0 < n /\ n <= latency f
  end.

(** Decode time still to wait for. *)
Definition work (c : t) : nat :=
  match current c with
  | Some (n, _) => n
  | None => 0
  end + total_latency (queue c).

(** The chain behind the tasks of the page: only messages and ticks move it. *)
Definition step (c : t) (e : event) : t :=
  match e with
  | ev_message _ f => arrive f c
  | ev_tick => tick c
  | _ => c
  end.

Definition run (evs : list event) : t := fold_left step evs init.

(** The error a frame fails with, in its decode or in its dispatch. *)
Definition failure (f : frame) : option err :=
  match outcome f with
  | rejected_with e => Some e
  | fulfilled_with v =>
      match snd (dispatch v) with
      | rejected_with e => Some e
      | fulfilled_with _ => None
      end
  end.

(** The message a frame decodes to. *)
Definition delivered (f : frame) : option value :=
  match outcome f with
  | fulfilled_with v => Some v
  | rejected_with _ => None
  end.

End Chain.
End Chain.

(** The messages the dispatch handler was called with, in order. *)
Definition dispatched (l : list Promise.output) : list value :=
  omap (fun o => match o with Promise.log_message v => Some v | _ => None end) l.

(** The errors the catch handler logged, in order. *)
Definition reported (l : list Promise.output) : list err :=
  omap (fun o => match o with Promise.console_error e => Some e | _ => None end) l.

(** The frames whose decode was called, in order. *)
Definition decode_calls (l : list Promise.output) : list nat :=
  omap (fun o => match o with Promise.deserialize_call d => Some d | _ => None end) l.

Definition frames_of (evs : list event) : list frame :=
  omap (fun e => match e with ev_message _ f => Some f | _ => None end) evs.

Definition ticks_of (evs : list event) : nat :=
  length (List.filter (fun e => match e with ev_tick => true | _ => false end) evs).

(** ** The promise store behind the chain *)

Section Store.
Import Promise.

Definition heap_weight (h : list cell) : nat := sum_list_with cell_weight h.
Definition jobs_weight (js : list job) : nat := sum_list_with job_weight js.

Definition then_decode (f : frame) (t : nat) : reaction :=
  {| on_fulfilled := Some (cb_decode f); on_rejected := None; target := t |}.
Definition then_dispatch (t : nat) : reaction :=
  {| on_fulfilled := Some cb_dispatch; on_rejected := None; target := t |}.
Definition then_catch (t : nat) : reaction :=
  {| on_fulfilled := None; on_rejected := Some cb_catch; target := t |}.
Definition adopt (t : nat) : reaction :=
  {| on_fulfilled := None; on_rejected := None; target := t |}.

(** The three promises of one link, not yet settled; [rs] are the
    registrations on the last of them. *)
Definition link (h : list cell) (p1 p3 : nat) (rs : list reaction) : Prop :=
  exists p2,
    p1 < p2 /\ p2 < p3
    /\ h !! p1 = Some (pending [then_dispatch p2])
    /\ h !! p2 = Some (pending [then_catch p3])
    /\ h !! p3 = Some (pending rs).

(** The links of the frames [fs], registered one after the other behind
    the promise [tail] whose registrations are [rs]; [q] is the last promise
    of the last link. *)
Fixpoint links (h : list cell) (tail : nat) (rs : list reaction) (fs : list frame) (q : nat) : Prop :=
  match fs with
  | [] => rs = [] /\ q = tail
  | f :: fs' =>
      exists p1 p3 rs',
        rs = [then_decode f p1] /\ tail < p1
        /\ link h p1 p3 rs' /\ links h p3 rs' fs' q
  end.

(** The machine state at the end of a task matches the chain [c]. *)
Definition matches (s : state) (c : Chain.t) : Prop :=
  microtasks s = [] /\ out s = Chain.log c
  /\ match Chain.current c with
     | None =>
         Chain.queue c = [] /\ decoding s = []
         /\ heap s !! _msg_queue s = Some (cell_of (Chain.last c))
     | Some (n, r) =>
         exists d p1 p3 rs,
           decoding s = [{| promise := d; remaining := n; result := r |}]
           /\ 0 < n
           /\ heap s !! d = Some (pending [adopt p1])
           /\ link (Promise.heap s) p1 p3 rs
           /\ links (Promise.heap s) p3 rs (Chain.queue c) (_msg_queue s)
     end.

(** What remains true of the machine from [s] to [s'] while the link ending
    in [p3] runs and prints [l]. *)
Definition ran (s s' : state) (p3 : nat) (l : list output) : Prop :=
  out s' = out s ++ l
  /\ decoding s' = decoding s /\ _msg_queue s' = _msg_queue s
  /\ length (Promise.heap s) <= length (heap s')
  /\ (forall x, p3 < x -> x < length (Promise.heap s) -> heap s' !! x = heap s !! x).

(** The last promise of a link is settled with [o3]. *)
Definition ended (s' : state) (p3 : nat) (rs : list reaction) (o3 : settled) : Prop :=
  microtasks s' = map (fun r => reaction_job r o3) rs
  /\ heap s' !! p3 = Some (cell_of o3).

End Store.

(** A link that ended with a rejection was ended by a rejecting handler. *)
Definition sound (policy : catch_policy) (prev : settled) : Prop :=
  match prev with
  | fulfilled_with _ => True
  | rejected_with _ => policy = log_and_reject
  end.

(** Three frames, the second of which fails to decode. *)
Definition sample_frames : list frame :=
  [ {| data := 1; answer := async 3 (fulfilled_with (message (JStr "a"))) |};
    {| data := 2; answer := sync_throw (Err "bad frame") |};
    {| data := 3; answer := async 1 (fulfilled_with (message JUndefined)) |} ].

(** Three frames that decode and dispatch, with different latencies. *)
Definition healthy_frames : list frame :=
  [ {| data := 1; answer := async 3 (fulfilled_with (message (JStr "a"))) |};
    {| data := 2; answer := sync_value (message JUndefined) |};
    {| data := 3; answer := async 1 (fulfilled_with (message (JStr "c"))) |} ].

(** A channel is started and opens, then the frames arrive back to back. *)
Definition arrivals (fs : list frame) : list event :=
  call_start_channel :: ev_open 0 :: map (ev_message 0) fs.

(** ** Further properties *)

(** Everything of the object but the handle. *)
Definition same_fields (r r' : Remote) : Prop :=
  master_url r' = master_url r /\ username r' = username r
  /\ session_id r' = session_id r
  /\ _autorestart_attempt r' = _autorestart_attempt r
  /\ _reconnect_attempt r' = _reconnect_attempt r
  /\ reconnect_limit r' = reconnect_limit r.

(** What [_ws_closed] publishes after [remote_disconnected]. *)
Definition loss_notifications (u : string) (error : bool) (a limit : Z) : list notification :=
  (if error then [remote_connection_failed u a] else [])
  ++ (if (a <? limit)%Z then [] else [remote_connection_dead a]).

(** The timer [_schedule_reconnect] arms, if any. *)
Definition reconnect_timers (tid : nat) (a limit : Z) : list timer :=
  if (a <? limit)%Z
  then [{| timer_id := tid; delay_ms := 1000 * 2 ^ a; callback := do_reconnect |}]
  else [].

(** The URL [start_channel] opens its transports at. *)
Definition channel_url (r : Remote) : string :=
  master_url r +:+ "/api/sessions/" +:+ session_id r +:+ "/ws".

(** What a socket keeps for life: its URL and its [onerror] handler. *)
Definition socket_ids (l : list WebSocket) : list (string * nat) :=
  map (fun s => (url s, onerror s)) l.

(** A [remote_connection_failed] notification names the URL [u]. *)
Definition failed_at (u : string) (n : notification) : Prop :=
  match n with
  | remote_connection_failed u' _ => u' = u
  | _ => True
  end.

(** A step that creates no transport: the identity of the object and of
    its transports stays, the handle stays or is cleared, and a failure it
    reports names [u]. *)
Definition keeps (u : string) (w w' : world) : Prop :=
  master_url (this w') = master_url (this w)
  /\ session_id (this w') = session_id (this w)
  /\ username (this w') = username (this w)
  /\ (_autorestart_attempt (this w') = _autorestart_attempt (this w)
      \/ _autorestart_attempt (this w') = 0%Z)
  /\ (ws (this w') = ws (this w) \/ ws (this w') = None)
  /\ socket_ids (sockets w') = socket_ids (sockets w)
  /\ map ws_host_url (activations w') = map ws_host_url (activations w)
  /\ exists extra, triggered w' = triggered w ++ extra /\ Forall (failed_at u) extra.

(** The handle is the latest transport or null; transport [i] belongs to
    activation [i]; every transport, activation and reported failure carries
    the URL of the object. *)
Definition anchored (w : world) : Prop :=
  length (activations w) = length (sockets w)
  /\ (forall i, ws (this w) = Some i -> S i = length (sockets w))
  /\ (forall i s, sockets w !! i = Some s -> url s = channel_url (this w) /\ onerror s = i)
  /\ (forall g a, activations w !! g = Some a -> ws_host_url a = channel_url (this w))
  /\ Forall (failed_at (channel_url (this w))) (triggered w)
  /\ username (this w) = "username"
  /\ _autorestart_attempt (this w) = 0%Z.

(** Fields no task writes. *)
Definition same_identity (w w' : world) : Prop :=
  master_url (this w') = master_url (this w)
  /\ session_id (this w') = session_id (this w).

(** The [exec] values published on the bus as [exec.Remote], in order. *)
Definition published (l : list Promise.output) : list json :=
  omap (fun o => match o with Promise.trigger_exec e => Some e | _ => None end) l.

(** The [exec] property the dispatch of a frame publishes, if any. *)
Definition exec_of (f : frame) : option json :=
  match Chain.outcome f with
  | fulfilled_with (message exec) => if truthy exec then Some exec else None
  | _ => None
  end.

(** Tasks that reach the promise chain. *)
Definition is_inbound (e : event) : bool :=
  match e with
  | ev_message _ _ | ev_tick => true
  | _ => false
  end.

(** The notifications [record_status] logged, oldest first. *)
Definition logged (c : list console_entry) : list notification :=
  omap (fun e => match e with log_status n => Some n | _ => None end) c.

(** A task of the object itself: anything but a status publication made
    by someone else on the bus. *)
Definition own_task (e : event) : bool :=
  match e with
  | ev_bus (bus_send_input_reply _) => true
  | ev_bus _ => false
  | _ => true
  end.

(** The notifications of the connection and of [send_input_reply]. *)
Definition emitted (n : notification) : Prop :=
  match n with
  | remote_connected | remote_disconnected | remote_connection_failed _ _
  | remote_connection_dead _ | input_reply _ => True
  | _ => False
  end.

(** What a step publishes is among the notifications of the file, and is
    logged by [record_status] when it has one of the names [bind_events]
    binds. *)
Definition announces (w w' : world) : Prop :=
  exists extra,
    triggered w' = triggered w ++ extra
    /\ logged (console w') = logged (console w) ++ List.filter has_record_status extra
    /\ Forall emitted extra.

(** A step that leaves the close handler of every socket but the current
    one, and moves the handle, if at all, to null or to a new socket. *)
Definition spares (w w' : world) : Prop :=
  length (sockets w) <= length (sockets w')
  /\ (ws (this w') = ws (this w) \/ ws (this w') = None
      \/ exists n, ws (this w') = Some n /\ length (sockets w) <= n)
  /\ forall k s, sockets w !! k = Some s -> ws (this w) <> Some k ->
       exists s', sockets w' !! k = Some s' /\ onclose s' = onclose s.

(** A call of [start_channel] by a user of the object. *)
Definition is_start_call (e : event) : bool :=
  match e with
  | call_start_channel => true
  | _ => false
  end.

(** No reconnect attempt has been counted and the connection has not been
    declared dead. *)
Definition dormant (w : world) : Prop :=
  _reconnect_attempt (this w) = 0%Z
  /\ reconnect_limit (this w) = 7%Z
  /\ List.filter is_dead (triggered w) = [].

(** A step that leaves the ceiling, leaves the attempt counter or resets
    it, and declares the connection dead only with a counter that was not 0
    or a ceiling that was not 7. *)
Definition still (w w' : world) : Prop :=
  reconnect_limit (this w') = reconnect_limit (this w)
  /\ (_reconnect_attempt (this w') = _reconnect_attempt (this w)
      \/ _reconnect_attempt (this w') = 0%Z)
  /\ exists extra,
       triggered w' = triggered w ++ extra
       /\ (_reconnect_attempt (this w) = 0%Z -> reconnect_limit (this w) = 7%Z ->
           List.filter is_dead extra = []).

(** * Theorems *)

(** ** The connection *)

Lemma quiet_refl w : quiet w w.
Proof. repeat split. Qed.

Lemma quiet_trans w1 w2 w3 :
  quiet w1 w2 -> quiet w2 w3 -> quiet w1 w3.
Proof. unfold quiet. intros (-> & -> & -> & ->) (-> & -> & -> & ->). repeat split. Qed.

Ltac leaf := repeat split; repeat (simpl; try case_match); reflexivity.

Lemma quiet_stop_channel_close w : quiet w (stop_channel_close w).
Proof. unfold stop_channel_close, current_socket. leaf. Qed.

Lemma quiet_stop_channel w : quiet w (stop_channel w).
Proof. unfold stop_channel, stop_channel_close, current_socket. leaf. Qed.

Lemma quiet_console_log e w : quiet w (console_log e w).
Proof. leaf. Qed.

Lemma quiet_setTimeout cb d w : quiet w (setTimeout cb d w).
Proof. leaf. Qed.

Lemma quiet_trigger n w : quiet w (trigger n w).
Proof. unfold trigger, listeners. leaf. Qed.

Lemma quiet_listeners n w : quiet w (listeners n w).
Proof. unfold listeners. leaf. Qed.

Lemma quiet_schedule_reconnect w : quiet w (_schedule_reconnect w).
Proof. unfold _schedule_reconnect, trigger, listeners. leaf. Qed.

Lemma quiet_ws_closed u b w : quiet w (_ws_closed u b w).
Proof.
  unfold _ws_closed.
  eapply quiet_trans; [apply quiet_stop_channel|].
  eapply quiet_trans; [apply quiet_trigger|].
  eapply quiet_trans; [|apply quiet_schedule_reconnect].
  destruct b; [|apply quiet_refl].
  eapply quiet_trans; [apply quiet_console_log|apply quiet_trigger].
Qed.

Lemma quiet_ws_opened w : quiet w (_ws_opened w).
Proof.
  unfold _ws_opened, _remote_connected. case_match;
    [apply quiet_trigger|apply quiet_refl].
Qed.

Lemma quiet_mark st sid s w : quiet w (mark st sid s w).
Proof. leaf. Qed.

Lemma quiet_grace_switch g w : quiet w (run_grace_switch g w).
Proof. unfold run_grace_switch, current_socket. leaf. Qed.

Lemma quiet_send_input_reply v w : quiet w (snd (send_input_reply v w)).
Proof.
  unfold send_input_reply, _get_msg, utils_uuid, trigger, listeners. leaf.
Qed.

Lemma quiet_publish n w : quiet w (publish n w).
Proof.
  destruct n; first [exact (quiet_listeners _ w) | exact (quiet_send_input_reply _ w)].
Qed.

Lemma stop_channel_lengths w :
  length (sockets (stop_channel w)) = length (sockets w).
Proof.
  unfold stop_channel, stop_channel_close, current_socket.
  repeat (simpl; try case_match); rewrite ?length_insert; reflexivity.
Qed.

Lemma limit_start_channel w :
  reconnect_limit (this (start_channel w)) = reconnect_limit (this w).
Proof.
  unfold start_channel. simpl. apply quiet_stop_channel.
Qed.

Lemma limit_step policy l w e :
  reconnect_limit (this (step policy l w e)) = reconnect_limit (this w).
Proof.
  destruct e; simpl.
  - unfold deliver_open. case_match; [|reflexivity].
    etransitivity; [apply quiet_ws_opened|reflexivity].
  - unfold deliver_close. case_match; [|reflexivity].
    destruct (onclose w0); simpl.
    + unfold run_ws_closed, enter_once. repeat (simpl; try case_match); simplify_eq; try reflexivity.
      etransitivity; [apply quiet_ws_closed|reflexivity].
    + unfold run_ws_closed, enter_once. repeat (simpl; try case_match); simplify_eq; try reflexivity.
      etransitivity; [apply quiet_ws_closed|reflexivity].
    + etransitivity; [apply quiet_stop_channel_close|reflexivity].
  - unfold deliver_error. case_match; [|reflexivity].
    unfold run_ws_error, enter_once. repeat (simpl; try case_match); simplify_eq; try reflexivity.
    etransitivity; [apply quiet_ws_closed|reflexivity].
  - reflexivity.
  - unfold fire_timer. case_match; [|reflexivity].
    destruct (callback t); simpl.
    + etransitivity; [apply quiet_grace_switch|reflexivity].
    + reflexivity.
  - reflexivity.
  - apply quiet_publish.
  - apply limit_start_channel.
  - apply quiet_stop_channel.
  - apply quiet_send_input_reply.
Qed.

Lemma limit_run policy l evs w :
  reconnect_limit (this (run policy l evs w)) = reconnect_limit (this w).
Proof.
  revert w. induction evs as [|e evs IH]; intros w; simpl; [reflexivity|].
  rewrite IH. apply limit_step.
Qed.

Ltac len := rewrite ?length_insert, ?length_app; simpl; try lia.

Ltac lk :=
  repeat first
    [ rewrite list_lookup_middle by reflexivity
    | rewrite list_lookup_insert_eq by len
    | rewrite list_insert_insert_eq
    | progress simpl ].

Ltac destruct_world w :=
  destruct w as [[?wsr ?mu ?un ?sess ?ar ?ra ?rl] ?socks ?acts ?tms ?nt ?trg ?con ?snt ?uu ?ent ?inb];
  simpl in *.

Lemma open_then_unclean_close policy l w :
  reconnect_limit (this w) = 7%Z ->
  let w1 := start_channel w in
  let sid := length (sockets w) in
  let w2 := run policy l [ev_open sid; ev_close sid false] w1 in
  triggered w2 = triggered w1 ++ [remote_connected; remote_disconnected]
  /\ timers w2 = timers w1 ++ [{| timer_id := next_timer w1; delay_ms := 1000; callback := do_reconnect |}]
  /\ entered w2 = entered w1 ++ [(length (activations w), early_path)]
  /\ ws (this w2) = None.
Proof.
  intros Hlim.
  pose proof (stop_channel_lengths w) as Hlen.
  pose proof (quiet_stop_channel w) as (Ha & He & Hl & _).
  unfold start_channel. set (w0 := stop_channel w) in *.
  rewrite <- ?Hlen, <- ?Ha. rewrite <- Hl in Hlim. clearbody w0. clear - Hlim.
  destruct_world w0. subst.
  unfold deliver_open; lk.
  unfold mark, _ws_opened, is_connected, current_socket; lk.
  unfold deliver_close; lk.
  unfold run_ws_closed, enter_once; lk.
  unfold _ws_closed, stop_channel, stop_channel_close, current_socket; lk.
  rewrite <- !app_assoc. simpl. auto.
Qed.

Lemma same_timers_refl w : same_timers w w.
Proof. repeat split. auto. Qed.

Lemma same_timers_trans w1 w2 w3 :
  same_timers w1 w2 -> same_timers w2 w3 -> same_timers w1 w3.
Proof. unfold same_timers. intros (-> & -> & ?) (-> & -> & ?). repeat split. auto. Qed.

Ltac leaf_t := repeat split; repeat (simpl; try case_match); try reflexivity; try lia; auto.

Lemma same_timers_stop_channel_close w : same_timers w (stop_channel_close w).
Proof. unfold stop_channel_close, current_socket. leaf_t. Qed.

Lemma same_timers_stop_channel w : same_timers w (stop_channel w).
Proof. unfold stop_channel, stop_channel_close, current_socket. leaf_t. Qed.

Lemma same_timers_console_log e w : same_timers w (console_log e w).
Proof. leaf_t. Qed.

Lemma same_timers_listeners n w : same_timers w (listeners n w).
Proof. unfold listeners. leaf_t. Qed.

Lemma same_timers_trigger n w : same_timers w (trigger n w).
Proof. unfold trigger, listeners. leaf_t. Qed.

Lemma same_timers_ws_opened w : same_timers w (_ws_opened w).
Proof.
  unfold _ws_opened, _remote_connected. case_match;
    [apply same_timers_trigger|apply same_timers_refl].
Qed.

Lemma same_timers_mark st sid s w : same_timers w (mark st sid s w).
Proof. leaf_t. Qed.

Lemma same_timers_grace_switch g w : same_timers w (run_grace_switch g w).
Proof. unfold run_grace_switch, current_socket. leaf_t. Qed.

Lemma same_timers_send_input_reply v w : same_timers w (snd (send_input_reply v w)).
Proof. unfold send_input_reply, _get_msg, utils_uuid, trigger, listeners. leaf_t. Qed.

Lemma same_timers_publish n w : same_timers w (publish n w).
Proof.
  destruct n; first [exact (same_timers_listeners _ w) | exact (same_timers_send_input_reply _ w)].
Qed.

Lemma timers_ok_same w w' : same_timers w w' -> timers_ok w -> timers_ok w'.
Proof. intros (Ht & Hn & Ha) [H1 H2]. split; [rewrite Ht, Hn; exact H1 | auto]. Qed.

Lemma timers_ok_setTimeout cb d w : timers_ok w -> timers_ok (setTimeout cb d w).
Proof.
  intros [H1 H2]. split; [|exact H2]. simpl. apply Forall_app. split.
  - eapply Forall_impl; [exact H1|]. simpl. intros; lia.
  - repeat constructor.
Qed.

Lemma timers_ok_schedule_reconnect w : timers_ok w -> timers_ok (_schedule_reconnect w).
Proof.
  intros H. unfold _schedule_reconnect. case_match.
  - apply timers_ok_setTimeout. eapply timers_ok_same; [apply same_timers_console_log|exact H].
  - eapply timers_ok_same; [apply same_timers_console_log|].
    eapply timers_ok_same; [apply same_timers_trigger|exact H].
Qed.

Lemma timers_ok_ws_closed u b w : timers_ok w -> timers_ok (_ws_closed u b w).
Proof.
  intros H. unfold _ws_closed. apply timers_ok_schedule_reconnect.
  assert (timers_ok (trigger remote_disconnected (stop_channel w))) as H'.
  { eapply timers_ok_same; [apply same_timers_trigger|].
    eapply timers_ok_same; [apply same_timers_stop_channel|exact H]. }
  destruct b; [|exact H'].
  eapply timers_ok_same; [apply same_timers_trigger|].
  eapply timers_ok_same; [apply same_timers_console_log|exact H'].
Qed.

Lemma timers_ok_enter_once g path w a w' :
  timers_ok w -> enter_once g path w = Some (a, w') -> timers_ok w'.
Proof.
  unfold enter_once. intros H E. repeat case_match; simplify_eq. exact H.
Qed.

Lemma timers_ok_start_channel w : timers_ok w -> timers_ok (start_channel w).
Proof.
  intros H. unfold start_channel. apply timers_ok_setTimeout.
  pose proof (timers_ok_same _ _ (same_timers_stop_channel w) H) as H'. exact H'.
Qed.

Lemma timers_ok_step policy l w e : timers_ok w -> timers_ok (step policy l w e).
Proof.
  intros Hok. destruct e; simpl.
  - unfold deliver_open. case_match; [|assumption].
    eapply timers_ok_same; [apply same_timers_ws_opened|].
    eapply timers_ok_same; [apply same_timers_mark|assumption].
  - unfold deliver_close. case_match; [|assumption].
    assert (timers_ok (mark CLOSED sid w0 w)) as Hm
      by (eapply timers_ok_same; [apply same_timers_mark|assumption]).
    destruct (onclose w0); simpl.
    + unfold run_ws_closed. destruct (enter_once _ _ _) as [[a w1]|] eqn:E; [|assumption].
      apply timers_ok_enter_once in E; [|assumption].
      destruct (negb wasClean); [apply timers_ok_ws_closed|]; assumption.
    + unfold run_ws_closed. destruct (enter_once _ _ _) as [[a w1]|] eqn:E; [|assumption].
      apply timers_ok_enter_once in E; [|assumption].
      destruct (negb wasClean); [apply timers_ok_ws_closed|]; assumption.
    + eapply timers_ok_same; [apply same_timers_stop_channel_close|assumption].
  - unfold deliver_error. case_match; [|assumption].
    assert (timers_ok (mark CLOSED sid w0 w)) as Hm
      by (eapply timers_ok_same; [apply same_timers_mark|assumption]).
    unfold run_ws_error. destruct (enter_once _ _ _) as [[a w1]|] eqn:E; [|assumption].
    apply timers_ok_enter_once in E; [|assumption]. apply timers_ok_ws_closed; assumption.
  - assumption.
  - unfold fire_timer. case_match; [|assumption].
    assert (timers_ok (set_timers (List.filter (λ t0 : timer, negb (has_id tid t0)) (timers w)) w))
      as Hm.
    { destruct Hok as [H1 H2]. split; [|exact H2]. simpl.
      apply Forall_forall. intros x Hx. apply list_elem_of_In, List.filter_In in Hx as [Hx _].
      rewrite Forall_forall in H1. apply H1, list_elem_of_In, Hx. }
    destruct (callback t); simpl.
    + eapply timers_ok_same; [apply same_timers_grace_switch|assumption].
    + exact Hm.
  - assumption.
  - eapply timers_ok_same; [apply same_timers_publish|assumption].
  - apply timers_ok_start_channel; assumption.
  - eapply timers_ok_same; [apply same_timers_stop_channel|assumption].
  - eapply timers_ok_same; [apply same_timers_send_input_reply|assumption].
Qed.

Lemma timers_ok_new m b p h s : timers_ok (new_Remote m b p h s).
Proof. split; [constructor|simpl; lia]. Qed.

Lemma timers_ok_run policy l evs w : timers_ok w -> timers_ok (run policy l evs w).
Proof.
  revert w. induction evs as [|e evs IH]; intros w Hok; simpl; [assumption|].
  apply IH, timers_ok_step, Hok.
Qed.

Lemma find_fresh_timer (ts : list timer) (n : nat) (t : timer) :
  Forall (fun t => timer_id t < n) ts -> timer_id t = n ->
  List.find (has_id n) (ts ++ [t]) = Some t
  /\ List.filter (fun t => negb (has_id n t)) (ts ++ [t]) = ts.
Proof.
  intros H Ht. induction H as [|x ts Hx H IH]; simpl.
  - unfold has_id. rewrite Ht, Nat.eqb_refl. simpl. auto.
  - unfold has_id at 1 3. destruct (Nat.eqb_spec (timer_id x) n) as [E|E]; [lia|].
    simpl. destruct IH as [-> ->]. auto.
Qed.

Lemma attempt_stop_channel w :
  _reconnect_attempt (this (stop_channel w)) = _reconnect_attempt (this w).
Proof.
  unfold stop_channel, stop_channel_close, current_socket.
  repeat (simpl; try case_match); reflexivity.
Qed.

Lemma attempt_schedule_reconnect w :
  _reconnect_attempt (this (_schedule_reconnect w)) = _reconnect_attempt (this w).
Proof. unfold _schedule_reconnect. case_match; reflexivity. Qed.

Lemma attempt_ws_closed u e w :
  _reconnect_attempt (this (_ws_closed u e w)) = _reconnect_attempt (this w).
Proof.
  unfold _ws_closed. rewrite attempt_schedule_reconnect.
  destruct e; simpl; apply attempt_stop_channel.
Qed.

Lemma attempt_start_channel w :
  _reconnect_attempt (this (start_channel w)) = _reconnect_attempt (this w).
Proof. unfold start_channel. simpl. apply attempt_stop_channel. Qed.

Lemma timers_ws_closed u e w :
  (_reconnect_attempt (this w) < reconnect_limit (this w))%Z ->
  timers (_ws_closed u e w)
  = timers w ++ [{| timer_id := next_timer w;
                    delay_ms := 1000 * 2 ^ _reconnect_attempt (this w);
                    callback := do_reconnect |}].
Proof.
  intros Hlt. unfold _ws_closed.
  pose proof (same_timers_stop_channel w) as (Ht & Hn & _).
  pose proof (quiet_stop_channel w) as (_ & _ & Hl & _).
  pose proof (attempt_stop_channel w) as Ha.
  set (w0 := stop_channel w) in *. clearbody w0.
  rewrite <- Ht, <- Hn, <- Ha. rewrite <- Hl, <- Ha in Hlt. clear - Hlt.
  apply Z.ltb_lt in Hlt.
  unfold _schedule_reconnect. destruct e; simpl; rewrite Hlt; reflexivity.
Qed.

Lemma current_socket_lookup w i s :
  current_socket w = Some (i, s) -> ws (this w) = Some i /\ sockets w !! i = Some s.
Proof.
  unfold current_socket. destruct (ws (this w)) as [j|]; [|discriminate].
  destruct (sockets w !! j) eqn:E; [|discriminate]. intros [= <- <-]. auto.
Qed.

(** C7, as stated, fails: on an open transport [stop_channel] leaves the
    handle set, so [is_fully_disconnected] is false right after the call. *)
Lemma stop_channel_open_keeps_handle :
  is_connected open_world = true
  /\ is_fully_disconnected (stop_channel open_world) = false.
Proof. split; reflexivity. Qed.

Lemma stop_channel_cases w :
  match current_socket w with
  | None => stop_channel w = w
  | Some (i, s) =>
      match readyState s with
      | OPEN => stop_channel w = set_sockets (<[i := closing s]> (sockets w)) w
      | CLOSED => stop_channel w = set_this (set_ws None (this w)) w
      | _ => stop_channel w = w
      end
  end.
Proof.
  unfold stop_channel, stop_channel_close.
  destruct (current_socket w) as [[i s]|]; [|reflexivity].
  destruct (readyState s); reflexivity.
Qed.

Lemma current_socket_insert w i s s' :
  current_socket w = Some (i, s) ->
  current_socket (set_sockets (<[i := s']> (sockets w)) w) = Some (i, s').
Proof.
  intros H. apply current_socket_lookup in H as [Hws Hs].
  unfold current_socket. simpl. rewrite Hws.
  rewrite list_lookup_insert_eq by (eapply lookup_lt_Some; eassumption). reflexivity.
Qed.

Lemma current_socket_cleared w : current_socket (set_this (set_ws None (this w)) w) = None.
Proof. reflexivity. Qed.

(** C7, amended.  [stop_channel] is idempotent (a second call in a row
    changes nothing, and without a handle the call changes nothing), and
    after any call [is_connected] is false.  [is_fully_disconnected] is true
    after the call exactly when the transport was absent or already closed
    before it: a connecting, open or closing transport keeps its handle.  For
    an open transport the handle is cleared by the close event of that
    transport when this event is the next task after the call. *)
Theorem stop_channel_idempotent (w : world) :
  stop_channel (stop_channel w) = stop_channel w
  /\ (ws (this w) = None -> stop_channel w = w)
  /\ is_connected (stop_channel w) = false
  /\ is_fully_disconnected (stop_channel w)
     = match current_socket w with
       | Some (_, s) => ready_state_eqb (readyState s) CLOSED
       | None => is_fully_disconnected w
       end
  /\ (forall i s wasClean,
        current_socket w = Some (i, s) -> readyState s = OPEN ->
        is_fully_disconnected (stop_channel w) = false
        /\ is_fully_disconnected (deliver_close i wasClean (stop_channel w)) = true).
Proof.
  pose proof (stop_channel_cases w) as Hc.
  destruct (current_socket w) as [[i s]|] eqn:E.
  - pose proof (current_socket_lookup _ _ _ E) as [Hws Hs].
    assert (i < length (sockets w)) as Hi by (eapply lookup_lt_Some; eassumption).
    destruct (readyState s) eqn:R; rewrite Hc.
    + (* CONNECTING *)
      pose proof (stop_channel_cases w) as Hc'. rewrite E, R in Hc'.
      unfold is_connected, is_fully_disconnected. rewrite E, R, Hws.
      repeat split; try congruence. all: intros; congruence.
    + (* OPEN *)
      pose proof (current_socket_insert w i s (closing s) E) as E'.
      pose proof (stop_channel_cases (set_sockets (<[i := closing s]> (sockets w)) w)) as Hc'.
      rewrite E' in Hc'. simpl in Hc'.
      unfold is_connected, is_fully_disconnected. rewrite E'. simpl. rewrite Hws.
      split; [congruence|]. split; [congruence|]. split; [reflexivity|].
      split; [reflexivity|]. intros i' s' c [= <- <-] _. split; [reflexivity|].
      unfold deliver_close. simpl. rewrite list_lookup_insert_eq by assumption. simpl.
      unfold stop_channel_close, current_socket, mark. simpl. rewrite Hws.
      rewrite list_lookup_insert_eq by (rewrite length_insert; assumption). reflexivity.
    + (* CLOSING *)
      unfold is_connected, is_fully_disconnected. rewrite E, R, Hws.
      repeat split; try congruence. all: intros; congruence.
    + (* CLOSED *)
      pose proof (stop_channel_cases (set_this (set_ws None (this w)) w)) as Hc'.
      rewrite current_socket_cleared in Hc'.
      unfold is_connected, is_fully_disconnected. rewrite current_socket_cleared. simpl.
      repeat split; try congruence. all: intros; congruence.
  - rewrite Hc. unfold is_connected. rewrite E.
    repeat split; try congruence. all: intros; congruence.
Qed.

Lemma stop_channel_idempotent_witness :
  is_fully_disconnected (stop_channel open_world) = false
  /\ is_fully_disconnected (deliver_close 0 true (stop_channel open_world)) = true.
Proof.
  destruct (stop_channel_idempotent open_world) as (_ & _ & _ & _ & H).
  apply (H 0 {| url := "ws://host/api/sessions/s1/ws"; readyState := OPEN;
                onclose := ws_closed_early 0; onerror := 0 |} true); reflexivity.
Defined.

(** C9.  [_get_msg(msg_type, content, metadata, buffers)] returns an envelope
    whose header holds the id just taken from the supply, the user name and
    session id of the object, the given [msg_type] and version ["5.0"], with
    the given content, [metadata] defaulting to the empty object and [buffers]
    to the empty array, an empty [parent_header] and no channel; it changes
    nothing but the id supply; and an envelope built next has another
    [msg_id]. *)
Theorem get_msg_envelope (w : world) (msg_type : string) (content : json)
    (metadata buffers : option json) :
  let m := fst (_get_msg msg_type content metadata buffers w) in
  let w' := snd (_get_msg msg_type content metadata buffers w) in
  Msg.hdr m = {| Msg.msg_id := uuids w; Msg.username := username (this w);
                 Msg.session := session_id (this w); Msg.msg_type := msg_type;
                 Msg.version := "5.0" |}
  /\ Msg.content m = content
  /\ Msg.metadata m = with_default metadata (JObj [])
  /\ Msg.buffers m = with_default buffers (JArr [])
  /\ Msg.parent_header m = JObj []
  /\ Msg.channel m = None
  /\ w' = set_uuids (S (uuids w)) w
  /\ this w' = this w /\ sockets w' = sockets w /\ timers w' = timers w
  /\ triggered w' = triggered w /\ sent w' = sent w
  /\ forall msg_type2 content2 metadata2 buffers2,
       Msg.msg_id (Msg.hdr (fst (_get_msg msg_type2 content2 metadata2 buffers2 w')))
       <> Msg.msg_id (Msg.hdr m).
Proof.
  unfold _get_msg, utils_uuid. simpl.
  repeat split.
  - destruct metadata as [v|]; simpl; [unfold js_or; reflexivity|reflexivity].
  - destruct buffers as [v|]; simpl; [unfold js_or; reflexivity|reflexivity].
  - intros. lia.
Qed.

(** C8.  When [is_connected] is false, [send_input_reply] throws
    ["remote is not connected"] and leaves every part of the world as it
    was.  When it is true, the call publishes [input_reply] with the content
    [{value: input}], sends the serialized envelope of type ["input_reply"]
    on channel ["stdin"] over the current socket, and returns the [msg_id] of
    that envelope, the id just taken from the supply. *)
Theorem send_input_reply_requires_connection (w : world) (input : json) :
  (is_connected w = false ->
     send_input_reply input w = (inl "remote is not connected", w))
  /\ (is_connected w = true ->
      exists i,
        ws (this w) = Some i
        /\ send_input_reply input w
           = (inr (Msg.msg_id (Msg.hdr (input_reply_envelope w input))),
              set_sent (sent w ++ [(i, serialize (input_reply_envelope w input))])
                (set_uuids (S (uuids w))
                   (set_triggered (triggered w ++ [input_reply (JObj [("value", input)])]) w)))
        /\ Msg.msg_id (Msg.hdr (input_reply_envelope w input)) = uuids w).
Proof.
  split; intros H; unfold send_input_reply; rewrite H; simpl; [reflexivity|].
  unfold is_connected, current_socket in H.
  destruct (ws (this w)) as [i|] eqn:Hws; [|discriminate].
  exists i. split; [reflexivity|]. split; reflexivity.
Qed.

Lemma send_input_reply_requires_connection_witness :
  send_input_reply (JStr "42") (new_Remote "ws://host" "" "" "" "s1")
  = (inl "remote is not connected", new_Remote "ws://host" "" "" "" "s1")
  /\ exists i, ws (this open_world) = Some i
       /\ send_input_reply (JStr "42") open_world
          = (inr (Msg.msg_id (Msg.hdr (input_reply_envelope open_world (JStr "42")))),
             set_sent (sent open_world ++ [(i, serialize (input_reply_envelope open_world (JStr "42")))])
               (set_uuids (S (uuids open_world))
                  (set_triggered (triggered open_world ++ [input_reply (JObj [("value", JStr "42")])])
                     open_world)))
       /\ Msg.msg_id (Msg.hdr (input_reply_envelope open_world (JStr "42"))) = uuids open_world.
Proof.
  split.
  - apply (proj1 (send_input_reply_requires_connection _ _)). reflexivity.
  - apply (proj2 (send_input_reply_requires_connection _ _)). reflexivity.
Defined.

Lemma persists_refl w : persists w w.
Proof. split; eauto. Qed.

Lemma persists_trans w1 w2 w3 : persists w1 w2 -> persists w2 w3 -> persists w1 w3.
Proof.
  intros [G1 S1] [G2 S2]. split; [auto|].
  intros sid s H. apply S1 in H as (s' & H & E). apply S2 in H as (s'' & H & E').
  exists s''. split; [assumption|congruence].
Qed.

Lemma persists_same w w' :
  activations w' = activations w -> sockets w' = sockets w -> persists w w'.
Proof.
  intros Ha Hs. split.
  - intros g (a & H & E). exists a. rewrite Ha. auto.
  - intros sid s H. exists s. rewrite Hs. auto.
Qed.

Lemma persists_update w i s s' :
  sockets w !! i = Some s -> onerror s' = onerror s ->
  persists w (set_sockets (<[i := s']> (sockets w)) w).
Proof.
  intros Hs He. split; [auto|]. intros sid s0 H. simpl.
  destruct (decide (i = sid)) as [->|Hne].
  - rewrite list_lookup_insert_eq by (eapply lookup_lt_Some; eassumption).
    exists s'. split; congruence.
  - rewrite list_lookup_insert_ne by assumption. eauto.
Qed.

Lemma persists_stop_channel_close w : persists w (stop_channel_close w).
Proof.
  unfold stop_channel_close. repeat case_match; try apply persists_refl.
  apply persists_same; reflexivity.
Qed.

Lemma persists_stop_channel w : persists w (stop_channel w).
Proof.
  pose proof (stop_channel_cases w) as H.
  destruct (current_socket w) as [[i s]|] eqn:E; [|rewrite H; apply persists_refl].
  apply current_socket_lookup in E as [_ Hs].
  destruct (readyState s); rewrite H; try apply persists_refl.
  - apply persists_update with s; auto.
  - apply persists_same; reflexivity.
Qed.

Lemma persists_trigger n w : persists w (trigger n w).
Proof. apply persists_same; unfold trigger, listeners; repeat (simpl; case_match); reflexivity. Qed.

Lemma persists_listeners n w : persists w (listeners n w).
Proof. apply persists_same; unfold listeners; repeat (simpl; case_match); reflexivity. Qed.

Lemma persists_schedule_reconnect w : persists w (_schedule_reconnect w).
Proof.
  apply persists_same; unfold _schedule_reconnect, trigger, listeners;
    repeat (simpl; case_match); reflexivity.
Qed.

Lemma persists_ws_closed u b w : persists w (_ws_closed u b w).
Proof.
  unfold _ws_closed.
  eapply persists_trans; [apply persists_stop_channel|].
  eapply persists_trans; [apply persists_trigger|].
  eapply persists_trans; [|apply persists_schedule_reconnect].
  destruct b; [|apply persists_refl].
  eapply persists_trans; [|apply persists_trigger]. apply persists_same; reflexivity.
Qed.

Lemma persists_mark st sid s w : sockets w !! sid = Some s -> persists w (mark st sid s w).
Proof. intros H. apply persists_update with s; auto. Qed.

Lemma persists_enter_once g path w a w' :
  enter_once g path w = Some (a, w') -> persists w w' /\ guard_set g w'.
Proof.
  unfold enter_once. intros H.
  destruct (activations w !! g) as [a0|] eqn:Hg; [|discriminate].
  destruct (already_called_onclose a0); [discriminate|]. injection H as <- <-.
  assert (g < length (activations w)) by (eapply lookup_lt_Some; eassumption).
  split; [split|].
  - intros g' (a' & H' & E'). unfold guard_set. simpl.
    destruct (decide (g = g')) as [<-|Hne].
    + rewrite list_lookup_insert_eq by assumption. eauto.
    + rewrite list_lookup_insert_ne by assumption. eauto.
  - intros sid s Hs. simpl. eauto.
  - unfold guard_set. simpl. rewrite list_lookup_insert_eq by assumption. eauto.
Qed.

Lemma persists_run_ws_closed g path c w : persists w (run_ws_closed g path c w).
Proof.
  unfold run_ws_closed. destruct (enter_once g path w) as [[a w']|] eqn:E; [|apply persists_refl].
  apply persists_enter_once in E as [E _].
  destruct (negb c); [|assumption].
  eapply persists_trans; [eassumption|apply persists_ws_closed].
Qed.

Lemma persists_run_ws_error g w : persists w (run_ws_error g w).
Proof.
  unfold run_ws_error. destruct (enter_once g error_path w) as [[a w']|] eqn:E; [|apply persists_refl].
  apply persists_enter_once in E as [E _].
  eapply persists_trans; [eassumption|apply persists_ws_closed].
Qed.

Lemma persists_start_channel w : persists w (start_channel w).
Proof.
  unfold start_channel.
  eapply persists_trans; [apply persists_stop_channel|].
  set (w0 := stop_channel w). clearbody w0. split.
  - intros g (a & H & E). exists a. simpl. split; [|assumption].
    apply lookup_app_l_Some. assumption.
  - intros sid s H. exists s. simpl. split; [|reflexivity].
    apply lookup_app_l_Some. assumption.
Qed.

Lemma persists_grace_switch g w : persists w (run_grace_switch g w).
Proof.
  unfold run_grace_switch. destruct (current_socket w) as [[i s]|] eqn:E; [|apply persists_refl].
  apply current_socket_lookup in E as [_ Hs]. apply persists_update with s; auto.
Qed.

Lemma persists_send_input_reply v w : persists w (snd (send_input_reply v w)).
Proof.
  apply persists_same; unfold send_input_reply, _get_msg, utils_uuid, trigger, listeners;
    repeat (simpl; case_match); reflexivity.
Qed.

Lemma persists_publish n w : persists w (publish n w).
Proof.
  destruct n; first [exact (persists_listeners _ w) | exact (persists_send_input_reply _ w)].
Qed.

Lemma persists_step policy l w e : persists w (step policy l w e).
Proof.
  destruct e; simpl.
  - unfold deliver_open. destruct (sockets w !! sid) as [s|] eqn:E; [|apply persists_refl].
    eapply persists_trans; [apply persists_mark, E|].
    unfold _ws_opened, _remote_connected. case_match; [apply persists_trigger|apply persists_refl].
  - unfold deliver_close. destruct (sockets w !! sid) as [s|] eqn:E; [|apply persists_refl].
    eapply persists_trans; [apply persists_mark, E|].
    destruct (onclose s); simpl;
      [apply persists_run_ws_closed|apply persists_run_ws_closed|apply persists_stop_channel_close].
  - unfold deliver_error. destruct (sockets w !! sid) as [s|] eqn:E; [|apply persists_refl].
    eapply persists_trans; [apply persists_mark, E|]. apply persists_run_ws_error.
  - apply persists_same; reflexivity.
  - unfold fire_timer. case_match; [|apply persists_refl].
    set (w' := set_timers _ w).
    apply persists_trans with w'; [apply persists_same; reflexivity|].
    destruct (callback t); simpl; [apply persists_grace_switch|apply persists_refl].
  - apply persists_same; reflexivity.
  - apply persists_publish.
  - apply persists_start_channel.
  - apply persists_stop_channel.
  - apply persists_send_input_reply.
Qed.

Lemma persists_run policy l evs w : persists w (run policy l evs w).
Proof.
  revert w. induction evs as [|e evs IH]; intros w; simpl; [apply persists_refl|].
  eapply persists_trans; [apply persists_step|apply IH].
Qed.

(** A guarded handler whose guard is set does nothing. *)
Lemma enter_once_set g path w : guard_set g w -> enter_once g path w = None.
Proof. intros (a & H & E). unfold enter_once. rewrite H, E. reflexivity. Qed.

Lemma deliver_error_ignored w sid s :
  sockets w !! sid = Some s -> guard_set (onerror s) w ->
  deliver_error sid w = mark CLOSED sid s w.
Proof.
  intros Hs Hg. unfold deliver_error. rewrite Hs. unfold run_ws_error.
  rewrite enter_once_set; [reflexivity|]. exact Hg.
Qed.

Lemma deliver_close_ignored w sid s g c :
  sockets w !! sid = Some s ->
  onclose s = ws_closed_early g \/ onclose s = ws_closed_late g ->
  guard_set g w ->
  deliver_close sid c w = mark CLOSED sid s w.
Proof.
  intros Hs Hh Hg. unfold deliver_close. rewrite Hs.
  destruct Hh as [-> | ->]; simpl; unfold run_ws_closed;
    (rewrite enter_once_set; [reflexivity|exact Hg]).
Qed.

(** C10, as stated, fails.  A clean close of the second of two transports
    sets the guard of its call, publishes nothing and leaves the handle; the
    one-second timer of the first call then writes its late handler to that
    transport, which is still [this.ws]; an unclean close that follows on the
    same transport is handled as a loss, not ignored. *)
Lemma later_unclean_close_is_handled :
  let w1 := run utils_reject (fun _ => None)
              [call_start_channel; call_start_channel; ev_close 1 true]
              (new_Remote "ws://host" "" "" "" "s1") in
  let w2 := run utils_reject (fun _ => None) [ev_timer 0; ev_close 1 false] w1 in
  (map already_called_onclose (activations w1) = [false; true]
   /\ triggered w1 = [] /\ List.filter is_reconnect (timers w1) = []
   /\ ws (this w1) = Some 1)
  /\ triggered w2 = [remote_disconnected]
  /\ List.filter is_reconnect (timers w2)
     = [{| timer_id := 2; delay_ms := 1000; callback := do_reconnect |}]
  /\ ws (this w2) = None.
Proof. vm_compute. repeat split. Qed.

(** After [stop_channel] the close handler of the transport is the local
    [close], not a guarded one: a clean close then clears the handle and
    leaves the guard unset, and an error event after it is handled. *)
Example clean_close_after_stop_channel :
  let w1 := run utils_reject (fun _ => None)
              [call_start_channel; ev_open 0; call_stop_channel; ev_close 0 true]
              (new_Remote "ws://host" "" "" "" "s1") in
  let w2 := run utils_reject (fun _ => None) [ev_error 0] w1 in
  map already_called_onclose (activations w1) = [false]
  /\ ws (this w1) = None
  /\ triggered w2
     = [remote_connected; remote_disconnected;
        remote_connection_failed "ws://host/api/sessions/s1/ws" 0].
Proof. vm_compute. repeat split. Qed.

(** A clean close that runs the late handler of another call sets the guard
    of that call, not the one of the transport: a later error on the
    transport is handled. *)
Example clean_close_on_foreign_handler :
  let w1 := run utils_reject (fun _ => None)
              [call_start_channel; call_start_channel; ev_timer 0; ev_close 1 true]
              (new_Remote "ws://host" "" "" "" "s1") in
  let w2 := run utils_reject (fun _ => None) [ev_error 1] w1 in
  map already_called_onclose (activations w1) = [true; false]
  /\ triggered w1 = []
  /\ triggered w2
     = [remote_disconnected; remote_connection_failed "ws://host/api/sessions/s1/ws" 0].
Proof. vm_compute. repeat split. Qed.

(** C10, amended.  A clean close delivered to a transport whose [onclose] is
    one of the two guarded handlers of a [start_channel] call sets the guard
    of that call,
    publishes nothing, arms no timer and leaves the handle as it is.  After
    any further tasks, an error event on that transport is ignored when the
    call is the one whose error handler the transport carries, and so is a
    close event, clean or not, that finds one of the two handlers of the
    call still installed: the browser marks the socket closed and no handler
    body runs. *)
Theorem clean_close_consumes_guard policy l (w : world) (sid g : nat) (s : WebSocket) (a : activation) :
  sockets w !! sid = Some s ->
  onclose s = ws_closed_early g \/ onclose s = ws_closed_late g ->
  activations w !! g = Some a ->
  let w1 := deliver_close sid true w in
  guard_set g w1
  /\ triggered w1 = triggered w /\ timers w1 = timers w /\ this w1 = this w
  /\ forall evs,
       let w2 := run policy l evs w1 in
       exists s2,
         sockets w2 !! sid = Some s2
         /\ (onerror s = g -> deliver_error sid w2 = mark CLOSED sid s2 w2)
         /\ (onclose s2 = ws_closed_early g \/ onclose s2 = ws_closed_late g ->
             forall wasClean, deliver_close sid wasClean w2 = mark CLOSED sid s2 w2).
Proof.
  intros Hs Hh Ha w1.
  assert (sid < length (sockets w)) as Hlt by (eapply lookup_lt_Some; eassumption).
  assert (g < length (activations w)) as Hg by (eapply lookup_lt_Some; eassumption).
  assert (guard_set g w1 /\ triggered w1 = triggered w /\ timers w1 = timers w
          /\ this w1 = this w /\ sockets w1 !! sid = Some (with_readyState CLOSED s)) as H.
  { unfold w1, deliver_close. rewrite Hs.
    assert (run_close_handler (onclose s) true (mark CLOSED sid s w)
            = run_ws_closed g (match onclose s with ws_closed_late _ => late_path | _ => early_path end)
                true (mark CLOSED sid s w)) as ->
      by (destruct Hh as [-> | ->]; reflexivity).
    unfold run_ws_closed, enter_once. simpl. rewrite Ha.
    destruct (already_called_onclose a) eqn:Hc; simpl.
    - repeat split; try reflexivity.
      + exists a. auto.
      + apply list_lookup_insert_eq; assumption.
    - repeat split; try reflexivity.
      + unfold guard_set. simpl. rewrite list_lookup_insert_eq by assumption. eauto.
      + apply list_lookup_insert_eq; assumption. }
  destruct H as (Hset & Ht & Htm & Hthis & Hs1).
  repeat split; try assumption.
  intros evs w2.
  destruct (persists_run policy l evs w1) as [PG PS]. fold w2 in PG, PS.
  destruct (PS _ _ Hs1) as (s2 & Hs2 & He2). simpl in He2.
  exists s2. split; [exact Hs2|]. split.
  - intros He. apply deliver_error_ignored; [exact Hs2|]. rewrite He2, He. apply PG, Hset.
  - intros Hh2 c. eapply deliver_close_ignored; [exact Hs2|exact Hh2|apply PG, Hset].
Qed.

Lemma clean_close_consumes_guard_witness :
  guard_set 0 (deliver_close 0 true open_world)
  /\ triggered (deliver_close 0 true open_world) = triggered open_world.
Proof.
  destruct (clean_close_consumes_guard utils_reject (fun _ => None) open_world 0 0
              {| url := "ws://host/api/sessions/s1/ws"; readyState := OPEN;
                 onclose := ws_closed_early 0; onerror := 0 |}
              {| already_called_onclose := false; ws_host_url := "ws://host/api/sessions/s1/ws" |}
              eq_refl (or_introl eq_refl) eq_refl) as (H1 & H2 & _).
  split; assumption.
Defined.

(** C4.  The code breaks the claim.  The one-second timer of a
    [start_channel] call writes its late handler to [this.ws], whichever
    socket that is when it fires.  After a second [start_channel] within
    the second, the timer of the first call puts the late handler of the
    first call on the second socket, next to the error handler of the second
    call.  An error and the unclean close that follows it on that one
    socket then both run [_ws_closed]: two [remote_disconnected] are
    published and two reconnect timers are armed for one transport. *)
Theorem two_close_paths_on_one_transport :
  let u := "ws://host/api/sessions/s1/ws" in
  let w0 := run utils_reject (fun _ => None)
              [call_start_channel; call_start_channel; ev_timer 0]
              (new_Remote "ws://host" "" "" "" "s1") in
  let w := run utils_reject (fun _ => None) [ev_error 1; ev_close 1 false] w0 in
  ws (this w0) = Some 1
  /\ sockets w0 !! 1 = Some {| url := u; readyState := CONNECTING;
                               onclose := ws_closed_late 0; onerror := 1 |}
  /\ triggered w0 = []
  /\ List.filter is_reconnect (timers w0) = []
  /\ entered w = [(1, error_path); (0, late_path)]
  /\ triggered w = [remote_disconnected; remote_connection_failed u 0; remote_disconnected]
  /\ List.filter is_reconnect (timers w)
     = [{| timer_id := 2; delay_ms := 1000; callback := do_reconnect |};
        {| timer_id := 3; delay_ms := 1000; callback := do_reconnect |}].
Proof. vm_compute. repeat split. Qed.

(** C1.  With the ceiling at 7, [_schedule_reconnect] at an attempt count [a]
    between 0 and 6 passes the retry test and arms the reconnect timer with
    [2^a] seconds ([1000 * 2^a] ms, one of 1, 2, 4, ..., 64 s), publishing
    nothing; at [a = 7] the test fails, no timer is armed and
    [remote_connection_dead] is published. *)
Theorem backoff_delay_and_ceiling (w : world) (a : Z) :
  reconnect_limit (this w) = 7%Z ->
  _reconnect_attempt (this w) = a ->
  ((0 <= a <= 6)%Z ->
     (a <? reconnect_limit (this w))%Z = true
     /\ timers (_schedule_reconnect w)
       = timers w ++ [{| timer_id := next_timer w; delay_ms := (1000 * 2 ^ a)%Z;
                         callback := do_reconnect |}]
     /\ triggered (_schedule_reconnect w) = triggered w
     /\ In (1000 * 2 ^ a)%Z [1000; 2000; 4000; 8000; 16000; 32000; 64000]%Z)
  /\ (a = 7%Z ->
        (a <? reconnect_limit (this w))%Z = false
        /\ timers (_schedule_reconnect w) = timers w
        /\ triggered (_schedule_reconnect w) = triggered w ++ [remote_connection_dead 7]).
Proof.
  intros Hlim Ha. unfold _schedule_reconnect. rewrite Hlim, Ha. split.
  - intros Hr. replace (a <? 7)%Z with true by (symmetry; apply Z.ltb_lt; lia).
    split; [reflexivity|]. split; [reflexivity|]. split; [reflexivity|].
    assert (a = 0 \/ a = 1 \/ a = 2 \/ a = 3 \/ a = 4 \/ a = 5 \/ a = 6)%Z as Hc by lia.
    destruct Hc as [->|[->|[->|[->|[->|[->| ->]]]]]]; simpl; tauto.
  - intros ->. repeat split; reflexivity.
Qed.

Lemma backoff_delay_and_ceiling_witness :
  timers (_schedule_reconnect (new_Remote "ws://host" "" "" "" "s1"))
  = [{| timer_id := 0; delay_ms := 1000; callback := do_reconnect |}].
Proof.
  destruct (backoff_delay_and_ceiling (new_Remote "ws://host" "" "" "" "s1") 0 eq_refl eq_refl)
    as [H _].
  destruct H as (_ & H & _); [lia|]. exact H.
Defined.

(** ** The promise chain *)

Section Drain.
Import Promise.
Variable policy : catch_policy.
Variable exec_listener : json -> option err.

Abbreviation micro := (micro policy exec_listener).
Abbreviation drain := (drain policy exec_listener).
Abbreviation run_microtasks := (run_microtasks policy exec_listener).
Abbreviation run_job := (run_job policy exec_listener).
Abbreviation run_callback := (run_callback policy exec_listener).

Lemma weight_eq s : weight s = jobs_weight (microtasks s) + heap_weight (heap s).
Proof. reflexivity. Qed.

Lemma jobs_weight_app a b : jobs_weight (a ++ b) = jobs_weight a + jobs_weight b.
Proof. apply sum_list_with_app. Qed.

Lemma heap_weight_app a b : heap_weight (a ++ b) = heap_weight a + heap_weight b.
Proof. apply sum_list_with_app. Qed.

Lemma heap_weight_insert (h : list cell) i c c' :
  h !! i = Some c -> heap_weight (<[i := c']> h) + cell_weight c = heap_weight h + cell_weight c'.
Proof.
  revert i. induction h as [|x h IH]; intros [|i] H; simpl in *; try discriminate.
  - injection H as ->. unfold heap_weight. simpl. lia.
  - specialize (IH i H). unfold heap_weight in *. simpl. lia.
Qed.

Lemma jobs_weight_reactions rs o :
  jobs_weight (map (fun r => reaction_job r o) rs) = sum_list_with reaction_weight rs.
Proof. unfold jobs_weight. induction rs as [|r rs IH]; simpl; [reflexivity|]. rewrite IH. reflexivity. Qed.

Lemma weight_settle p o s : weight (settle p o s) = weight s.
Proof.
  unfold settle. destruct (heap s !! p) as [[rs| |]|] eqn:E; try reflexivity.
  rewrite !weight_eq. simpl. rewrite jobs_weight_app, jobs_weight_reactions.
  pose proof (heap_weight_insert (heap s) p (pending rs) (cell_of o) E) as H.
  assert (cell_weight (cell_of o) = 0) as H0 by (destruct o; reflexivity).
  rewrite H0 in H. simpl in H. lia.
Qed.

Lemma weight_register p r s : weight (register p r s) <= weight s + reaction_weight r.
Proof.
  unfold register. destruct (heap s !! p) as [[rs| |]|] eqn:E; rewrite !weight_eq; simpl.
  - pose proof (heap_weight_insert (heap s) p (pending rs) (pending (rs ++ [r])) E) as H.
    simpl in H. rewrite sum_list_with_app in H. simpl in H. lia.
  - rewrite jobs_weight_app. unfold jobs_weight at 2. simpl. lia.
  - rewrite jobs_weight_app. unfold jobs_weight at 2. simpl. lia.
  - lia.
Qed.

Lemma weight_emit o s : weight (emit o s) = weight s.
Proof. reflexivity. Qed.

Lemma weight_resolve t c s :
  weight (resolve t c s) <= weight s + 2.
Proof.
  destruct c; simpl; rewrite ?weight_settle; try lia.
  rewrite !weight_eq. simpl. rewrite jobs_weight_app. unfold jobs_weight at 2. simpl. lia.
Qed.

Lemma weight_alloc c s : weight (snd (alloc c s)) = weight s + cell_weight c.
Proof.
  rewrite !weight_eq. simpl. rewrite heap_weight_app. unfold heap_weight at 2. simpl. lia.
Qed.

Lemma weight_run_decode f s : weight (snd (Promise.run_decode f s)) = weight s.
Proof.
  unfold run_decode. destruct (answer f) as [e|v|[|n] r]; simpl; try reflexivity.
  - rewrite !weight_eq. simpl. rewrite heap_weight_app. unfold heap_weight at 2.
    destruct r; simpl; lia.
  - rewrite !weight_eq. simpl. rewrite heap_weight_app. unfold heap_weight at 2. simpl. lia.
Qed.

Lemma weight_run_dispatch v s :
  weight (snd (Promise.run_dispatch exec_listener v s)) = weight s.
Proof.
  unfold run_dispatch. destruct v as [|exec]; simpl; [reflexivity|].
  destruct (truthy exec); simpl; [destruct (exec_listener exec); simpl|]; try reflexivity.
  - rewrite !weight_eq. simpl. rewrite heap_weight_app. unfold heap_weight at 2. simpl. lia.
  - rewrite !weight_eq. simpl. rewrite heap_weight_app. unfold heap_weight at 2. simpl. lia.
Qed.

Lemma weight_run_catch e s : weight (snd (Promise.run_catch policy e s)) = weight s.
Proof.
  unfold run_catch. destruct policy; simpl; [reflexivity|].
  rewrite !weight_eq. simpl. rewrite heap_weight_app. unfold heap_weight at 2. simpl. lia.
Qed.

Lemma weight_run_callback cb o s :
  weight (snd (run_callback cb o s)) = weight s.
Proof.
  destruct cb, o; simpl; try reflexivity;
    auto using weight_run_decode, weight_run_dispatch, weight_run_catch.
Qed.

Lemma reaction_weight_pos r : 1 <= reaction_weight r.
Proof. unfold reaction_weight. repeat case_match; lia. Qed.

Lemma micro_weight s s' : micro s = Some s' -> weight s' < weight s.
Proof.
  unfold Promise.micro. destruct (microtasks s) as [|j js] eqn:E; [discriminate|].
  intros [= <-].
  assert (weight s = job_weight j + weight (set_microtasks js s)) as ->
    by (rewrite !weight_eq, E; simpl; unfold jobs_weight; simpl; lia).
  set (s0 := set_microtasks js s). clearbody s0.
  destruct j as [r o|t p]; simpl.
  - destruct (handler_for r o) as [cb|] eqn:Hh.
    + assert (reaction_weight r = 3) as ->.
      { unfold reaction_weight. unfold handler_for in Hh.
        destruct o, (on_fulfilled r), (on_rejected r); try discriminate; reflexivity. }
      pose proof (weight_run_callback cb o s0) as Hc.
      destruct (run_callback cb o s0) as [c s1]. simpl in Hc.
      pose proof (weight_resolve (target r) c s1). lia.
    + rewrite weight_settle. pose proof (reaction_weight_pos r). lia.
  - match goal with |- context [register p ?r s0] => pose proof (weight_register p r s0) as H end.
    simpl in H. unfold reaction_weight in H. simpl in H. lia.
Qed.

Lemma drain_fuel n m s : weight s <= n -> weight s <= m -> drain n s = drain m s.
Proof.
  revert m s. induction n as [|n IH]; intros m s Hn Hm.
  - destruct m as [|m]; [reflexivity|]. simpl.
    destruct (micro s) as [s'|] eqn:E; [|reflexivity].
    pose proof (micro_weight _ _ E). lia.
  - simpl. destruct (micro s) as [s'|] eqn:E.
    + pose proof (micro_weight _ _ E) as Hlt.
      destruct m as [|m]; [lia|]. simpl. rewrite E. apply IH; lia.
    + destruct m; simpl; [reflexivity|]. rewrite E. reflexivity.
Qed.

Lemma drain_enough n s : weight s <= n -> drain n s = run_microtasks s.
Proof. intros H. apply drain_fuel; [assumption|reflexivity]. Qed.

Lemma run_microtasks_step s s' : micro s = Some s' -> run_microtasks s = run_microtasks s'.
Proof.
  intros E. pose proof (micro_weight _ _ E) as Hlt.
  unfold Promise.run_microtasks at 1. destruct (weight s) as [|k] eqn:Ew; [lia|].
  simpl. rewrite E. apply drain_enough. lia.
Qed.

Lemma run_microtasks_idle s : microtasks s = [] -> run_microtasks s = s.
Proof.
  intros E. unfold Promise.run_microtasks. destruct (weight s); simpl; [reflexivity|].
  unfold Promise.micro. rewrite E. reflexivity.
Qed.

Lemma drain_quiet n s : weight s <= n -> microtasks (drain n s) = [].
Proof.
  revert s. induction n as [|n IH]; intros s Hle; simpl.
  - rewrite weight_eq in Hle. destruct (microtasks s) as [|j js]; [reflexivity|].
    unfold jobs_weight in Hle. simpl in Hle.
    assert (1 <= job_weight j) by (destruct j; simpl; [apply reaction_weight_pos|lia]). lia.
  - destruct (micro s) as [s'|] eqn:E.
    + apply IH. pose proof (micro_weight _ _ E). lia.
    + unfold Promise.micro in E. destruct (microtasks s); [reflexivity|discriminate].
Qed.

(** The checkpoint runs the queue empty. *)
Lemma run_microtasks_quiet s : microtasks (run_microtasks s) = [].
Proof. apply drain_quiet. reflexivity. Qed.

End Drain.

Ltac hlen := repeat (rewrite length_insert || rewrite length_app); simpl; lia.

Ltac hs :=
  repeat first
    [ progress simpl
    | rewrite length_insert
    | rewrite length_app
    | match goal with
      | |- context [<[?i := ?x]> ?l !! ?i] => rewrite (list_lookup_insert_eq l i x) by hlen
      | |- context [<[?i := ?x]> ?l !! ?j] => rewrite (list_lookup_insert_ne l i j x) by lia
      | |- context [(?l ++ ?x :: ?k) !! ?i] => rewrite (list_lookup_middle l k x i) by hlen
      | |- context [(?l ++ ?k) !! ?i] => rewrite (lookup_app_l l k i) by hlen
      | H : ?h !! ?p = Some _ |- context [?h !! ?p] => rewrite H
      end ].

Ltac mstep :=
  erewrite run_microtasks_step; [| unfold Promise.micro; hs; reflexivity ].

Section Refine.
Import Promise.
Variable policy : catch_policy.
Variable exec_listener : json -> option err.

Abbreviation micro := (Promise.micro policy exec_listener).
Abbreviation run_microtasks := (Promise.run_microtasks policy exec_listener).
Abbreviation finish := (Chain.finish policy exec_listener).
Abbreviation advance := (Chain.advance policy exec_listener).

Lemma link_frame h h' p1 p3 rs :
  link h p1 p3 rs -> (forall x, p1 <= x -> x <= p3 -> h' !! x = h !! x) -> link h' p1 p3 rs.
Proof.
  intros (p2 & H12 & H23 & H1 & H2 & H3) F. exists p2.
  rewrite !F by lia. auto.
Qed.

Lemma link_bound h p1 p3 rs : link h p1 p3 rs -> p1 < p3 /\ p3 < length h.
Proof.
  intros (p2 & H12 & H23 & H1 & H2 & H3). apply lookup_lt_Some in H3. lia.
Qed.

Lemma links_frame h h' tail rs fs q :
  links h tail rs fs q ->
  (forall x, tail < x -> x < length h -> h' !! x = h !! x) ->
  links h' tail rs fs q.
Proof.
  revert tail rs. induction fs as [|f fs IH]; intros tail rs H F; simpl in *; [exact H|].
  destruct H as (p1 & p3 & rs' & -> & Ht & Hl & Hr).
  pose proof (link_bound _ _ _ _ Hl) as [? ?].
  exists p1, p3, rs'. split; [reflexivity|]. split; [assumption|]. split.
  - eapply link_frame; [exact Hl|]. intros x ? ?. apply F; lia.
  - apply IH; [exact Hr|]. intros x ? ?. apply F; lia.
Qed.

Lemma links_shape h tail rs fs q t : links h tail rs fs q -> rs <> [adopt t].
Proof.
  destruct fs as [|f fs]; simpl.
  - intros [-> _]. discriminate.
  - intros (p1 & p3 & rs' & -> & _). discriminate.
Qed.

Lemma link_insert_foreign h p1 p3 rs d t c :
  link h p1 p3 rs -> rs <> [adopt t] -> h !! d = Some (pending [adopt t]) ->
  link (<[d := c]> h) p1 p3 rs.
Proof.
  intros (p2 & H12 & H23 & H1 & H2 & H3) Hrs Hd. exists p2.
  assert (d <> p1) by (intros ->; rewrite H1 in Hd; discriminate).
  assert (d <> p2) by (intros ->; rewrite H2 in Hd; discriminate).
  assert (d <> p3) by (intros ->; rewrite H3 in Hd; congruence).
  rewrite !list_lookup_insert_ne by assumption. auto.
Qed.

Lemma links_insert_foreign h tail rs fs q d t c :
  links h tail rs fs q -> h !! d = Some (pending [adopt t]) ->
  links (<[d := c]> h) tail rs fs q.
Proof.
  revert tail rs. induction fs as [|f fs IH]; intros tail rs H Hd; simpl in *; [exact H|].
  destruct H as (p1 & p3 & rs' & -> & Ht & Hl & Hr).
  exists p1, p3, rs'. split; [reflexivity|]. split; [assumption|]. split.
  - eapply link_insert_foreign; [exact Hl| |exact Hd]. eapply links_shape, Hr.
  - apply IH; assumption.
Qed.

Lemma links_bound h tail rs fs q : links h tail rs fs q -> tail <= q.
Proof.
  revert tail rs. induction fs as [|f fs IH]; intros tail rs H; simpl in *.
  - destruct H as [_ ->]. lia.
  - destruct H as (p1 & p3 & rs' & -> & Ht & Hl & Hr).
    apply link_bound in Hl. apply IH in Hr. lia.
Qed.

Lemma ran_trans s1 s2 s3 p3 l1 l2 :
  ran s1 s2 p3 l1 -> ran s2 s3 p3 l2 -> ran s1 s3 p3 (l1 ++ l2).
Proof.
  intros (Ho & Hd & Hq & Hl & Hf) (Ho' & Hd' & Hq' & Hl' & Hf').
  repeat split; try congruence; try lia.
  - rewrite Ho', Ho, app_assoc. reflexivity.
  - intros x ? ?. rewrite Hf' by lia. apply Hf; lia.
Qed.

(** The catch registration on a rejected second promise. *)
Lemma run_catch_step s p3 rs e :
  microtasks s = [reaction_job (then_catch p3) (rejected_with e)] ->
  heap s !! p3 = Some (pending rs) ->
  exists s',
    run_microtasks s = run_microtasks s'
    /\ ended s' p3 rs (snd (Chain.report policy e))
    /\ ran s s' p3 (fst (Chain.report policy e)).
Proof.
  destruct s as [h mq dec q o]. simpl. intros -> H3.
  pose proof (lookup_lt_Some _ _ _ H3).
  mstep. unfold run_catch, Chain.report, ran, ended. destruct policy; hs.
  - unfold settle; hs. eexists. split; [reflexivity|]. hs.
    repeat split; try reflexivity; try lia. intros x ? ?. hs. reflexivity.
  - mstep. unfold register; hs. mstep. unfold settle; hs.
    eexists. split; [reflexivity|]. hs.
    repeat split; try reflexivity; try hlen. intros x ? ?. hs. reflexivity.
Qed.

(** The catch registration on a fulfilled second promise passes the value on. *)
Lemma pass_catch_step s p3 rs v :
  microtasks s = [reaction_job (then_catch p3) (fulfilled_with v)] ->
  heap s !! p3 = Some (pending rs) ->
  exists s',
    run_microtasks s = run_microtasks s'
    /\ ended s' p3 rs (fulfilled_with v)
    /\ ran s s' p3 [].
Proof.
  destruct s as [h mq dec q o]. simpl. intros -> H3.
  pose proof (lookup_lt_Some _ _ _ H3).
  mstep. unfold settle, ran, ended; hs.
  eexists. split; [reflexivity|]. hs. rewrite app_nil_r.
  repeat split; try reflexivity; try lia. intros x ? ?. hs. reflexivity.
Qed.

(** The dispatch registration on a settled first promise. *)
Lemma run_dispatch_step s p2 p3 o1 :
  microtasks s = [reaction_job (then_dispatch p2) o1] ->
  p2 < p3 -> p3 < length (heap s) ->
  heap s !! p2 = Some (pending [then_catch p3]) ->
  exists s' o2 l,
    run_microtasks s = run_microtasks s'
    /\ microtasks s' = [reaction_job (then_catch p3) o2]
    /\ heap s' !! p3 = heap s !! p3
    /\ ran s s' p3 l
    /\ match o1 with
       | fulfilled_with v => (l, o2) = Chain.dispatch exec_listener v
       | rejected_with e => l = [] /\ o2 = rejected_with e
       end.
Proof.
  destruct s as [h mq dec q o]. simpl. intros -> H23 H3 H2.
  pose proof (lookup_lt_Some _ _ _ H2).
  destruct o1 as [v|e].
  - mstep. unfold run_dispatch, Chain.dispatch, ran. destruct v as [|exec]; hs.
    + unfold settle; hs. eexists _, _, _. split; [reflexivity|]. hs.
      repeat split; try reflexivity; try lia. intros x ? ?. hs. reflexivity.
    + destruct (truthy exec); hs; [destruct (exec_listener exec) as [e|]; hs|].
      * unfold settle; hs. eexists _, _, _. split; [reflexivity|]. hs.
        rewrite <- app_assoc.
        repeat split; try reflexivity; try lia. intros x ? ?. hs. reflexivity.
      * mstep. unfold register; hs. mstep. unfold settle; hs.
        eexists _, _, _. split; [reflexivity|]. hs. rewrite <- app_assoc.
        repeat split; try reflexivity; try hlen. intros x ? ?. hs. reflexivity.
      * mstep. unfold register; hs. mstep. unfold settle; hs.
        eexists _, _, _. split; [reflexivity|]. hs.
        repeat split; try reflexivity; try hlen. intros x ? ?. hs. reflexivity.
  - mstep. unfold settle, ran; hs. eexists _, _, _. split; [reflexivity|]. hs.
    rewrite app_nil_r.
    repeat split; try reflexivity; try lia. intros x ? ?. hs. reflexivity.
Qed.

(** A link runs to its end once its first promise is settled. *)
Lemma run_link s p1 p3 rs o1 :
  microtasks s = [] -> link (heap s) p1 p3 rs ->
  exists s',
    run_microtasks (settle p1 o1 s) = run_microtasks s'
    /\ ended s' p3 rs (snd (finish o1))
    /\ ran s s' p3 (fst (finish o1)).
Proof.
  intros Hq (p2 & H12 & H23 & H1 & H2 & H3).
  pose proof (lookup_lt_Some _ _ _ H1). pose proof (lookup_lt_Some _ _ _ H2).
  pose proof (lookup_lt_Some _ _ _ H3).
  set (s1 := settle p1 o1 s).
  assert (microtasks s1 = [reaction_job (then_dispatch p2) o1]
          /\ heap s1 = <[p1 := cell_of o1]> (heap s) /\ ran s s1 p3 []) as (Hm1 & Hh1 & Hr1).
  { unfold s1, settle, ran. rewrite H1. simpl. rewrite Hq, app_nil_r.
    repeat split; try reflexivity; try hlen. intros x ? ?. hs. reflexivity. }
  clearbody s1.
  destruct (run_dispatch_step s1 p2 p3 o1 Hm1 H23) as (s2 & o2 & l & E2 & Hm2 & Hp3 & Hr2 & Hd).
  { rewrite Hh1. hlen. }
  { rewrite Hh1. hs. reflexivity. }
  assert (heap s2 !! p3 = Some (pending rs)) as H3'
    by (rewrite Hp3, Hh1; hs; reflexivity).
  rewrite E2.
  destruct o2 as [v2|e2].
  - destruct (pass_catch_step s2 p3 rs v2 Hm2 H3') as (s' & E & He & Hr).
    exists s'. split; [exact E|].
    assert (finish o1 = (l, fulfilled_with v2)) as ->.
    { destruct o1 as [v|e]; simpl; [rewrite <- Hd; reflexivity|]. destruct Hd; discriminate. }
    split; [exact He|]. simpl.
    replace l with (([] ++ l) ++ []) by (rewrite app_nil_r; reflexivity).
    eapply ran_trans; [eapply ran_trans|]; eassumption.
  - destruct (run_catch_step s2 p3 rs e2 Hm2 H3') as (s' & E & He & Hr).
    exists s'. split; [exact E|].
    assert (finish o1 = (l ++ fst (Chain.report policy e2), snd (Chain.report policy e2))) as ->.
    { destruct o1 as [v|e]; simpl.
      - rewrite <- Hd. reflexivity.
      - destruct Hd as [-> [= ->]]. reflexivity. }
    split; [exact He|]. simpl.
    change (l ++ [console_error (Wrapped "Couldn't process remote message" e2)])
      with (l ++ fst (Chain.report policy e2)).
    replace l with ([] ++ l) by reflexivity.
    eapply ran_trans; [eapply ran_trans|]; eassumption.
Qed.

Abbreviation matches := (matches).

(** Once the promise behind which the links of [fs] wait is settled, the
    machine runs them as [advance] says. *)
Lemma cascade fs : forall s prev tail rs,
  microtasks s = map (fun r => reaction_job r prev) rs ->
  decoding s = [] ->
  heap s !! tail = Some (cell_of prev) ->
  links (heap s) tail rs fs (_msg_queue s) ->
  matches (run_microtasks s) (advance prev fs (out s)).
Proof.
  induction fs as [|f fs IH]; intros s prev tail rs Hm Hd Ht Hl; simpl in Hl.
  - destruct Hl as [-> Hq]. simpl in Hm. rewrite run_microtasks_idle by assumption.
    repeat split; try assumption. simpl. rewrite Hq. auto.
  - destruct Hl as (p1 & p3 & rs' & -> & Htp & Hlink & Hlinks).
    pose proof (link_bound _ _ _ _ Hlink) as [Hp13 Hp3].
    destruct s as [h mq dec q o]. simpl in *. subst mq dec.
    (* what is left to do once the link has run *)
    assert (forall s0 o1 l0,
              microtasks s0 = [] -> decoding s0 = [] -> _msg_queue s0 = q ->
              out s0 = o ++ l0 -> length h <= length (heap s0) ->
              (forall x, p1 <= x -> x < length h -> heap s0 !! x = h !! x) ->
              matches (run_microtasks (settle p1 o1 s0))
                (advance (snd (finish o1)) fs ((o ++ l0) ++ fst (finish o1)))) as Hrest.
    { intros s0 o1 l0 Hm0 Hd0 Hq0 Ho0 Hlen0 Hf0.
      destruct (run_link s0 p1 p3 rs' o1 Hm0) as (s' & E & [Hm' Hp'] & (Ho' & Hd' & Hq' & Hl' & Hf')).
      { eapply link_frame; [exact Hlink|]. intros x ? ?. apply Hf0; lia. }
      rewrite E. rewrite <- Ho0, <- Ho'.
      apply IH with (tail := p3) (rs := rs'); try assumption; try congruence.
      rewrite Hq', Hq0. eapply links_frame; [exact Hlinks|].
      intros x ? ?. rewrite Hf' by lia. apply Hf0; lia. }
    destruct prev as [v0|e0].
    + (* the decode handler runs *)
      mstep. unfold run_decode. hs.
      destruct (answer f) as [e|v|[|n] r]; hs.
      * apply (Hrest _ (rejected_with e) [deserialize_call (data f)]); simpl; auto.
      * apply (Hrest _ (fulfilled_with v) [deserialize_call (data f)]); simpl; auto.
      * mstep. unfold register. hs.
        assert (forall c : cell, (h ++ [c]) !! length h = Some c) as Hmid
          by (intros c; apply list_lookup_middle; reflexivity).
        rewrite ?Hmid.
        destruct r as [v|e]; simpl; mstep; unfold then_decode; simpl;
          [apply (Hrest _ (fulfilled_with v) [deserialize_call (data f)])
          |apply (Hrest _ (rejected_with e) [deserialize_call (data f)])];
          simpl; auto; try hlen; intros x ? ?; hs; reflexivity.
      * mstep. unfold register. hs.
        assert (forall c : cell, (h ++ [c]) !! length h = Some c) as Hmid
          by (intros c; apply list_lookup_middle; reflexivity).
        rewrite ?Hmid. simpl.
        rewrite run_microtasks_idle by reflexivity.
        split; [reflexivity|]. split; [reflexivity|]. simpl.
        exists (length h), p1, p3, rs'. split; [reflexivity|]. split; [lia|].
        split; [hs; reflexivity|]. split.
        -- eapply link_frame; [exact Hlink|]. intros x ? ?. hs. reflexivity.
        -- eapply links_frame; [exact Hlinks|]. intros x ? ?. hs. reflexivity.
    + (* the decode handler is skipped *)
      mstep. unfold then_decode; simpl.
      specialize (Hrest (set_microtasks [] {| heap := h; microtasks := []; decoding := [];
                                              _msg_queue := q; out := o |})
                    (rejected_with e0) []).
      simpl in Hrest. rewrite app_nil_r in Hrest. apply Hrest; auto.
Qed.

End Refine.

Section Simulation.
Import Promise.
Variable policy : catch_policy.
Variable exec_listener : json -> option err.

Abbreviation micro := (Promise.micro policy exec_listener).
Abbreviation run_microtasks := (Promise.run_microtasks policy exec_listener).
Abbreviation finish := (Chain.finish policy exec_listener).
Abbreviation advance := (Chain.advance policy exec_listener).
Abbreviation on_message := (Promise.on_message policy exec_listener).

(** [_handle_ws_message] behind a settled tail. *)
Lemma handle_settled h dec q o f prev :
  h !! q = Some (cell_of prev) ->
  exists h',
    _handle_ws_message f {| heap := h; microtasks := []; decoding := dec;
                            _msg_queue := q; out := o |}
    = {| heap := h'; microtasks := [reaction_job (then_decode f (length h)) prev];
         decoding := dec; _msg_queue := length h + 2; out := o |}
    /\ link h' (length h) (length h + 2) []
    /\ (forall x, x < length h -> h' !! x = h !! x).
Proof.
  intros Hq. pose proof (lookup_lt_Some _ _ _ Hq).
  unfold _handle_ws_message, then_, alloc, register. hs.
  destruct prev; hs; replace (length h + 1 + 1) with (length h + 2) by lia;
    (eexists; split; [reflexivity|]); split.
  all: simpl; unfold link, then_dispatch, then_catch.
  all: try (exists (length h + 1); hs; repeat split; try lia; reflexivity).
  all: intros x ?; hs; reflexivity.
Qed.

(** [_handle_ws_message] behind a pending tail. *)
Lemma handle_pending h dec q o f :
  h !! q = Some (pending []) ->
  exists h',
    _handle_ws_message f {| heap := h; microtasks := []; decoding := dec;
                            _msg_queue := q; out := o |}
    = {| heap := h'; microtasks := []; decoding := dec;
         _msg_queue := length h + 2; out := o |}
    /\ link h' (length h) (length h + 2) []
    /\ h' !! q = Some (pending [then_decode f (length h)])
    /\ (forall x, x < length h -> x <> q -> h' !! x = h !! x).
Proof.
  intros Hq. pose proof (lookup_lt_Some _ _ _ Hq).
  unfold _handle_ws_message, then_, alloc, register. hs.
  replace (length h + 1 + 1) with (length h + 2) by lia.
  eexists; split; [reflexivity|]. split; [|split].
  - simpl; unfold link, then_dispatch, then_catch.
    exists (length h + 1); hs; repeat split; try lia; reflexivity.
  - hs. reflexivity.
  - intros x ? ?; hs; reflexivity.
Qed.

Lemma links_tail h tail rs fs q :
  links h tail rs fs q -> h !! tail = Some (pending rs) -> h !! q = Some (pending []).
Proof.
  revert tail rs. induction fs as [|f fs IH]; intros tail rs H Ht; simpl in H.
  - destruct H as [-> ->]. exact Ht.
  - destruct H as (p1 & p3 & rs' & -> & Htp & Hl & Hr).
    destruct Hl as (p2 & _ & _ & _ & _ & H3). eapply IH; eassumption.
Qed.

(** One more link behind the links of [fs]. *)
Lemma links_snoc h h' fs f n p3n : forall tail rs q,
  links h tail rs fs q -> h !! tail = Some (pending rs) ->
  (forall x, x < length h -> x <> q -> h' !! x = h !! x) ->
  h' !! q = Some (pending [then_decode f n]) ->
  length h <= n -> link h' n p3n [] ->
  exists rs', h' !! tail = Some (pending rs') /\ links h' tail rs' (fs ++ [f]) p3n.
Proof.
  induction fs as [|f0 fs IH]; intros tail rs q H Ht Hf Hq Hn Hl; simpl in H.
  - destruct H as [-> ->]. exists [then_decode f n]. split; [exact Hq|]. simpl.
    exists n, p3n, []. pose proof (lookup_lt_Some _ _ _ Ht). repeat split; try assumption; lia.
  - destruct H as (p1 & p3 & rs' & -> & Htp & Hlk & Hr).
    pose proof (links_bound _ _ _ _ _ Hr) as Hb.
    pose proof (link_bound _ _ _ _ Hlk) as [Hb1 Hb3].
    destruct Hlk as (p2 & H12 & H23 & H1 & H2 & H3).
    destruct (IH p3 rs' q Hr H3 Hf Hq Hn Hl) as (rs'' & H3' & Hr').
    exists [then_decode f0 p1]. split.
    + rewrite Hf; [exact Ht| apply lookup_lt_Some in Ht; exact Ht | lia].
    + simpl. exists p1, p3, rs''. repeat split; try assumption.
      exists p2. repeat split; try assumption.
      * rewrite Hf; [exact H1|lia|lia].
      * rewrite Hf; [exact H2|lia|lia].
Qed.

(** A message task keeps the machine in step with the chain. *)
Lemma matches_on_message s c f :
  matches s c -> matches (on_message f s) (Chain.arrive policy exec_listener f c).
Proof.
  intros (Hm & Ho & H). destruct s as [h mq dec q o]. simpl in *. subst mq o.
  unfold Promise.on_message, Chain.arrive.
  destruct (Chain.current c) as [[n r]|] eqn:Hc.
  - destruct H as (d & p1 & p3 & rs & -> & Hn & Hd & Hl & Hls).
    destruct Hl as (p2 & H12 & H23 & H1 & H2 & H3).
    pose proof (links_tail _ _ _ _ _ Hls H3) as Hq.
    pose proof (links_bound _ _ _ _ _ Hls) as Hb.
    destruct (handle_pending h [{| promise := d; remaining := n; result := r |}] q
                (Chain.log c) f Hq) as (h' & -> & Hl' & Hq' & Hf').
    rewrite run_microtasks_idle by reflexivity.
    assert (d <> q) by (intros ->; rewrite Hq in Hd; discriminate).
    destruct (links_snoc h h' (Chain.queue c) f (length h) (length h + 2) p3 rs q Hls H3 Hf' Hq')
      as (rs' & H3' & Hls'); [lia|exact Hl'|].
    split; [reflexivity|]. split; [reflexivity|]. simpl.
    exists d, p1, p3, rs'. split; [reflexivity|]. split; [assumption|].
    pose proof (lookup_lt_Some _ _ _ Hd). pose proof (lookup_lt_Some _ _ _ H3).
    split; [rewrite Hf' by assumption; exact Hd|]. split; [|exact Hls'].
    exists p2. repeat split; try assumption.
    + rewrite Hf' by lia. exact H1.
    + rewrite Hf' by lia. exact H2.
  - destruct H as (Hqe & -> & Hq). rewrite Hqe. simpl app.
    destruct (handle_settled h [] q (Chain.log c) f (Chain.last c) Hq) as (h' & -> & Hl' & Hf').
    pose proof (lookup_lt_Some _ _ _ Hq).
    match goal with |- matches (Promise.run_microtasks _ _ ?s1) _ =>
      apply (cascade policy exec_listener [f] s1 (Chain.last c) q
               [then_decode f (length h)]) end; simpl; auto.
    + rewrite Hf' by lia. exact Hq.
    + exists (length h), (length h + 2), []. repeat split; auto.
Qed.

(** A link whose first promise is settled runs to its end, and the links
    behind it follow. *)
Lemma resume s p1 p3 rs fs o1 :
  microtasks s = [] -> decoding s = [] ->
  link (heap s) p1 p3 rs -> links (heap s) p3 rs fs (_msg_queue s) ->
  matches (run_microtasks (settle p1 o1 s))
    (advance (snd (finish o1)) fs (out s ++ fst (finish o1))).
Proof.
  intros Hm Hd Hl Hls.
  pose proof (link_bound _ _ _ _ Hl) as [? ?].
  destruct (run_link policy exec_listener s p1 p3 rs o1 Hm Hl)
    as (s' & E & [Hm' Hp'] & (Ho' & Hd' & Hq' & Hl' & Hf')).
  rewrite E, <- Ho'.
  apply (cascade policy exec_listener fs s' _ p3 rs); try assumption; try congruence.
  rewrite Hq'. eapply links_frame; [exact Hls|]. intros x ? ?. apply Hf'; lia.
Qed.

(** A tick keeps the machine in step with the chain. *)
Lemma matches_tick s c :
  matches s c ->
  matches (Promise.tick policy exec_listener s) (Chain.tick policy exec_listener c).
Proof.
  intros (Hm & Ho & H). destruct s as [h mq dec q o]. simpl in *. subst mq o.
  unfold Promise.tick, Chain.tick.
  destruct (Chain.current c) as [[n r]|] eqn:Hc.
  - destruct H as (d & p1 & p3 & rs & -> & Hn & Hd & Hl & Hls).
    destruct n as [|[|n]]; [lia| |].
    + (* the decode in flight is done *)
      simpl. unfold finish_decode. simpl.
      pose proof (lookup_lt_Some _ _ _ Hd).
      unfold settle at 1. hs. mstep.
      replace (handler_for (adopt p1) r) with (@None callback) by (destruct r; reflexivity).
      match goal with |- matches (Promise.run_microtasks _ _ (settle p1 r ?s0)) _ =>
        apply (resume s0 p1 p3 rs (Chain.queue c) r) end; simpl; auto.
      * eapply link_insert_foreign; [exact Hl| |exact Hd]. eapply links_shape, Hls.
      * eapply links_insert_foreign; [exact Hls|exact Hd].
    + simpl. split; [reflexivity|]. split; [reflexivity|]. simpl.
      exists d, p1, p3, rs. repeat split; try assumption. lia.
  - destruct H as (Hqe & -> & Hq). simpl.
    split; [reflexivity|]. split; [reflexivity|]. rewrite Hc. auto.
Qed.

Lemma matches_init : matches Promise.init Chain.init.
Proof. repeat split. Qed.

End Simulation.

Section ChainLemmas.
Import Promise.
Variable policy : catch_policy.
Variable exec_listener : json -> option err.

Abbreviation finish := (Chain.finish policy exec_listener).
Abbreviation advance := (Chain.advance policy exec_listener).
Abbreviation arrive := (Chain.arrive policy exec_listener).
Abbreviation ctick := (Chain.tick policy exec_listener).
Abbreviation sequential := (Chain.sequential policy exec_listener).
Abbreviation whole := (Chain.whole policy exec_listener).
Abbreviation follows := (Chain.follows policy exec_listener).
Abbreviation started := Chain.started.

Lemma sequential_app prev a b :
  sequential prev (a ++ b)
  = (fst (sequential prev a) ++ fst (sequential (snd (sequential prev a)) b),
     snd (sequential (snd (sequential prev a)) b)).
Proof.
  revert prev. induction a as [|f a IH]; intros prev; simpl.
  - destruct (sequential prev b); reflexivity.
  - rewrite IH. simpl. rewrite app_assoc. reflexivity.
Qed.

Lemma sequential_snoc prev a f :
  sequential prev (a ++ [f])
  = (fst (sequential prev a) ++ fst (whole (snd (sequential prev a)) f),
     snd (whole (snd (sequential prev a)) f)).
Proof. rewrite sequential_app. simpl. rewrite app_nil_r. reflexivity. Qed.

Lemma follows_advance rest : forall done prev lg,
  lg = fst (sequential started done) -> prev = snd (sequential started done) ->
  follows (done ++ rest) (advance prev rest lg).
Proof.
  induction rest as [|f rest IH]; intros done prev lg Hlg Hprev.
  - simpl. rewrite app_nil_r. unfold Chain.follows. simpl. subst. auto.
  - replace (done ++ f :: rest) with ((done ++ [f]) ++ rest)
      by (rewrite <- app_assoc; reflexivity).
    pose proof (sequential_snoc started done f) as Hs. rewrite <- Hprev, <- Hlg in Hs.
    simpl. destruct prev as [v|e].
    + unfold Chain.whole in Hs. simpl in Hs.
      destruct (answer f) as [e|v'|[|n] r] eqn:Ha.
      * apply IH; rewrite Hs; unfold Chain.outcome; rewrite Ha; simpl;
          [rewrite <- app_assoc; reflexivity|reflexivity].
      * apply IH; rewrite Hs; unfold Chain.outcome; rewrite Ha; simpl;
          [rewrite <- app_assoc; reflexivity|reflexivity].
      * apply IH; rewrite Hs; unfold Chain.outcome; rewrite Ha; simpl;
          [rewrite <- app_assoc; reflexivity|reflexivity].
      * unfold Chain.follows. simpl. exists done, f, v.
        rewrite <- app_assoc. simpl.
        unfold Chain.outcome, Chain.latency. rewrite Ha. subst. repeat split; auto. lia.
    + apply IH; rewrite Hs; reflexivity.
Qed.

Lemma follows_arrive fs c f : follows fs c -> follows (fs ++ [f]) (arrive f c).
Proof.
  unfold Chain.follows, Chain.arrive. destruct (Chain.current c) as [[n r]|] eqn:Hc.
  - intros (done & f0 & v & -> & Hl & Hs & Hlog & Ho & Hn). simpl.
    exists done, f0, v. rewrite <- app_assoc. simpl. repeat split; try assumption; lia.
  - intros (Hq & Hl & Hp). rewrite Hq. simpl app. apply follows_advance; assumption.
Qed.

Lemma follows_tick fs c : follows fs c -> follows fs (ctick c).
Proof.
  intros H. pose proof H as H'. unfold Chain.follows in H. unfold Chain.tick.
  destruct (Chain.current c) as [[n r]|] eqn:Hc; [|exact H'].
  destruct H as (done & f0 & v & -> & Hl & Hs & Hlog & Ho & Hn & Hle).
  destruct n as [|[|n]]; [lia| |].
  - replace (done ++ f0 :: Chain.queue c) with ((done ++ [f0]) ++ Chain.queue c)
      by (rewrite <- app_assoc; reflexivity).
    pose proof (sequential_snoc started done f0) as E. rewrite Hs in E.
    unfold Chain.whole in E. rewrite Ho in E.
    apply follows_advance; rewrite E; simpl; [|reflexivity].
    rewrite Hlog, <- app_assoc. reflexivity.
  - unfold Chain.follows. simpl. exists done, f0, v. repeat split; auto; lia.
Qed.

Lemma total_latency_app a b :
  Chain.total_latency (a ++ b) = Chain.total_latency a + Chain.total_latency b.
Proof. apply sum_list_with_app. Qed.

Lemma work_advance fs : forall prev lg,
  Chain.work (advance prev fs lg) <= Chain.total_latency fs.
Proof.
  induction fs as [|f fs IH]; intros prev lg; simpl; [unfold Chain.work; simpl; lia|].
  change (Chain.total_latency (f :: fs)) with (Chain.latency f + Chain.total_latency fs).
  destruct prev as [v|e].
  - unfold Chain.latency. destruct (answer f) as [e|v'|[|n] r].
    + etransitivity; [apply IH|lia].
    + etransitivity; [apply IH|lia].
    + etransitivity; [apply IH|lia].
    + unfold Chain.work. simpl. lia.
  - etransitivity; [apply IH|lia].
Qed.

Lemma work_arrive fs c f :
  follows fs c -> Chain.work (arrive f c) <= Chain.work c + Chain.latency f.
Proof.
  unfold Chain.follows, Chain.arrive, Chain.work.
  destruct (Chain.current c) as [[n r]|] eqn:Hc.
  - intros _. simpl. rewrite total_latency_app. unfold Chain.total_latency at 2. simpl. lia.
  - intros (Hq & _). rewrite Hq. simpl app.
    etransitivity; [apply work_advance|]. unfold Chain.total_latency. simpl. lia.
Qed.

Lemma work_tick fs c : follows fs c -> Chain.work (ctick c) <= Chain.work c - 1.
Proof.
  unfold Chain.follows, Chain.tick.
  destruct (Chain.current c) as [[n r]|] eqn:Hc.
  - intros (done & f0 & v & _ & _ & _ & _ & _ & Hn & _).
    destruct n as [|[|n]]; [lia| |].
    + etransitivity; [apply work_advance|]. unfold Chain.work. rewrite Hc. lia.
    + unfold Chain.work. simpl. rewrite Hc. lia.
  - intros (Hq & _). unfold Chain.work. rewrite Hc, Hq. simpl. lia.
Qed.

(** Nothing left to wait for: every link has run. *)
Lemma follows_done fs c :
  follows fs c -> Chain.work c = 0 -> Chain.log c = fst (sequential started fs).
Proof.
  unfold Chain.follows, Chain.work. destruct (Chain.current c) as [[n r]|].
  - intros (done & f0 & v & _ & _ & _ & _ & _ & Hn & _). lia.
  - intros (_ & H & _) _. exact H.
Qed.

(** While a decode is in flight the output is a prefix of the sequential one. *)
Lemma follows_prefix fs c :
  follows fs c -> exists rest, Chain.log c ++ rest = fst (sequential started fs).
Proof.
  unfold Chain.follows. destruct (Chain.current c) as [[n r]|].
  - intros (done & f0 & v & -> & _ & Hs & -> & _).
    rewrite sequential_app. simpl. rewrite Hs. unfold Chain.whole at 1. simpl.
    eexists. rewrite <- app_assoc. simpl. reflexivity.
  - intros (_ & -> & _). exists []. apply app_nil_r.
Qed.

Lemma frames_of_app a b : frames_of (a ++ b) = frames_of a ++ frames_of b.
Proof. apply omap_app. Qed.

Lemma chain_step_follows fs c e :
  follows fs c ->
  follows (fs ++ frames_of [e]) (Chain.step policy exec_listener c e)
  /\ Chain.work (Chain.step policy exec_listener c e)
     <= Chain.work c + Chain.total_latency (frames_of [e]).
Proof.
  intros H. destruct e; simpl; rewrite ?app_nil_r; unfold Chain.total_latency; simpl;
    try (split; [exact H|lia]).
  - split; [apply follows_arrive, H|]. pose proof (work_arrive fs c f H). lia.
  - split; [apply follows_tick, H|]. pose proof (work_tick fs c H). lia.
Qed.

Lemma chain_run_from evs : forall fs c,
  follows fs c ->
  follows (fs ++ frames_of evs) (fold_left (Chain.step policy exec_listener) evs c)
  /\ Chain.work (fold_left (Chain.step policy exec_listener) evs c)
     <= Chain.work c + Chain.total_latency (frames_of evs).
Proof.
  induction evs as [|e evs IH]; intros fs c H.
  - simpl. rewrite app_nil_r. split; [exact H|]. unfold Chain.total_latency. simpl. lia.
  - destruct (chain_step_follows fs c e H) as [H1 H2].
    destruct (IH _ _ H1) as [H3 H4].
    change (e :: evs) with ([e] ++ evs).
    rewrite frames_of_app, app_assoc, total_latency_app. simpl fold_left.
    split; [exact H3|]. lia.
Qed.

Lemma follows_init : follows [] Chain.init.
Proof. repeat split. Qed.

Lemma chain_ticks n : forall fs c,
  follows fs c ->
  follows fs (fold_left (Chain.step policy exec_listener) (repeat ev_tick n) c)
  /\ Chain.work (fold_left (Chain.step policy exec_listener) (repeat ev_tick n) c)
     <= Chain.work c - n.
Proof.
  induction n as [|n IH]; intros fs c H; simpl; [split; [exact H|lia]|].
  pose proof (follows_tick fs c H) as H1. pose proof (work_tick fs c H) as H2.
  destruct (IH _ _ H1) as [H3 H4]. split; [exact H3|]. lia.
Qed.

(** The output is always a prefix of the sequential one, and all of it once
    the decodes have had their time. *)
Lemma chain_run_log evs :
  (exists rest,
     Chain.log (Chain.run policy exec_listener evs) ++ rest
     = fst (sequential started (frames_of evs)))
  /\ forall n,
       Chain.total_latency (frames_of evs) <= n ->
       Chain.log (Chain.run policy exec_listener (evs ++ repeat ev_tick n))
       = fst (sequential started (frames_of evs)).
Proof.
  unfold Chain.run.
  destruct (chain_run_from evs [] Chain.init follows_init) as [H1 H2]. simpl in H1.
  split; [apply follows_prefix, H1|].
  intros n Hn. rewrite fold_left_app.
  destruct (chain_ticks n _ _ H1) as [H3 H4].
  apply follows_done; [exact H3|].
  change (Chain.work Chain.init) with 0 in H2. lia.
Qed.

End ChainLemmas.

Section Inbound.
Variable policy : catch_policy.
Variable exec_listener : json -> option err.

Lemma inbound_enter_once g path w a w' :
  enter_once g path w = Some (a, w') -> inbound w' = inbound w.
Proof. unfold enter_once. intros H. repeat case_match; simplify_eq. reflexivity. Qed.

Lemma inbound_start_channel w : inbound (start_channel w) = inbound w.
Proof. unfold start_channel. simpl. apply quiet_stop_channel. Qed.

Lemma inbound_run_ws_closed g path c w : inbound (run_ws_closed g path c w) = inbound w.
Proof.
  unfold run_ws_closed. destruct (enter_once g path w) as [[a w']|] eqn:E; [|reflexivity].
  apply inbound_enter_once in E. destruct (negb c); [|assumption].
  rewrite <- E. apply quiet_ws_closed.
Qed.

Lemma inbound_run_ws_error g w : inbound (run_ws_error g w) = inbound w.
Proof.
  unfold run_ws_error. destruct (enter_once g error_path w) as [[a w']|] eqn:E; [|reflexivity].
  apply inbound_enter_once in E. rewrite <- E. apply quiet_ws_closed.
Qed.

(** Only messages and ticks touch the promises. *)
Lemma inbound_step w e :
  inbound (step policy exec_listener w e)
  = match e with
    | ev_message _ f => Promise.on_message policy exec_listener f (inbound w)
    | ev_tick => Promise.tick policy exec_listener (inbound w)
    | _ => inbound w
    end.
Proof.
  destruct e; simpl; try reflexivity.
  - unfold deliver_open. case_match; [|reflexivity].
    etransitivity; [apply quiet_ws_opened|reflexivity].
  - unfold deliver_close. case_match; [|reflexivity].
    destruct (onclose _); simpl; rewrite ?inbound_run_ws_closed; try reflexivity.
    etransitivity; [apply quiet_stop_channel_close|reflexivity].
  - unfold deliver_error. case_match; [|reflexivity]. rewrite inbound_run_ws_error. reflexivity.
  - unfold fire_timer. case_match; [|reflexivity].
    unfold run_timer. destruct (callback _).
    + etransitivity; [apply quiet_grace_switch|reflexivity].
    + reflexivity.
  - apply quiet_publish.
  - apply inbound_start_channel.
  - apply quiet_stop_channel.
  - apply quiet_send_input_reply.
Qed.

Lemma matches_step w c e :
  matches (inbound w) c ->
  matches (inbound (step policy exec_listener w e)) (Chain.step policy exec_listener c e).
Proof.
  intros H. rewrite inbound_step. destruct e; simpl; try exact H.
  - apply matches_on_message, H.
  - apply matches_tick, H.
Qed.

Lemma matches_run evs : forall w c,
  matches (inbound w) c ->
  matches (inbound (run policy exec_listener evs w))
    (fold_left (Chain.step policy exec_listener) evs c).
Proof.
  induction evs as [|e evs IH]; intros w c H; simpl; [exact H|].
  apply IH, matches_step, H.
Qed.

(** What the callbacks print is what the chain prints. *)
Lemma out_run m b p h s evs :
  Promise.out (inbound (run policy exec_listener evs (new_Remote m b p h s)))
  = Chain.log (Chain.run policy exec_listener evs).
Proof.
  pose proof (matches_run evs (new_Remote m b p h s) Chain.init matches_init) as (_ & H & _).
  exact H.
Qed.
End Inbound.

(** With a handler that returns a rejected promise, no frame behind a
    failed one is decoded or dispatched. *)
Lemma rejecting_handler_aborts l e fs :
  decode_calls (fst (Chain.sequential log_and_reject l (rejected_with e) fs)) = []
  /\ dispatched (fst (Chain.sequential log_and_reject l (rejected_with e) fs)) = [].
Proof.
  revert e. induction fs as [|f fs IH]; intros e; simpl; [auto|]. apply IH.
Qed.

Lemma sound_finish policy l o : sound policy (snd (Chain.finish policy l o)).
Proof.
  unfold sound. destruct o as [[|exec]|e]; simpl.
  - destruct policy; auto.
  - destruct (truthy exec); [destruct (l exec)|]; simpl; auto.
    destruct policy; auto.
  - destruct policy; auto.
Qed.

Lemma sound_whole policy l prev f : sound policy (snd (Chain.whole policy l prev f)).
Proof.
  destruct prev; simpl; [apply sound_finish|]. unfold sound. destruct policy; simpl; auto.
Qed.

Lemma decode_calls_finish policy l o : decode_calls (fst (Chain.finish policy l o)) = [].
Proof.
  destruct o as [[|exec]|e]; simpl; try reflexivity.
  destruct (truthy exec); [destruct (l exec)|]; reflexivity.
Qed.

(** The decodes called are those of an initial segment of the frames. *)
Lemma decode_calls_sequential policy l fs : forall prev,
  sound policy prev ->
  decode_calls (fst (Chain.sequential policy l prev fs)) `prefix_of` map data fs.
Proof.
  induction fs as [|f fs IH]; intros prev Hs; simpl; [reflexivity|].
  unfold decode_calls at 1. rewrite omap_app. fold decode_calls.
  pose proof (IH _ (sound_whole policy l prev f)) as H.
  destruct prev as [v|e]; simpl in *.
  - rewrite decode_calls_finish. simpl. apply prefix_cons, H.
  - subst policy. simpl in *.
    destruct (rejecting_handler_aborts l (Wrapped "Couldn't process remote message" e) fs)
      as [E _].
    unfold decode_calls in E. rewrite E. apply prefix_nil.
Qed.
Section Order.
Variable policy : catch_policy.
Variable exec_listener : json -> option err.

Abbreviation finish := (Chain.finish policy exec_listener).
Abbreviation sequential := (Chain.sequential policy exec_listener).
Abbreviation block := (Chain.block policy exec_listener).

Lemma decode_calls_app a b : decode_calls (a ++ b) = decode_calls a ++ decode_calls b.
Proof. apply omap_app. Qed.

Lemma dispatched_app a b : dispatched (a ++ b) = dispatched a ++ dispatched b.
Proof. apply omap_app. Qed.

Lemma reported_app a b : reported (a ++ b) = reported a ++ reported b.
Proof. apply omap_app. Qed.

Lemma prefix_omap {A B} (g : A -> option B) (l1 l2 : list A) :
  l1 `prefix_of` l2 -> omap g l1 `prefix_of` omap g l2.
Proof. intros [k ->]. rewrite omap_app. apply prefix_app_r. reflexivity. Qed.

(** Frames that decode and dispatch well print the same under any handler. *)
Lemma finish_healthy f :
  Chain.healthy exec_listener f = true ->
  snd (finish (Chain.outcome f)) = fulfilled_with undefined
  /\ dispatched (fst (finish (Chain.outcome f))) = [Chain.decoded f]
  /\ reported (fst (finish (Chain.outcome f))) = [].
Proof.
  unfold Chain.healthy, Chain.decoded. destruct (Chain.outcome f) as [[|exec]|e]; try discriminate.
  simpl. destruct (truthy exec); [destruct (exec_listener exec); [discriminate|]|]; auto.
Qed.

Lemma block_healthy f :
  Chain.healthy exec_listener f = true ->
  dispatched (block f) = [Chain.decoded f] /\ decode_calls (block f) = [data f]
  /\ reported (block f) = [].
Proof.
  intros H. destruct (finish_healthy f H) as (_ & Hd & Hr).
  unfold Chain.block. simpl. rewrite decode_calls_finish. auto.
Qed.

Lemma sequential_healthy fs v :
  forallb (Chain.healthy exec_listener) fs = true ->
  fst (sequential (fulfilled_with v) fs) = flat_map block fs
  /\ dispatched (flat_map block fs) = map Chain.decoded fs
  /\ decode_calls (flat_map block fs) = map data fs
  /\ reported (flat_map block fs) = [].
Proof.
  revert v. induction fs as [|f fs IH]; intros v H; [simpl; auto|].
  simpl in H. apply andb_prop in H as [Hf Hfs].
  destruct (finish_healthy f Hf) as (Hs & _).
  destruct (block_healthy f Hf) as (Hd & Hc & Hr).
  destruct (IH undefined Hfs) as (H1 & H2 & H3 & H4).
  cbn [Chain.sequential flat_map]. unfold Chain.whole.
  cbn [fst snd]. rewrite Hs, H1.
  rewrite dispatched_app, decode_calls_app, reported_app, H2, H3, H4, Hd, Hc, Hr.
  repeat split; reflexivity.
Qed.

End Order.

Section Isolation.
Variable exec_listener : json -> option err.

Abbreviation finish := (Chain.finish log_and_return exec_listener).
Abbreviation sequential := (Chain.sequential log_and_return exec_listener).
Abbreviation block := (Chain.block log_and_return exec_listener).

Lemma finish_returns o : exists v, snd (finish o) = fulfilled_with v.
Proof.
  destruct o as [[|exec]|e]; simpl; eauto.
  destruct (truthy exec); [destruct (exec_listener exec)|]; simpl; eauto.
Qed.

(** With a handler that returns, every frame gets its own block. *)
Lemma sequential_isolated fs v :
  fst (sequential (fulfilled_with v) fs) = flat_map block fs.
Proof.
  revert v. induction fs as [|f fs IH]; intros v; simpl; [reflexivity|].
  destruct (finish_returns (Chain.outcome f)) as [v' ->]. rewrite IH. reflexivity.
Qed.

Lemma block_dispatched f : dispatched (block f) = option_list (Chain.delivered f).
Proof.
  unfold Chain.block, Chain.delivered. destruct (Chain.outcome f) as [[|exec]|e]; simpl; try reflexivity.
  destruct (truthy exec); [destruct (exec_listener exec)|]; reflexivity.
Qed.

Lemma block_reported f :
  reported (block f)
  = option_list (Wrapped "Couldn't process remote message" <$> Chain.failure exec_listener f).
Proof.
  unfold Chain.block, Chain.failure. destruct (Chain.outcome f) as [[|exec]|e]; simpl; try reflexivity.
  destruct (truthy exec); [destruct (exec_listener exec)|]; reflexivity.
Qed.

Lemma block_decode_calls f : decode_calls (block f) = [data f].
Proof.
  unfold Chain.block. simpl. rewrite decode_calls_finish. reflexivity.
Qed.

Lemma blocks_projections fs :
  decode_calls (flat_map block fs) = map data fs
  /\ dispatched (flat_map block fs) = omap Chain.delivered fs
  /\ reported (flat_map block fs)
     = map (Wrapped "Couldn't process remote message") (omap (Chain.failure exec_listener) fs).
Proof.
  induction fs as [|f fs (H1 & H2 & H3)]; [simpl; auto|].
  cbn [flat_map]. rewrite decode_calls_app, dispatched_app, reported_app, H1, H2, H3.
  rewrite block_decode_calls, block_dispatched, block_reported.
  repeat split.
  - simpl. destruct (Chain.delivered f); reflexivity.
  - simpl. destruct (Chain.failure exec_listener f); reflexivity.
Qed.

End Isolation.

(** C2.  Whatever the catch handler does, whatever the frames decode to and
    however long each decode takes, after any sequence of tasks the output of
    the callbacks is an initial part of what running the links one after the
    other in arrival order prints, and the decodes called so far are those of
    the first frames in arrival order.  When every frame decodes and
    dispatches without error, once the decodes have had their time each frame
    has been decoded and dispatched, in arrival order. *)
Theorem dispatch_in_arrival_order policy l m b p h s (evs : list event) :
  let fs := frames_of evs in
  let printed n := Promise.out (inbound (run policy l (evs ++ repeat ev_tick n)
                                           (new_Remote m b p h s))) in
  (exists rest, printed 0 ++ rest = fst (Chain.sequential policy l Chain.started fs))
  /\ decode_calls (printed 0) `prefix_of` map data fs
  /\ forall n,
       Chain.total_latency fs <= n ->
       forallb (Chain.healthy l) fs = true ->
       printed n = flat_map (Chain.block policy l) fs
       /\ decode_calls (printed n) = map data fs
       /\ dispatched (printed n) = map Chain.decoded fs.
Proof.
  intros fs printed. unfold printed.
  destruct (chain_run_log policy l evs) as [[rest Hp] Hc]. fold fs in Hp, Hc.
  simpl repeat. rewrite app_nil_r, out_run.
  split; [exists rest; exact Hp|]. split.
  - etransitivity; [|apply (decode_calls_sequential policy l fs Chain.started I)].
    rewrite <- Hp. unfold decode_calls. rewrite omap_app. apply prefix_app_r. reflexivity.
  - intros n Hn Hh. rewrite out_run, (Hc n Hn).
    destruct (sequential_healthy policy l fs undefined Hh) as (H1 & H2 & H3 & _).
    unfold Chain.started. rewrite H1. auto.
Qed.

Lemma dispatch_in_arrival_order_witness :
  dispatched (Promise.out (inbound (run log_and_reject (fun _ => None)
                                      (arrivals healthy_frames ++ repeat ev_tick 4)
                                      (new_Remote "ws://host" "" "" "" "s1"))))
  = map Chain.decoded healthy_frames.
Proof.
  destruct (dispatch_in_arrival_order log_and_reject (fun _ => None) "ws://host" "" "" "" "s1"
              (arrivals healthy_frames)) as (_ & _ & H).
  destruct (H 4) as (_ & _ & H'); [vm_compute; lia | reflexivity | exact H'].
Defined.

(** C3.  With the catch handler of the specification, once the decodes have
    had their time the callbacks have printed one block per frame, in arrival
    order, whatever happened to the other frames: the decode of every frame
    was called, every frame that decoded was dispatched, and every error of a
    decode or a dispatch was logged, wrapped.  A message or tick task changes
    neither the object, the sockets, the timers nor what was published, so
    the connection stays as it was. *)
Theorem failure_does_not_abort_chain l m b p h s (evs : list event) (n : nat) :
  let fs := frames_of evs in
  Chain.total_latency fs <= n ->
  let w := run utils_reject l (evs ++ repeat ev_tick n) (new_Remote m b p h s) in
  let printed := Promise.out (inbound w) in
  printed = flat_map (Chain.block utils_reject l) fs
  /\ decode_calls printed = map data fs
  /\ dispatched printed = omap Chain.delivered fs
  /\ reported printed
     = map (Wrapped "Couldn't process remote message") (omap (Chain.failure l) fs)
  /\ forall w0 e,
       match e with ev_message _ _ | ev_tick => True | _ => False end ->
       let w1 := step utils_reject l w0 e in
       this w1 = this w0 /\ sockets w1 = sockets w0 /\ timers w1 = timers w0
       /\ triggered w1 = triggered w0 /\ is_connected w1 = is_connected w0.
Proof.
  intros fs Hn w printed. unfold printed, w.
  destruct (chain_run_log utils_reject l evs) as [_ Hc]. fold fs in Hc.
  rewrite out_run, (Hc n Hn). unfold Chain.started, utils_reject.
  rewrite sequential_isolated.
  destruct (blocks_projections l fs) as (H1 & H2 & H3).
  split; [reflexivity|]. split; [exact H1|]. split; [exact H2|]. split; [exact H3|].
  intros w0 e He. destruct e; try contradiction; simpl; auto.
Qed.

Lemma failure_does_not_abort_chain_witness :
  dispatched (Promise.out (inbound (run utils_reject (fun _ => None)
                                      (arrivals sample_frames ++ repeat ev_tick 4)
                                      (new_Remote "ws://host" "" "" "" "s1"))))
  = [message (JStr "a"); message JUndefined].
Proof.
  destruct (failure_does_not_abort_chain (fun _ => None) "ws://host" "" "" "" "s1"
              (arrivals sample_frames) 4) as (_ & _ & H & _).
  - vm_compute. lia.
  - exact H.
Defined.

(** With a catch handler that returns a rejected promise the frames behind
    a failed one are never decoded. *)
Example rejecting_handler_example :
  Promise.out (inbound (run log_and_reject (fun _ => None)
                          (arrivals sample_frames ++ repeat ev_tick 4)
                          (new_Remote "ws://host" "" "" "" "s1")))
  = [Promise.deserialize_call 1; Promise.log_message (message (JStr "a"));
     Promise.trigger_exec (JStr "a"); Promise.deserialize_call 2;
     Promise.console_error (Wrapped "Couldn't process remote message" (Err "bad frame"));
     Promise.console_error
       (Wrapped "Couldn't process remote message"
          (Wrapped "Couldn't process remote message" (Err "bad frame")))].
Proof. vm_compute. reflexivity. Qed.

(** * Further properties *)

Lemma stop_channel_frame (w : world) :
  let w1 := stop_channel w in
  triggered w1 = triggered w /\ timers w1 = timers w /\ next_timer w1 = next_timer w
  /\ console w1 = console w /\ sent w1 = sent w /\ uuids w1 = uuids w
  /\ activations w1 = activations w /\ entered w1 = entered w /\ inbound w1 = inbound w
  /\ same_fields (this w) (this w1)
  /\ length (sockets w1) = length (sockets w)
  /\ (forall k, ws (this w) <> Some k -> sockets w1 !! k = sockets w !! k)
  /\ (ws (this w1) = ws (this w) \/ ws (this w1) = None).
Proof.
  pose proof (stop_channel_cases w) as H. unfold current_socket in H.
  destruct (ws (this w)) as [i|] eqn:Hws; [destruct (sockets w !! i) as [s|] eqn:Hs|].
  - destruct (readyState s); simpl; rewrite H; simpl; rewrite ?Hws, ?length_insert;
      unfold same_fields; repeat split; auto; intros k Hk;
      try rewrite list_lookup_insert_ne by congruence; reflexivity.
  - simpl. rewrite H. unfold same_fields. repeat split; auto.
  - simpl. rewrite H. unfold same_fields. repeat split; auto.
Qed.

Lemma start_channel_shape (w : world) :
  let w1 := start_channel w in
  let j := length (sockets w) in
  let g := length (activations w) in
  let u := master_url (this w) +:+ "/api/sessions/" +:+ session_id (this w) +:+ "/ws" in
  ws (this w1) = Some j
  /\ sockets w1 = sockets (stop_channel w)
                  ++ [{| url := u; readyState := CONNECTING;
                         onclose := ws_closed_early g; onerror := g |}]
  /\ activations w1 = activations w ++ [{| already_called_onclose := false; ws_host_url := u |}]
  /\ timers w1 = timers w ++ [{| timer_id := next_timer w; delay_ms := 1000;
                                 callback := grace_switch g |}]
  /\ next_timer w1 = S (next_timer w)
  /\ triggered w1 = triggered w
  /\ console w1 = console w ++ [log_starting u]
  /\ sent w1 = sent w /\ uuids w1 = uuids w /\ entered w1 = entered w /\ inbound w1 = inbound w
  /\ same_fields (this w) (this w1).
Proof.
  pose proof (stop_channel_frame w) as
    (Ht & Htm & Hnt & Hc & Hsn & Hu & Ha & He & Hi & (Hm & Hun & Hs & Har & Hr & Hl) & Hlen & _ & _).
  simpl in *. unfold start_channel, same_fields. simpl.
  rewrite Hm, Hs, Ht, Htm, Hnt, Hc, Ha, Hr, Hlen, Hsn, Hu, He, Hi, Hun, Har, Hl.
  repeat split; reflexivity.
Qed.

(** X2.  [stop_channel] publishes nothing, arms no timer, sends nothing and
    changes no counter: whatever the state, it leaves everything but the
    handle and the current socket as it was, creates no socket, and the
    handle is unchanged or null afterwards. *)
Theorem stop_channel_touches_only_the_handle (w : world) :
  let w1 := stop_channel w in
  triggered w1 = triggered w /\ timers w1 = timers w /\ next_timer w1 = next_timer w
  /\ console w1 = console w /\ sent w1 = sent w /\ uuids w1 = uuids w
  /\ activations w1 = activations w /\ entered w1 = entered w /\ inbound w1 = inbound w
  /\ same_fields (this w) (this w1)
  /\ length (sockets w1) = length (sockets w)
  /\ (forall k, ws (this w) <> Some k -> sockets w1 !! k = sockets w !! k)
  /\ (ws (this w1) = ws (this w) \/ ws (this w1) = None).
Proof. exact (stop_channel_frame w). Qed.

Lemma stop_channel_touches_only_the_handle_witness :
  let w := run utils_reject (fun _ => None)
             [call_start_channel; call_start_channel; ev_open 1]
             (new_Remote "ws://host" "" "" "" "s1") in
  sockets (stop_channel w) !! 0 = sockets w !! 0.
Proof.
  pose proof (stop_channel_touches_only_the_handle
                (run utils_reject (fun _ => None)
                   [call_start_channel; call_start_channel; ev_open 1]
                   (new_Remote "ws://host" "" "" "" "s1"))) as H.
  cbv zeta in H. destruct H as (_ & _ & _ & _ & _ & _ & _ & _ & _ & _ & _ & H & _).
  apply (H 0). vm_compute. discriminate.
Defined.

(** X1.  Whatever the state, [start_channel] creates one new socket at
    [master_url + "/api/sessions/" + session_id + "/ws"], still connecting,
    with the early-close and error handlers of a new activation whose guard
    is unset, makes it the handle, and arms one timer of 1000 ms for the
    switch to the late handler.  It publishes and sends nothing and leaves
    the attempt counter; right after it [is_connected] and
    [is_fully_disconnected] are both false. *)
Theorem start_channel_fresh_transport (w : world) :
  let w1 := start_channel w in
  let j := length (sockets w) in
  let g := length (activations w) in
  let u := master_url (this w) +:+ "/api/sessions/" +:+ session_id (this w) +:+ "/ws" in
  ws (this w1) = Some j
  /\ sockets w1 !! j = Some {| url := u; readyState := CONNECTING;
                               onclose := ws_closed_early g; onerror := g |}
  /\ length (sockets w1) = S j
  /\ activations w1 !! g = Some {| already_called_onclose := false; ws_host_url := u |}
  /\ timers w1 = timers w ++ [{| timer_id := next_timer w; delay_ms := 1000;
                                 callback := grace_switch g |}]
  /\ triggered w1 = triggered w
  /\ sent w1 = sent w
  /\ _reconnect_attempt (this w1) = _reconnect_attempt (this w)
  /\ is_connected w1 = false /\ is_fully_disconnected w1 = false.
Proof.
  pose proof (start_channel_shape w) as H. cbv zeta in H.
  destruct H as (Hws & Hso & Ha & Htm & _ & Ht & _ & Hsn & _ & _ & _ & (_ & _ & _ & _ & Hr & _)).
  pose proof (stop_channel_lengths w) as Hlen.
  cbv zeta. unfold is_connected, is_fully_disconnected, current_socket.
  rewrite Hws, Hso, Ha, Htm, Ht, Hsn, Hr.
  rewrite list_lookup_middle by (symmetry; exact Hlen).
  rewrite list_lookup_middle by reflexivity.
  rewrite length_app, Hlen. simpl. repeat split; try reflexivity; try lia.
Qed.

Lemma spares_refl w : spares w w.
Proof. unfold spares. repeat split; eauto. Qed.

Lemma spares_trans w1 w2 w3 : spares w1 w2 -> spares w2 w3 -> spares w1 w3.
Proof.
  intros (L1 & H1 & S1) (L2 & H2 & S2). unfold spares. split; [lia|]. split.
  - destruct H2 as [E|[E|(n & E & Hn)]].
    + rewrite E. destruct H1 as [E1|[E1|(n & E1 & Hn)]]; eauto.
    + auto.
    + right. right. exists n. split; [exact E|lia].
  - intros k s Hk Hne. destruct (S1 k s Hk Hne) as (s2 & Hk2 & Ho2).
    assert (ws (this w2) <> Some k) as Hne2.
    { destruct H1 as [E1|[E1|(n & E1 & Hn)]]; rewrite E1; try congruence.
      apply lookup_lt_Some in Hk. intros [= ->]. lia. }
    destruct (S2 k s2 Hk2 Hne2) as (s3 & Hk3 & Ho3).
    exists s3. split; [exact Hk3|]. congruence.
Qed.

Lemma spares_fields w w' :
  ws (this w') = ws (this w) -> sockets w' = sockets w -> spares w w'.
Proof. intros H1 H2. unfold spares. rewrite H1, H2. repeat split; eauto. Qed.

Lemma spares_listeners n w : spares w (listeners n w).
Proof. unfold listeners. destruct n; apply spares_fields; reflexivity. Qed.

Lemma spares_trigger n w : spares w (trigger n w).
Proof.
  unfold trigger. eapply spares_trans; [|apply spares_listeners].
  apply spares_fields; reflexivity.
Qed.

Lemma spares_insert_current w i s s' :
  current_socket w = Some (i, s) ->
  spares w (set_sockets (<[i := s']> (sockets w)) w).
Proof.
  intros Hc. destruct (current_socket_lookup _ _ _ Hc) as [Hh Hs].
  unfold spares. cbn. rewrite length_insert. repeat split; auto.
  intros k sk Hk Hne. exists sk. rewrite list_lookup_insert_ne by congruence. auto.
Qed.

Lemma spares_mark st i s w : sockets w !! i = Some s -> spares w (mark st i s w).
Proof.
  intros Hs. unfold spares, mark. cbn. rewrite length_insert. repeat split; auto.
  intros k sk Hk _. destruct (decide (i = k)) as [E|Hne].
  - subst k. rewrite Hs in Hk. injection Hk as <-.
    rewrite list_lookup_insert_eq by (eapply lookup_lt_Some; eauto).
    exists (with_readyState st s). split; reflexivity.
  - exists sk. rewrite list_lookup_insert_ne by exact Hne. auto.
Qed.

Lemma spares_stop_channel_close w : spares w (stop_channel_close w).
Proof.
  unfold stop_channel_close. destruct (current_socket w) as [[i s]|]; [|apply spares_refl].
  destruct (ready_state_eqb _ _); [|apply spares_refl].
  unfold spares. cbn. repeat split; eauto.
Qed.

Lemma spares_stop_channel w : spares w (stop_channel w).
Proof.
  unfold stop_channel. destruct (current_socket w) as [[i s]|] eqn:Hc; [|apply spares_refl].
  destruct (ready_state_eqb _ _); [|apply spares_stop_channel_close].
  apply spares_insert_current with (s := s). exact Hc.
Qed.

Lemma spares_grace_switch g w : spares w (run_grace_switch g w).
Proof.
  unfold run_grace_switch. destruct (current_socket w) as [[i s]|] eqn:Hc; [|apply spares_refl].
  apply spares_insert_current with (s := s). exact Hc.
Qed.

Lemma spares_schedule_reconnect w : spares w (_schedule_reconnect w).
Proof.
  unfold _schedule_reconnect. destruct (_ <? _)%Z.
  - apply spares_fields; reflexivity.
  - eapply spares_trans; [apply spares_trigger|]. apply spares_fields; reflexivity.
Qed.

Lemma spares_ws_closed u e w : spares w (_ws_closed u e w).
Proof.
  unfold _ws_closed.
  eapply spares_trans; [|apply spares_schedule_reconnect].
  apply spares_trans with (w2 := trigger remote_disconnected (stop_channel w)).
  - eapply spares_trans; [apply spares_stop_channel | apply spares_trigger].
  - destruct e; [|apply spares_refl].
    eapply spares_trans; [|apply spares_trigger]. apply spares_fields; reflexivity.
Qed.

Lemma spares_enter_once g path w a w' : enter_once g path w = Some (a, w') -> spares w w'.
Proof.
  unfold enter_once. intros H. repeat case_match; simplify_eq.
  apply spares_fields; reflexivity.
Qed.

Lemma spares_send_input_reply input w : spares w (snd (send_input_reply input w)).
Proof.
  unfold send_input_reply. destruct (negb (is_connected w)); [apply spares_refl|].
  unfold _get_msg, utils_uuid. cbn [fst snd].
  apply spares_trans with (w2 := trigger (input_reply (JObj [("value", input)])) w);
    [apply spares_trigger|].
  remember (trigger (input_reply (JObj [("value", input)])) w) as w1 eqn:Hw1. clear Hw1.
  cbn. destruct (ws (this w1)); apply spares_fields; reflexivity.
Qed.

Lemma spares_start_channel w : spares w (start_channel w).
Proof.
  pose proof (start_channel_shape w) as H. cbv zeta in H.
  destruct H as (Hws & Hso & _).
  pose proof (stop_channel_lengths w) as Hlen.
  destruct (spares_stop_channel w) as (_ & _ & S0).
  unfold spares. rewrite Hws, Hso, length_app, Hlen. split; [lia|]. split.
  - right. right. exists (length (sockets w)). split; [reflexivity|lia].
  - intros k s Hk Hne. destruct (S0 k s Hk Hne) as (s' & Hk' & Ho).
    exists s'. split; [|exact Ho]. apply lookup_app_l_Some. exact Hk'.
Qed.

Lemma spares_step policy l w e : spares w (step policy l w e).
Proof.
  destruct e; cbn [step].
  - unfold deliver_open. destruct (sockets w !! sid) as [s|] eqn:Hs; [|apply spares_refl].
    eapply spares_trans; [apply spares_mark; exact Hs|].
    unfold _ws_opened, _remote_connected.
    destruct (is_connected _); [apply spares_trigger|apply spares_refl].
  - unfold deliver_close. destruct (sockets w !! sid) as [s|] eqn:Hs; [|apply spares_refl].
    eapply spares_trans; [apply spares_mark; exact Hs|].
    destruct (onclose s); cbn [run_close_handler].
    + unfold run_ws_closed. destruct (enter_once _ _ _) as [[a w1]|] eqn:E; [|apply spares_refl].
      apply spares_enter_once in E. destruct (negb wasClean); [|exact E].
      eapply spares_trans; [exact E | apply spares_ws_closed].
    + unfold run_ws_closed. destruct (enter_once _ _ _) as [[a w1]|] eqn:E; [|apply spares_refl].
      apply spares_enter_once in E. destruct (negb wasClean); [|exact E].
      eapply spares_trans; [exact E | apply spares_ws_closed].
    + apply spares_stop_channel_close.
  - unfold deliver_error. destruct (sockets w !! sid) as [s|] eqn:Hs; [|apply spares_refl].
    eapply spares_trans; [apply spares_mark; exact Hs|].
    unfold run_ws_error. destruct (enter_once _ _ _) as [[a w1]|] eqn:E; [|apply spares_refl].
    apply spares_enter_once in E.
    eapply spares_trans; [exact E | apply spares_ws_closed].
  - apply spares_fields; reflexivity.
  - unfold fire_timer. destruct (find _ _) as [t|]; [|apply spares_refl].
    set (w0 := set_timers _ w).
    apply spares_trans with (w2 := w0); [apply spares_fields; reflexivity|].
    destruct (callback t); cbn [run_timer]; [apply spares_grace_switch|apply spares_refl].
  - apply spares_fields; reflexivity.
  - destruct n; try apply spares_listeners. apply spares_send_input_reply.
  - apply spares_start_channel.
  - apply spares_stop_channel.
  - apply spares_send_input_reply.
Qed.

Lemma spares_run policy l evs : forall w, spares w (run policy l evs w).
Proof.
  induction evs as [|e evs IH]; intros w; [apply spares_refl|].
  eapply spares_trans; [apply (spares_step policy l w e)|]. apply IH.
Qed.

(** X3.  When [start_channel] is called while the current transport is open,
    that transport is put to [CLOSING] with the local [close] of
    [stop_channel] as its [onclose], and the handle moves to the new socket
    and never comes back to the old one.  Whatever tasks run in between, the
    close event of the old transport, clean or not, publishes nothing, arms
    no timer and leaves [is_connected] as it is: it runs [close], which
    tests [this.ws], so the current handle is kept unless the transport it
    refers to is itself closed by then, in which case it is cleared. *)
Theorem restart_retires_open_transport policy l (w : world) (i : nat) (s : WebSocket)
    (evs : list event) (wasClean : bool) :
  current_socket w = Some (i, s) -> readyState s = OPEN ->
  let w1 := start_channel w in
  let w2 := run policy l evs w1 in
  let w3 := deliver_close i wasClean w2 in
  sockets w1 !! i = Some (closing s)
  /\ ws (this w1) = Some (length (sockets w))
  /\ ws (this w2) <> Some i
  /\ (exists s2, sockets w2 !! i = Some s2 /\ onclose s2 = stop_close
                 /\ w3 = stop_channel_close (mark CLOSED i s2 w2))
  /\ triggered w3 = triggered w2 /\ timers w3 = timers w2
  /\ is_connected w3 = is_connected w2
  /\ match current_socket w2 with
     | Some (j, sj) =>
         ws (this w3) = if ready_state_eqb (readyState sj) CLOSED then None else Some j
     | None => ws (this w3) = ws (this w2)
     end.
Proof.
  intros Hcur Hopen.
  pose proof (start_channel_shape w) as H. cbv zeta in H.
  destruct H as (Hws & Hso & _).
  pose proof (stop_channel_lengths w) as Hlen.
  pose proof (stop_channel_cases w) as Hst. rewrite Hcur, Hopen in Hst.
  destruct (current_socket_lookup _ _ _ Hcur) as [Hh Hs].
  pose proof (lookup_lt_Some _ _ _ Hs) as Hlt.
  cbv zeta.
  assert (sockets (start_channel w) !! i = Some (closing s)) as Hi.
  { rewrite Hso, Hst. cbn. rewrite lookup_app_l by (rewrite length_insert; lia).
    apply list_lookup_insert_eq. lia. }
  assert (length (sockets (start_channel w)) = S (length (sockets w))) as Hl1
    by (rewrite Hso, length_app, Hlen; simpl; lia).
  destruct (spares_run policy l evs (start_channel w)) as (L & Hh2 & S2).
  remember (start_channel w) as w1 eqn:E1. clear E1.
  remember (run policy l evs w1) as w2 eqn:E2. clear E2.
  assert (ws (this w1) <> Some i) as Hne1 by (rewrite Hws; intros [= E]; lia).
  assert (ws (this w2) <> Some i) as Hne2.
  { destruct Hh2 as [E|[E|(n & E & Hn)]]; rewrite E; try congruence. intros [= E']. lia. }
  destruct (S2 i (closing s) Hi Hne1) as (s2 & Hs2 & Ho2). cbn in Ho2.
  assert (deliver_close i wasClean w2 = stop_channel_close (mark CLOSED i s2 w2)) as Hd
    by (unfold deliver_close; rewrite Hs2, Ho2; reflexivity).
  assert (current_socket (mark CLOSED i s2 w2) = current_socket w2) as Hc2.
  { unfold current_socket, mark. cbn. destruct (ws (this w2)) as [j|]; [|reflexivity].
    rewrite list_lookup_insert_ne by congruence. reflexivity. }
  split; [exact Hi|]. split; [exact Hws|]. split; [exact Hne2|].
  split; [exists s2; auto|].
  assert (is_connected (mark CLOSED i s2 w2) = is_connected w2) as Hic
    by (unfold is_connected; rewrite Hc2; reflexivity).
  rewrite Hd. clear Hd. unfold stop_channel_close. rewrite Hc2.
  destruct (current_socket w2) as [[j sj]|] eqn:Hcj.
  - destruct (current_socket_lookup _ _ _ Hcj) as [Hhj Hsj].
    destruct (ready_state_eqb (readyState sj) CLOSED) eqn:Hr.
    + repeat split; try reflexivity.
      unfold is_connected at 2. rewrite Hcj.
      destruct (readyState sj); try discriminate. reflexivity.
    + repeat split; try reflexivity; [exact Hic | exact Hhj].
  - repeat split; try reflexivity. exact Hic.
Qed.

Lemma restart_retires_open_transport_witness :
  let w2 := run utils_reject (fun _ => None) [ev_open 1; ev_timer 0; ev_timer 1]
              (start_channel open_world) in
  triggered (deliver_close 0 true w2) = triggered w2
  /\ is_connected (deliver_close 0 true w2) = true.
Proof.
  pose proof (restart_retires_open_transport utils_reject (fun _ => None) open_world 0
                {| url := "ws://host/api/sessions/s1/ws"; readyState := OPEN;
                   onclose := ws_closed_early 0; onerror := 0 |}
                [ev_open 1; ev_timer 0; ev_timer 1] true
                ltac:(reflexivity) ltac:(reflexivity)) as (_ & _ & _ & _ & H1 & _ & H2 & _).
  split; [exact H1 | exact H2].
Defined.

Lemma ws_closed_effects (u : string) (error : bool) (w : world) :
  let a := _reconnect_attempt (this w) in
  let limit := reconnect_limit (this w) in
  let w1 := _ws_closed u error w in
  triggered w1 = triggered w ++ remote_disconnected :: loss_notifications u error a limit
  /\ timers w1 = timers w ++ reconnect_timers (next_timer w) a limit
  /\ sockets w1 = sockets (stop_channel w)
  /\ this w1 = this (stop_channel w)
  /\ activations w1 = activations w /\ entered w1 = entered w
  /\ sent w1 = sent w /\ inbound w1 = inbound w.
Proof.
  pose proof (stop_channel_frame w) as H. cbv zeta in H.
  destruct H as (Ht & Htm & Hnt & Hc & Hsn & Hu & Ha & He & Hi & (Hm & Hun & Hs & Har & Hr & Hl) & _).
  cbv zeta. unfold _ws_closed, _schedule_reconnect, loss_notifications, reconnect_timers.
  remember (stop_channel w) as w0 eqn:Hw0. clear Hw0.
  rewrite <- Hr, <- Hl, <- Ht, <- Htm, <- Hnt, <- Ha, <- He, <- Hsn, <- Hi.
  destruct error; simpl; destruct (_ <? _)%Z; simpl;
    rewrite <- ?app_assoc, ?app_nil_r; simpl; repeat split; reflexivity.
Qed.

(** X5.  [_ws_closed(url, error)] publishes [remote_disconnected], then
    [remote_connection_failed] with [url] and the current attempt count when
    [error] is true, then [remote_connection_dead] when the attempt count has
    reached the limit; below the limit it arms the reconnect timer of
    [1000 * 2^attempt] ms instead.  It leaves the attempt count, sends
    nothing, and [is_connected] is false afterwards. *)
Theorem ws_closed_publishes_in_order (u : string) (error : bool) (w : world) :
  let a := _reconnect_attempt (this w) in
  let limit := reconnect_limit (this w) in
  let w1 := _ws_closed u error w in
  triggered w1 = triggered w ++ remote_disconnected :: loss_notifications u error a limit
  /\ timers w1 = timers w ++ reconnect_timers (next_timer w) a limit
  /\ _reconnect_attempt (this w1) = a
  /\ is_connected w1 = false
  /\ sent w1 = sent w.
Proof.
  pose proof (ws_closed_effects u error w) as H. cbv zeta in H.
  destruct H as (Ht & Htm & Hso & Hth & _ & _ & Hsn & _).
  cbv zeta. rewrite Ht, Htm, Hsn. repeat split; try reflexivity.
  - rewrite Hth. apply attempt_stop_channel.
  - unfold is_connected, current_socket. rewrite Hth, Hso.
    pose proof (stop_channel_cases w) as Hc. unfold current_socket in *.
    destruct (ws (this w)) as [i|] eqn:Hws; [destruct (sockets w !! i) as [s|] eqn:Hs|].
    + destruct (readyState s) eqn:Hrs; rewrite Hc; simpl; rewrite ?Hws, ?Hs, ?Hrs; try reflexivity.
      rewrite list_lookup_insert_eq by (eapply lookup_lt_Some; eauto). reflexivity.
    + rewrite Hc, Hws, Hs. reflexivity.
    + rewrite Hc, Hws. reflexivity.
Qed.

Lemma is_connected_stop_channel w : is_connected (stop_channel w) = false.
Proof.
  unfold is_connected.
  pose proof (stop_channel_cases w) as Hc. unfold current_socket in *.
  destruct (ws (this w)) as [i|] eqn:Hws; [destruct (sockets w !! i) as [s|] eqn:Hs|].
  - destruct (readyState s) eqn:Hrs; rewrite Hc; simpl; rewrite ?Hws, ?Hs, ?Hrs; try reflexivity.
    rewrite list_lookup_insert_eq by (eapply lookup_lt_Some; eauto). reflexivity.
  - rewrite Hc, Hws, Hs. reflexivity.
  - rewrite Hc, Hws. reflexivity.
Qed.

Lemma is_connected_ws_closed u e w : is_connected (_ws_closed u e w) = false.
Proof.
  pose proof (ws_closed_effects u e w) as H. cbv zeta in H.
  destruct H as (_ & _ & Hso & Hth & _).
  pose proof (is_connected_stop_channel w) as Hc.
  unfold is_connected, current_socket in *. rewrite Hth, Hso. exact Hc.
Qed.

Lemma is_connected_start_channel w : is_connected (start_channel w) = false.
Proof.
  pose proof (start_channel_shape w) as H. cbv zeta in H.
  destruct H as (Hws & Hso & _).
  unfold is_connected, current_socket. rewrite Hws, Hso.
  rewrite list_lookup_middle by (symmetry; apply stop_channel_lengths). reflexivity.
Qed.

(** X11.  Right after [stop_channel], after [start_channel] and after
    [_ws_closed], whatever the state before, [send_input_reply] throws
    ["remote is not connected"] and changes nothing. *)
Theorem send_input_reply_after_teardown (w : world) (input : json) :
  send_input_reply input (stop_channel w) = (inl "remote is not connected", stop_channel w)
  /\ send_input_reply input (start_channel w) = (inl "remote is not connected", start_channel w)
  /\ forall u e, send_input_reply input (_ws_closed u e w)
                 = (inl "remote is not connected", _ws_closed u e w).
Proof.
  unfold send_input_reply.
  rewrite is_connected_stop_channel, is_connected_start_channel.
  repeat split. intros u e. rewrite is_connected_ws_closed. reflexivity.
Qed.

(** X9.  When the transport the handle refers to opens, [_ws_opened]
    publishes [remote_connected]; the listener of [bind_events] logs it and
    resets the reconnect attempt counter to 0; [is_connected] is true
    afterwards, and no timer is touched. *)
Theorem open_announces_and_resets (w : world) (sid : nat) (s : WebSocket) :
  sockets w !! sid = Some s -> ws (this w) = Some sid ->
  let w1 := deliver_open sid w in
  triggered w1 = triggered w ++ [remote_connected]
  /\ console w1 = console w ++ [log_status remote_connected]
  /\ _reconnect_attempt (this w1) = 0%Z
  /\ is_connected w1 = true
  /\ ws (this w1) = Some sid
  /\ timers w1 = timers w /\ sent w1 = sent w.
Proof.
  intros Hs Hws. cbv zeta. unfold deliver_open. rewrite Hs.
  unfold _ws_opened, is_connected, current_socket, mark. simpl. rewrite Hws.
  rewrite list_lookup_insert_eq by (eapply lookup_lt_Some; eauto). simpl.
  rewrite Hws. rewrite list_lookup_insert_eq by (eapply lookup_lt_Some; eauto).
  repeat split; reflexivity.
Qed.

Lemma open_announces_and_resets_witness :
  let w := start_channel (new_Remote "ws://host" "" "" "" "s1") in
  triggered (deliver_open 0 w) = [remote_connected]
  /\ is_connected (deliver_open 0 w) = true.
Proof.
  pose proof (open_announces_and_resets
                (start_channel (new_Remote "ws://host" "" "" "" "s1")) 0
                {| url := "ws://host/api/sessions/s1/ws"; readyState := CONNECTING;
                   onclose := ws_closed_early 0; onerror := 0 |}
                ltac:(reflexivity) ltac:(reflexivity)) as (H1 & _ & _ & H2 & _).
  split; [exact H1 | exact H2].
Defined.

(** X10.  [_ws_opened] tests the handle, not the socket that opened: when a
    socket other than the current one opens, [remote_connected] is published
    (and the attempt counter reset) exactly when the current transport is
    open at that moment; otherwise nothing is published.  The handle and
    [is_connected] stay as they are. *)
Theorem open_of_stale_transport (w : world) (sid : nat) (s : WebSocket) :
  sockets w !! sid = Some s -> ws (this w) <> Some sid ->
  let w1 := deliver_open sid w in
  sockets w1 = <[sid := with_readyState OPEN s]> (sockets w)
  /\ triggered w1 = triggered w ++ (if is_connected w then [remote_connected] else [])
  /\ _reconnect_attempt (this w1)
     = (if is_connected w then 0%Z else _reconnect_attempt (this w))
  /\ is_connected w1 = is_connected w
  /\ ws (this w1) = ws (this w).
Proof.
  intros Hs Hws. cbv zeta. unfold deliver_open. rewrite Hs.
  assert (is_connected (mark OPEN sid s w) = is_connected w) as Hc.
  { unfold is_connected, current_socket, mark. simpl.
    destruct (ws (this w)) as [i|]; [|reflexivity].
    rewrite list_lookup_insert_ne by congruence. reflexivity. }
  unfold _ws_opened. rewrite Hc.
  destruct (is_connected w) eqn:Hcon.
  - unfold is_connected, current_socket, _remote_connected, trigger, listeners, mark in *.
    simpl in *. destruct (ws (this w)) as [i|]; [|discriminate].
    rewrite list_lookup_insert_ne in Hc by congruence.
    rewrite list_lookup_insert_ne by congruence.
    rewrite Hcon. repeat split; reflexivity.
  - simpl. rewrite app_nil_r. repeat split; try reflexivity. exact Hc.
Qed.

Lemma open_of_stale_transport_witness :
  let w := run utils_reject (fun _ => None)
             [call_start_channel; call_start_channel; ev_open 1]
             (new_Remote "ws://host" "" "" "" "s1") in
  triggered (deliver_open 0 w) = [remote_connected; remote_connected]
  /\ is_connected (deliver_open 0 w) = true.
Proof.
  pose proof (open_of_stale_transport
                (run utils_reject (fun _ => None)
                   [call_start_channel; call_start_channel; ev_open 1]
                   (new_Remote "ws://host" "" "" "" "s1")) 0
                {| url := "ws://host/api/sessions/s1/ws"; readyState := CONNECTING;
                   onclose := ws_closed_early 0; onerror := 0 |}
                ltac:(reflexivity) ltac:(discriminate)) as (_ & H1 & _ & H2 & _).
  split; [exact H1 | exact H2].
Defined.

(** X4.  [stop_channel] closes only an open socket: when [start_channel] is
    called while the current transport is still connecting (or already
    closing), that socket is left exactly as it was, handlers included,
    while the handle moves to the new socket. *)
Theorem restart_abandons_connecting_transport (w : world) (i : nat) (s : WebSocket) :
  current_socket w = Some (i, s) ->
  readyState s = CONNECTING \/ readyState s = CLOSING ->
  let w1 := start_channel w in
  sockets w1 !! i = Some s
  /\ ws (this w1) = Some (length (sockets w))
  /\ i < length (sockets w)
  /\ length (sockets w1) = S (length (sockets w)).
Proof.
  intros Hcur Hrs.
  pose proof (start_channel_shape w) as H. cbv zeta in H.
  destruct H as (Hws & Hso & _).
  pose proof (stop_channel_cases w) as Hst. rewrite Hcur in Hst.
  destruct (current_socket_lookup _ _ _ Hcur) as [Hh Hs].
  pose proof (lookup_lt_Some _ _ _ Hs) as Hlt.
  assert (stop_channel w = w) as Hid by (destruct Hrs as [Hr|Hr]; rewrite Hr in Hst; exact Hst).
  cbv zeta. rewrite Hws, Hso, Hid. rewrite lookup_app_l by exact Hlt.
  rewrite length_app. simpl. repeat split; auto. lia.
Qed.

Lemma restart_abandons_connecting_transport_witness :
  let w := start_channel (new_Remote "ws://host" "" "" "" "s1") in
  sockets (start_channel w) !! 0
  = Some {| url := "ws://host/api/sessions/s1/ws"; readyState := CONNECTING;
            onclose := ws_closed_early 0; onerror := 0 |}
  /\ ws (this (start_channel w)) = Some 1.
Proof.
  pose proof (restart_abandons_connecting_transport
                (start_channel (new_Remote "ws://host" "" "" "" "s1")) 0
                {| url := "ws://host/api/sessions/s1/ws"; readyState := CONNECTING;
                   onclose := ws_closed_early 0; onerror := 0 |}
                ltac:(reflexivity) ltac:(left; reflexivity)) as (H1 & H2 & _).
  split; [exact H1 | exact H2].
Defined.

(** X7.  The guarded handlers act on the handle, not on the socket their
    event came from: an error on a socket that is not the current one, whose
    activation has its guard unset, closes the open current transport
    ([stop_channel]), so [is_connected] turns false, and publishes
    [remote_disconnected] and [remote_connection_failed] and schedules a
    reconnect as for a loss of the current transport. *)
Theorem error_elsewhere_closes_current (w : world) (k i : nat) (sk s : WebSocket) (a : activation) :
  sockets w !! k = Some sk ->
  activations w !! onerror sk = Some a -> already_called_onclose a = false ->
  current_socket w = Some (i, s) -> i <> k -> readyState s = OPEN ->
  let w1 := deliver_error k w in
  sockets w1 !! i = Some (closing s)
  /\ is_connected w = true /\ is_connected w1 = false
  /\ triggered w1
     = triggered w ++ remote_disconnected
         :: loss_notifications (ws_host_url a) true
              (_reconnect_attempt (this w)) (reconnect_limit (this w))
  /\ timers w1
     = timers w ++ reconnect_timers (next_timer w)
                     (_reconnect_attempt (this w)) (reconnect_limit (this w)).
Proof.
  intros Hk Ha Hg Hcur Hik Hopen.
  destruct (current_socket_lookup _ _ _ Hcur) as [Hh Hs].
  cbv zeta. unfold deliver_error. rewrite Hk.
  unfold run_ws_error, enter_once, mark. simpl. rewrite Ha, Hg.
  match goal with |- context [_ws_closed ?u ?e ?w0] => set (w2 := w0) end.
  assert (current_socket w2 = Some (i, s)) as Hcur2.
  { unfold current_socket, w2. simpl. rewrite Hh.
    rewrite list_lookup_insert_ne by congruence. rewrite Hs. reflexivity. }
  pose proof (ws_closed_effects (ws_host_url a) true w2) as H. cbv zeta in H.
  destruct H as (Ht & Htm & Hso & _).
  pose proof (stop_channel_cases w2) as Hst. rewrite Hcur2, Hopen in Hst.
  rewrite Ht, Htm, Hso, Hst, is_connected_ws_closed. simpl.
  rewrite list_lookup_insert_eq
    by (rewrite length_insert; eapply lookup_lt_Some; eauto).
  unfold is_connected. rewrite Hcur, Hopen. repeat split; reflexivity.
Qed.

Lemma error_elsewhere_closes_current_witness :
  let w := run utils_reject (fun _ => None)
             [call_start_channel; call_start_channel; ev_open 1]
             (new_Remote "ws://host" "" "" "" "s1") in
  is_connected w = true /\ is_connected (deliver_error 0 w) = false.
Proof.
  pose proof (error_elsewhere_closes_current
                (run utils_reject (fun _ => None)
                   [call_start_channel; call_start_channel; ev_open 1]
                   (new_Remote "ws://host" "" "" "" "s1")) 0 1
                {| url := "ws://host/api/sessions/s1/ws"; readyState := CONNECTING;
                   onclose := ws_closed_early 0; onerror := 0 |}
                {| url := "ws://host/api/sessions/s1/ws"; readyState := OPEN;
                   onclose := ws_closed_early 1; onerror := 1 |}
                {| already_called_onclose := false;
                   ws_host_url := "ws://host/api/sessions/s1/ws" |}
                ltac:(reflexivity) ltac:(reflexivity) ltac:(reflexivity)
                ltac:(reflexivity) ltac:(lia) ltac:(reflexivity)) as (_ & H1 & H2 & _).
  split; [exact H1 | exact H2].
Defined.

(** X8.  When the one-second timer fires after [stop_channel] on an open
    transport and before its close event, it replaces the [close] handler
    that [stop_channel] installed by the late handler.  A clean close then
    sets the guard only: the handle is not cleared
    ([is_fully_disconnected] stays false, nothing is published) until
    [stop_channel] is called again.  An unclean close is handled as a loss:
    the handle is cleared, [remote_disconnected] is published and a
    reconnect is scheduled. *)
Theorem grace_timer_undoes_stop (w : world) (i g : nat) (s : WebSocket) (a : activation) :
  current_socket w = Some (i, s) -> readyState s = OPEN ->
  activations w !! g = Some a -> already_called_onclose a = false ->
  let w1 := run_grace_switch g (stop_channel w) in
  sockets w1 !! i = Some (with_onclose (ws_closed_late g) (closing s))
  /\ (let w2 := deliver_close i true w1 in
      ws (this w2) = Some i /\ is_fully_disconnected w2 = false
      /\ triggered w2 = triggered w /\ timers w2 = timers w
      /\ is_fully_disconnected (stop_channel w2) = true)
  /\ (let w3 := deliver_close i false w1 in
      ws (this w3) = None
      /\ triggered w3
         = triggered w ++ remote_disconnected
             :: loss_notifications (ws_host_url a) false
                  (_reconnect_attempt (this w)) (reconnect_limit (this w))
      /\ timers w3
         = timers w ++ reconnect_timers (next_timer w)
                         (_reconnect_attempt (this w)) (reconnect_limit (this w))).
Proof.
  intros Hcur Hopen Ha Hg.
  destruct (current_socket_lookup _ _ _ Hcur) as [Hh Hs].
  pose proof (lookup_lt_Some _ _ _ Hs) as Hlt.
  pose proof (stop_channel_cases w) as Hst. rewrite Hcur, Hopen in Hst.
  assert (run_grace_switch g (stop_channel w)
          = set_sockets (<[i := with_onclose (ws_closed_late g) (closing s)]> (sockets w)) w) as Hw1.
  { rewrite Hst. unfold run_grace_switch, current_socket. cbn [this set_sockets sockets].
    rewrite Hh, list_lookup_insert_eq by exact Hlt.
    unfold set_sockets. cbn. rewrite list_insert_insert_eq. reflexivity. }
  cbv zeta. rewrite Hw1. clear Hw1.
  split; [apply list_lookup_insert_eq; exact Hlt|].
  remember (set_sockets (<[i := with_onclose (ws_closed_late g) (closing s)]> (sockets w)) w)
    as w1 eqn:Hw1.
  assert (forall wasClean,
            deliver_close i wasClean w1
            = let w0 := set_entered (entered w ++ [(g, late_path)])
                          (set_activations
                             (<[g := {| already_called_onclose := true;
                                        ws_host_url := ws_host_url a |}]> (activations w))
                             (set_sockets
                                (<[i := with_readyState CLOSED
                                          (with_onclose (ws_closed_late g) (closing s))]>
                                   (sockets w)) w)) in
              if wasClean then w0 else _ws_closed (ws_host_url a) false w0) as Hd.
  { intros wasClean. subst w1. unfold deliver_close. cbn [sockets set_sockets].
    rewrite list_lookup_insert_eq by exact Hlt.
    cbn [with_onclose onclose run_close_handler].
    unfold run_ws_closed, enter_once, mark. cbn [activations set_sockets sockets].
    rewrite Ha, Hg, list_insert_insert_eq. destruct wasClean; reflexivity. }
  rewrite !Hd. cbv zeta. cbn [negb]. clear Hd. split.
  - cbn. rewrite Hh. repeat split; try reflexivity;
      unfold is_fully_disconnected, stop_channel, stop_channel_close, current_socket; cbn;
      rewrite Hh; rewrite ?list_lookup_insert_eq by exact Hlt; reflexivity.
  - match goal with |- context [_ws_closed ?u ?e ?w0] => set (w2 := w0) end.
    pose proof (ws_closed_effects (ws_host_url a) false w2) as H. cbv zeta in H.
    destruct H as (Ht & Htm & _ & Hth & _).
    rewrite Ht, Htm, Hth. repeat split; try reflexivity.
    unfold stop_channel, stop_channel_close, current_socket, w2. cbn.
    rewrite Hh. rewrite list_lookup_insert_eq by exact Hlt. reflexivity.
Qed.

Lemma grace_timer_undoes_stop_witness :
  let w1 := run_grace_switch 0 (stop_channel open_world) in
  is_fully_disconnected (deliver_close 0 true w1) = false
  /\ ws (this (deliver_close 0 false w1)) = None.
Proof.
  pose proof (grace_timer_undoes_stop open_world 0 0
                {| url := "ws://host/api/sessions/s1/ws"; readyState := OPEN;
                   onclose := ws_closed_early 0; onerror := 0 |}
                {| already_called_onclose := false;
                   ws_host_url := "ws://host/api/sessions/s1/ws" |}
                ltac:(reflexivity) ltac:(reflexivity) ltac:(reflexivity) ltac:(reflexivity))
    as (_ & (_ & H1 & _) & (H2 & _)).
  split; [exact H1 | exact H2].
Defined.

Lemma keeps_refl u w : keeps u w w.
Proof.
  unfold keeps. repeat split; auto. exists []. rewrite app_nil_r. auto.
Qed.

Lemma keeps_trans u w1 w2 w3 : keeps u w1 w2 -> keeps u w2 w3 -> keeps u w1 w3.
Proof.
  intros (Hm & Hs & Hu & Ha & Hw & Hso & Hac & x & Hx & Fx)
         (Hm' & Hs' & Hu' & Ha' & Hw' & Hso' & Hac' & y & Hy & Fy).
  unfold keeps. rewrite Hm', Hs', Hu', Hso', Hac'. repeat split; auto.
  - destruct Ha' as [->| ->]; auto.
  - destruct Hw' as [->| ->]; auto.
  - exists (x ++ y). rewrite Hy, Hx, app_assoc. split; [reflexivity|].
    apply Forall_app; auto.
Qed.

Lemma socket_ids_insert l i s s' :
  l !! i = Some s -> url s' = url s -> onerror s' = onerror s ->
  socket_ids (<[i := s']> l) = socket_ids l.
Proof.
  intros Hl Hu He. unfold socket_ids.
  rewrite list_fmap_insert. apply list_insert_id.
  rewrite list_lookup_fmap, Hl. simpl. rewrite Hu, He. reflexivity.
Qed.

Lemma keeps_fields u w w' :
  this w' = this w -> sockets w' = sockets w -> activations w' = activations w ->
  triggered w' = triggered w -> keeps u w w'.
Proof.
  intros H1 H2 H3 H4. unfold keeps. rewrite H1, H2, H3, H4. repeat split; auto.
  exists []. rewrite app_nil_r. auto.
Qed.

Lemma keeps_console_log u e w : keeps u w (console_log e w).
Proof. apply keeps_fields; reflexivity. Qed.

Lemma keeps_setTimeout u cb d w : keeps u w (setTimeout cb d w).
Proof. apply keeps_fields; reflexivity. Qed.

Lemma keeps_listeners u n w : keeps u w (listeners n w).
Proof.
  unfold keeps, listeners.
  destruct n; simpl; repeat split; auto; exists []; rewrite app_nil_r; auto.
Qed.

Lemma keeps_trigger u n w : failed_at u n -> keeps u w (trigger n w).
Proof.
  intros Hn. unfold trigger. eapply keeps_trans; [|apply keeps_listeners].
  unfold keeps. simpl. repeat split; auto. exists [n]. auto.
Qed.

Lemma keeps_mark u st i s w : sockets w !! i = Some s -> keeps u w (mark st i s w).
Proof.
  intros Hs. unfold keeps, mark. simpl. repeat split; auto.
  - eapply socket_ids_insert; eauto.
  - exists []. rewrite app_nil_r. auto.
Qed.

Lemma keeps_stop_channel_close u w : keeps u w (stop_channel_close w).
Proof.
  unfold stop_channel_close. destruct (current_socket w) as [[i s]|]; [|apply keeps_refl].
  destruct (ready_state_eqb _ _); [|apply keeps_refl].
  unfold keeps. simpl. repeat split; auto. exists []. rewrite app_nil_r. auto.
Qed.

Lemma keeps_stop_channel u w : keeps u w (stop_channel w).
Proof.
  unfold stop_channel. destruct (current_socket w) as [[i s]|] eqn:Hc; [|apply keeps_refl].
  destruct (ready_state_eqb _ _); [|apply keeps_stop_channel_close].
  destruct (current_socket_lookup _ _ _ Hc) as [_ Hs].
  unfold keeps. simpl. repeat split; auto.
  - eapply socket_ids_insert; eauto.
  - exists []. rewrite app_nil_r. auto.
Qed.

Lemma keeps_schedule_reconnect u w : keeps u w (_schedule_reconnect w).
Proof.
  unfold _schedule_reconnect. destruct (_ <? _)%Z.
  - eapply keeps_trans; [apply keeps_console_log | apply keeps_setTimeout].
  - eapply keeps_trans; [|apply keeps_console_log]. apply keeps_trigger. exact I.
Qed.

Lemma keeps_ws_closed u e w : keeps u w (_ws_closed u e w).
Proof.
  unfold _ws_closed.
  eapply keeps_trans; [|apply keeps_schedule_reconnect].
  apply keeps_trans with (w2 := trigger remote_disconnected (stop_channel w)).
  - eapply keeps_trans; [apply keeps_stop_channel|]. apply keeps_trigger. exact I.
  - destruct e; [|apply keeps_refl].
    eapply keeps_trans; [apply keeps_console_log|]. apply keeps_trigger. reflexivity.
Qed.

Lemma keeps_ws_opened u w : keeps u w (_ws_opened w).
Proof.
  unfold _ws_opened, _remote_connected.
  destruct (is_connected w); [apply keeps_trigger; exact I | apply keeps_refl].
Qed.

Lemma keeps_grace_switch u g w : keeps u w (run_grace_switch g w).
Proof.
  unfold run_grace_switch. destruct (current_socket w) as [[i s]|] eqn:Hc; [|apply keeps_refl].
  destruct (current_socket_lookup _ _ _ Hc) as [_ Hs].
  unfold keeps. simpl. repeat split; auto.
  - eapply socket_ids_insert; eauto.
  - exists []. rewrite app_nil_r. auto.
Qed.

Lemma keeps_send_input_reply u input w : keeps u w (snd (send_input_reply input w)).
Proof.
  unfold send_input_reply. destruct (negb (is_connected w)); [apply keeps_refl|].
  unfold _get_msg, utils_uuid. cbn [fst snd].
  apply keeps_trans with (w2 := trigger (input_reply (JObj [("value", input)])) w);
    [apply keeps_trigger; exact I|].
  remember (trigger (input_reply (JObj [("value", input)])) w) as w1 eqn:Hw1. clear Hw1.
  cbn. destruct (ws (this w1)); apply keeps_fields; reflexivity.
Qed.

Lemma keeps_publish u n w : keeps u w (publish n w).
Proof.
  destruct n; try apply keeps_listeners. apply keeps_send_input_reply.
Qed.

Lemma keeps_enter_once u g path w a w' :
  enter_once g path w = Some (a, w') ->
  keeps u w w' /\ activations w !! g = Some a.
Proof.
  unfold enter_once. destruct (activations w !! g) as [a0|] eqn:Ha; [|discriminate].
  destruct (already_called_onclose a0); [discriminate|].
  intros [= <- <-]. split; [|reflexivity].
  unfold keeps. simpl. repeat split; auto.
  - rewrite list_fmap_insert. apply list_insert_id.
    rewrite list_lookup_fmap, Ha. reflexivity.
  - exists []. rewrite app_nil_r. auto.
Qed.

Lemma anchored_keeps w w' : anchored w -> keeps (channel_url (this w)) w w' -> anchored w'.
Proof.
  intros (Hlen & Hh & Hso & Hac & Htr & Hun & Har)
         (Hm & Hs & Hu & Ha & Hw & Hids & Hurls & x & Hx & Fx).
  assert (channel_url (this w') = channel_url (this w)) as HU
    by (unfold channel_url; rewrite Hm, Hs; reflexivity).
  assert (length (sockets w') = length (sockets w)) as Hl1.
  { apply (f_equal length) in Hids. unfold socket_ids in Hids.
    rewrite !length_map in Hids. exact Hids. }
  assert (length (activations w') = length (activations w)) as Hl2.
  { apply (f_equal length) in Hurls. rewrite !length_map in Hurls. exact Hurls. }
  unfold anchored. rewrite HU, Hl1, Hl2, Hu. repeat split; auto.
  - intros i Hi. destruct Hw as [Hw|Hw]; rewrite Hw in Hi; [auto | discriminate].
  - assert (socket_ids (sockets w') !! i = Some (url s, onerror s)) as Hi
      by (unfold socket_ids; rewrite list_lookup_fmap, H; reflexivity).
    rewrite Hids in Hi. unfold socket_ids in Hi. rewrite list_lookup_fmap in Hi.
    destruct (sockets w !! i) as [s0|] eqn:Hs0; [|discriminate].
    simpl in Hi. injection Hi as Hi1 Hi2. rewrite <- Hi1. apply (Hso i s0 Hs0).
  - assert (socket_ids (sockets w') !! i = Some (url s, onerror s)) as Hi
      by (unfold socket_ids; rewrite list_lookup_fmap, H; reflexivity).
    rewrite Hids in Hi. unfold socket_ids in Hi. rewrite list_lookup_fmap in Hi.
    destruct (sockets w !! i) as [s0|] eqn:Hs0; [|discriminate].
    simpl in Hi. injection Hi as Hi1 Hi2. rewrite <- Hi2. apply (Hso i s0 Hs0).
  - intros g a Hg.
    assert (map ws_host_url (activations w') !! g = Some (ws_host_url a)) as Hi
      by (rewrite list_lookup_fmap, Hg; reflexivity).
    rewrite Hurls, list_lookup_fmap in Hi.
    destruct (activations w !! g) as [a0|] eqn:Ha0; [|discriminate].
    simpl in Hi. injection Hi as Hi. rewrite <- Hi. apply (Hac g a0 Ha0).
  - rewrite Hx. apply Forall_app; auto.
  - destruct Ha as [Ha|Ha]; rewrite Ha; auto.
Qed.

Lemma anchored_start_channel w : anchored w -> anchored (start_channel w).
Proof.
  intros Hw.
  pose proof (anchored_keeps _ _ Hw (keeps_stop_channel _ w)) as (_ & _ & Hso0 & _).
  destruct Hw as (Hlen & Hh & Hso & Hac & Htr & Hun & Har).
  pose proof (start_channel_shape w) as H. cbv zeta in H.
  destruct H as (Hws & Hs1 & Ha1 & _ & _ & Ht1 & _ & _ & _ & _ & _ & (Hm & Hu & Hs & Hr & _)).
  pose proof (stop_channel_lengths w) as Hl0.
  pose proof (stop_channel_frame w) as H. cbv zeta in H.
  destruct H as (_ & _ & _ & _ & _ & _ & _ & _ & _ & (Hm0 & _ & Hs0 & _) & _).
  assert (channel_url (this (start_channel w)) = channel_url (this w)) as HU
    by (unfold channel_url; rewrite Hm, Hs; reflexivity).
  assert (channel_url (this (stop_channel w)) = channel_url (this w)) as HU0
    by (unfold channel_url; rewrite Hm0, Hs0; reflexivity).
  unfold anchored. rewrite HU, Hws, Hs1, Ha1, Ht1, Hu, Hr, !length_app, Hl0. simpl.
  repeat split; auto.
  - intros i [= <-]. lia.
  - destruct (decide (i < length (sockets w))) as [Hi|Hi].
    + rewrite lookup_app_l in H by lia. rewrite <- HU0. apply (Hso0 i s H).
    + apply lookup_lt_Some in H as Hlt. rewrite length_app, Hl0 in Hlt. simpl in Hlt.
      assert (i = length (sockets (stop_channel w))) as -> by lia.
      rewrite list_lookup_middle in H by reflexivity. injection H as <-. reflexivity.
  - destruct (decide (i < length (sockets w))) as [Hi|Hi].
    + rewrite lookup_app_l in H by lia. apply (Hso0 i s H).
    + apply lookup_lt_Some in H as Hlt. rewrite length_app, Hl0 in Hlt. simpl in Hlt.
      assert (i = length (sockets (stop_channel w))) as -> by lia.
      rewrite list_lookup_middle in H by reflexivity. injection H as <-. simpl. lia.
  - intros g a Hg. destruct (decide (g < length (activations w))) as [Hi|Hi].
    + rewrite lookup_app_l in Hg by lia. apply (Hac g a Hg).
    + apply lookup_lt_Some in Hg as Hlt. rewrite length_app in Hlt. simpl in Hlt.
      assert (g = length (activations w)) as -> by lia.
      rewrite list_lookup_middle in Hg by reflexivity. injection Hg as <-. reflexivity.
Qed.

Lemma keeps_anchored_trans w w1 w2 :
  anchored w -> keeps (channel_url (this w)) w w1 ->
  (anchored w1 -> keeps (channel_url (this w1)) w1 w2) -> anchored w2.
Proof.
  intros Hw H1 H2. pose proof (anchored_keeps _ _ Hw H1) as Hw1.
  exact (anchored_keeps _ _ Hw1 (H2 Hw1)).
Qed.

Lemma keeps_run_ws_closed g path wasClean w :
  anchored w -> keeps (channel_url (this w)) w (run_ws_closed g path wasClean w).
Proof.
  intros Hw. unfold run_ws_closed.
  destruct (enter_once g path w) as [[a w1]|] eqn:He; [|apply keeps_refl].
  destruct (keeps_enter_once (channel_url (this w)) _ _ _ _ _ He) as [Hk Ha].
  destruct (negb wasClean); [|exact Hk].
  eapply keeps_trans; [exact Hk|].
  destruct Hw as (_ & _ & _ & Hac & _). rewrite <- (Hac g a Ha). apply keeps_ws_closed.
Qed.

Lemma keeps_run_ws_error g w :
  anchored w -> keeps (channel_url (this w)) w (run_ws_error g w).
Proof.
  intros Hw. unfold run_ws_error.
  destruct (enter_once g error_path w) as [[a w1]|] eqn:He; [|apply keeps_refl].
  destruct (keeps_enter_once (channel_url (this w)) _ _ _ _ _ He) as [Hk Ha].
  eapply keeps_trans; [exact Hk|].
  destruct Hw as (_ & _ & _ & Hac & _). rewrite <- (Hac g a Ha). apply keeps_ws_closed.
Qed.

Lemma channel_url_keeps u w w' : keeps u w w' -> channel_url (this w') = channel_url (this w).
Proof. intros (Hm & Hs & _). unfold channel_url. rewrite Hm, Hs. reflexivity. Qed.

Lemma anchored_step policy l w e : anchored w -> anchored (step policy l w e).
Proof.
  intros Hw. destruct e; simpl.
  - unfold deliver_open. destruct (sockets w !! sid) as [s|] eqn:Hs; [|exact Hw].
    apply (anchored_keeps w); [exact Hw|].
    eapply keeps_trans; [apply keeps_mark; exact Hs | apply keeps_ws_opened].
  - unfold deliver_close. destruct (sockets w !! sid) as [s|] eqn:Hs; [|exact Hw].
    pose proof (keeps_mark (channel_url (this w)) CLOSED sid s w Hs) as Hk.
    pose proof (anchored_keeps _ _ Hw Hk) as Hw1.
    apply (anchored_keeps _ _ Hw1).
    destruct (onclose s);
      [exact (keeps_run_ws_closed _ _ _ _ Hw1) | exact (keeps_run_ws_closed _ _ _ _ Hw1)
      | apply keeps_stop_channel_close].
  - unfold deliver_error. destruct (sockets w !! sid) as [s|] eqn:Hs; [|exact Hw].
    pose proof (keeps_mark (channel_url (this w)) CLOSED sid s w Hs) as Hk.
    pose proof (anchored_keeps _ _ Hw Hk) as Hw1.
    apply (anchored_keeps _ _ Hw1). exact (keeps_run_ws_error _ _ Hw1).
  - apply (anchored_keeps w); [exact Hw|]. apply keeps_fields; reflexivity.
  - unfold fire_timer. destruct (find _ _) as [t|]; [|exact Hw].
    assert (anchored (set_timers (List.filter (fun t => negb (has_id tid t)) (timers w)) w)) as Hw1
      by (apply (anchored_keeps w); [exact Hw | apply keeps_fields; reflexivity]).
    destruct (callback t); simpl.
    + apply (anchored_keeps _ _ Hw1). apply keeps_grace_switch.
    + exact Hw1.
  - apply (anchored_keeps w); [exact Hw|]. apply keeps_fields; reflexivity.
  - apply (anchored_keeps w); [exact Hw|]. apply keeps_publish.
  - apply anchored_start_channel. exact Hw.
  - apply (anchored_keeps w); [exact Hw|]. apply keeps_stop_channel.
  - apply (anchored_keeps w); [exact Hw|]. apply keeps_send_input_reply.
Qed.

Lemma anchored_run policy l evs : forall w, anchored w -> anchored (run policy l evs w).
Proof.
  induction evs as [|e evs IH]; intros w Hw; [exact Hw|].
  simpl. apply IH. apply anchored_step. exact Hw.
Qed.

Lemma anchored_new m b p h s : anchored (new_Remote m b p h s).
Proof.
  unfold anchored. simpl. repeat split; auto; try discriminate;
    intros ? ? H; rewrite lookup_nil in H; discriminate.
Qed.

Lemma identity_step policy l w e : same_identity w (step policy l w e).
Proof.
  assert (forall u w', keeps u w w' -> same_identity w w') as Hk
    by (intros u w' (Hm & Hs & _); split; assumption).
  destruct e; simpl.
  - unfold deliver_open. destruct (sockets w !! sid) as [s|] eqn:Hs; [|split; reflexivity].
    apply (Hk "").
    eapply keeps_trans; [apply keeps_mark; exact Hs | apply keeps_ws_opened].
  - unfold deliver_close. destruct (sockets w !! sid) as [s|] eqn:Hs; [|split; reflexivity].
    pose proof (keeps_mark "" CLOSED sid s w Hs) as Hm.
    destruct (onclose s); simpl.
    + unfold run_ws_closed.
      destruct (enter_once _ _ _) as [[a w1]|] eqn:He; [|apply (Hk ""); exact Hm].
      destruct (keeps_enter_once (ws_host_url a) _ _ _ _ _ He) as [Hk1 _].
      apply (Hk (ws_host_url a)).
      eapply keeps_trans; [apply keeps_mark; exact Hs|].
      destruct (negb wasClean); [|exact Hk1].
      eapply keeps_trans; [exact Hk1 | apply keeps_ws_closed].
    + unfold run_ws_closed.
      destruct (enter_once _ _ _) as [[a w1]|] eqn:He; [|apply (Hk ""); exact Hm].
      destruct (keeps_enter_once (ws_host_url a) _ _ _ _ _ He) as [Hk1 _].
      apply (Hk (ws_host_url a)).
      eapply keeps_trans; [apply keeps_mark; exact Hs|].
      destruct (negb wasClean); [|exact Hk1].
      eapply keeps_trans; [exact Hk1 | apply keeps_ws_closed].
    + apply (Hk ""). eapply keeps_trans; [exact Hm | apply keeps_stop_channel_close].
  - unfold deliver_error. destruct (sockets w !! sid) as [s|] eqn:Hs; [|split; reflexivity].
    unfold run_ws_error.
    destruct (enter_once _ _ _) as [[a w1]|] eqn:He;
      [|apply (Hk ""); apply keeps_mark; exact Hs].
    destruct (keeps_enter_once (ws_host_url a) _ _ _ _ _ He) as [Hk1 _].
    apply (Hk (ws_host_url a)).
    eapply keeps_trans; [apply keeps_mark; exact Hs|].
    eapply keeps_trans; [exact Hk1 | apply keeps_ws_closed].
  - split; reflexivity.
  - unfold fire_timer. destruct (find _ _) as [t|]; [|split; reflexivity].
    destruct (callback t); simpl.
    + apply (Hk ""). eapply keeps_trans; [|apply keeps_grace_switch].
      apply keeps_fields; reflexivity.
    + split; reflexivity.
  - split; reflexivity.
  - apply (Hk ""). apply keeps_publish.
  - pose proof (start_channel_shape w) as H.
    cbv zeta in H. destruct H as (_ & _ & _ & _ & _ & _ & _ & _ & _ & _ & _ & (Hm & _ & Hs & _)).
    split; assumption.
  - apply (Hk ""). apply keeps_stop_channel.
  - apply (Hk ""). apply keeps_send_input_reply.
Qed.

Lemma identity_run policy l evs : forall w, same_identity w (run policy l evs w).
Proof.
  induction evs as [|e evs IH]; intros w; [split; reflexivity|].
  simpl. destruct (identity_step policy l w e) as [H1 H2].
  destruct (IH (step policy l w e)) as [H3 H4].
  split; [rewrite H3, H1 | rewrite H4, H2]; reflexivity.
Qed.

(** X12.  In every state the page can reach from the constructor, each
    [start_channel] activation has made one socket, the error handler of
    socket [i] is the one of activation [i], and the handle is null or refers
    to the socket created last, which exists; [is_connected] implies that
    [is_fully_disconnected] is false. *)
Theorem handle_is_latest_transport policy l m b p h s (evs : list event) :
  let w := run policy l evs (new_Remote m b p h s) in
  length (activations w) = length (sockets w)
  /\ (forall i s0, sockets w !! i = Some s0 -> onerror s0 = i)
  /\ (forall i, ws (this w) = Some i ->
        S i = length (sockets w) /\ exists s0, current_socket w = Some (i, s0))
  /\ (is_connected w = true -> is_fully_disconnected w = false).
Proof.
  cbv zeta. pose proof (anchored_run policy l evs _ (anchored_new m b p h s)) as Hw.
  remember (run policy l evs (new_Remote m b p h s)) as w eqn:E. clear E.
  destruct Hw as (Hlen & Hh & Hso & _).
  split; [exact Hlen|]. split; [intros i s0 Hi; apply (Hso i s0 Hi)|]. split.
  - intros i Hi. split; [apply Hh; exact Hi|].
    pose proof (Hh i Hi) as Hl.
    destruct (lookup_lt_is_Some_2 (sockets w) i ltac:(lia)) as [s0 Hs0].
    exists s0. unfold current_socket. rewrite Hi, Hs0. reflexivity.
  - unfold is_connected, is_fully_disconnected, current_socket.
    destruct (ws (this w)); [reflexivity | discriminate].
Qed.

Lemma handle_is_latest_transport_witness :
  let w := run utils_reject (fun _ => None) [call_start_channel; ev_open 0]
             (new_Remote "ws://host" "" "" "" "s1") in
  1 = length (sockets w).
Proof.
  destruct (handle_is_latest_transport utils_reject (fun _ => None) "ws://host" "" "" "" "s1"
              [call_start_channel; ev_open 0]) as (_ & _ & H & _).
  apply (H 0). reflexivity.
Defined.

(** X13.  No task writes [master_url], [session_id], [username],
    [reconnect_limit] or [_autorestart_attempt]: in every state the page can
    reach they are as the constructor set them, every socket was opened at
    [master_url + "/api/sessions/" + session_id + "/ws"], and every
    [remote_connection_failed] published names that URL. *)
Theorem transports_share_one_url policy l m b p h s (evs : list event) :
  let w0 := new_Remote m b p h s in
  let w := run policy l evs w0 in
  let u := master_url (this w0) +:+ "/api/sessions/" +:+ s +:+ "/ws" in
  master_url (this w) = master_url (this w0)
  /\ session_id (this w) = s
  /\ username (this w) = "username"
  /\ reconnect_limit (this w) = 7%Z
  /\ _autorestart_attempt (this w) = 0%Z
  /\ (forall i s0, sockets w !! i = Some s0 -> url s0 = u)
  /\ (forall v a, In (remote_connection_failed v a) (triggered w) -> v = u).
Proof.
  cbv zeta. pose proof (anchored_run policy l evs _ (anchored_new m b p h s)) as Hw.
  destruct (identity_run policy l evs (new_Remote m b p h s)) as [Hm Hs].
  pose proof (limit_run policy l evs (new_Remote m b p h s)) as Hl.
  remember (run policy l evs (new_Remote m b p h s)) as w eqn:E. clear E.
  remember (new_Remote m b p h s) as w0 eqn:E0.
  assert (session_id (this w0) = s) as Hs0 by (subst w0; reflexivity).
  assert (reconnect_limit (this w0) = 7%Z) as Hl0 by (subst w0; reflexivity).
  clear E0.
  destruct Hw as (_ & _ & Hso & _ & Htr & Hun & Har).
  assert (channel_url (this w) = master_url (this w0) +:+ "/api/sessions/" +:+ s +:+ "/ws")
    as HU by (unfold channel_url; rewrite Hm, Hs, Hs0; reflexivity).
  rewrite HU in *.
  repeat split; auto; try congruence.
  - intros i s0 Hi. apply (Hso i s0 Hi).
  - intros v a Hin. rewrite Forall_forall in Htr.
    apply (Htr (remote_connection_failed v a)). apply list_elem_of_In. exact Hin.
Qed.

Lemma published_app a b : published (a ++ b) = published a ++ published b.
Proof. apply omap_app. Qed.

Lemma published_block policy l f :
  published (Chain.block policy l f) = option_list (exec_of f).
Proof.
  unfold Chain.block, exec_of. destruct (Chain.outcome f) as [[|exec]|e]; simpl.
  - destruct policy; reflexivity.
  - destruct (truthy exec); [destruct (l exec)|]; destruct policy; reflexivity.
  - destruct policy; reflexivity.
Qed.

Lemma rejected_chain l : forall fs e,
  published (fst (Chain.sequential log_and_reject l (rejected_with e) fs)) = []
  /\ length (reported (fst (Chain.sequential log_and_reject l (rejected_with e) fs)))
     = length fs.
Proof.
  induction fs as [|f fs IH]; intros e; simpl; [auto|].
  destruct (IH (Wrapped "Couldn't process remote message" e)) as [H1 H2].
  split; [exact H1|]. rewrite H2. reflexivity.
Qed.

Lemma published_sequential policy l fs : forall prev,
  sound policy prev ->
  published (fst (Chain.sequential policy l prev fs)) `prefix_of` omap exec_of fs.
Proof.
  induction fs as [|f fs IH]; intros prev Hs; simpl; [reflexivity|].
  rewrite published_app.
  pose proof (IH _ (sound_whole policy l prev f)) as H.
  destruct prev as [v|e].
  - change (fst (Chain.whole policy l (fulfilled_with v) f)) with (Chain.block policy l f).
    rewrite published_block.
    destruct (exec_of f); simpl; [apply prefix_cons|]; exact H.
  - simpl in Hs. subst policy. simpl.
    destruct (rejected_chain l fs (Wrapped "Couldn't process remote message" e)) as [E _].
    rewrite E. apply prefix_nil.
Qed.

Lemma published_blocks policy l fs :
  published (flat_map (Chain.block policy l) fs) = omap exec_of fs.
Proof.
  induction fs as [|f fs IH]; [reflexivity|].
  change (flat_map (Chain.block policy l) (f :: fs))
    with (Chain.block policy l f ++ flat_map (Chain.block policy l) fs).
  rewrite published_app, published_block, IH. simpl. destruct (exec_of f); reflexivity.
Qed.

Lemma frames_of_ticks n : frames_of (repeat ev_tick n) = [].
Proof. induction n; simpl; auto. Qed.

(** X15.  [exec.Remote] is published only for a frame that decodes to a
    message with a truthy [exec] property, once, with that value, and in
    arrival order: whatever the catch handler and the latencies, the values
    published so far are an initial part of those of the frames received;
    all of them have been published once the decodes have had their time,
    when the frames are healthy or the catch handler returns. *)
Theorem exec_published_in_arrival_order policy l m b p h s (evs : list event) :
  let fs := frames_of evs in
  let printed n := Promise.out (inbound (run policy l (evs ++ repeat ev_tick n)
                                           (new_Remote m b p h s))) in
  (forall n, published (printed n) `prefix_of` omap exec_of fs)
  /\ (forall n, Chain.total_latency fs <= n ->
        policy = log_and_return \/ forallb (Chain.healthy l) fs = true ->
        published (printed n) = omap exec_of fs).
Proof.
  intros fs printed. unfold printed. split.
  - intros n. rewrite out_run.
    destruct (chain_run_log policy l (evs ++ repeat ev_tick n)) as [[rest Hp] _].
    rewrite frames_of_app, frames_of_ticks, app_nil_r in Hp. fold fs in Hp.
    etransitivity; [|apply (published_sequential policy l fs Chain.started I)].
    rewrite <- Hp, published_app. apply prefix_app_r. reflexivity.
  - intros n Hn Hc. rewrite out_run.
    destruct (chain_run_log policy l evs) as [_ Hl]. rewrite (Hl n Hn). fold fs.
    destruct Hc as [-> | Hh].
    + unfold Chain.started. rewrite sequential_isolated. apply published_blocks.
    + destruct (sequential_healthy policy l fs undefined Hh) as (H1 & _).
      unfold Chain.started. rewrite H1. apply published_blocks.
Qed.

Lemma exec_published_in_arrival_order_witness :
  published (Promise.out (inbound (run log_and_reject (fun _ => None)
                                     (arrivals healthy_frames ++ repeat ev_tick 4)
                                     (new_Remote "ws://host" "" "" "" "s1"))))
  = [JStr "a"; JStr "c"].
Proof.
  destruct (exec_published_in_arrival_order log_and_reject (fun _ => None)
              "ws://host" "" "" "" "s1" (arrivals healthy_frames)) as [_ H].
  apply (H 4); [vm_compute; lia | right; reflexivity].
Defined.

Lemma links_tail_pending h : forall fs p3 rs q,
  h !! p3 = Some (Promise.pending rs) -> links h p3 rs fs q ->
  exists rs', h !! q = Some (Promise.pending rs').
Proof.
  induction fs as [|f fs IH]; intros p3 rs q H3 Hl.
  - destruct Hl as [_ ->]. eauto.
  - destruct Hl as (q1 & q3 & rs' & _ & _ & (q2 & _ & _ & _ & _ & Hq3) & Hl).
    apply (IH q3 rs' q Hq3 Hl).
Qed.

(** X14.  At the end of every task no microtask is left, at most one decode
    is in flight, and [_msg_queue] is settled exactly when none is: a frame
    that arrives while a decode is pending waits behind it. *)
Theorem one_decode_in_flight policy l m b p h s (evs : list event) :
  let q := inbound (run policy l evs (new_Remote m b p h s)) in
  Promise.microtasks q = []
  /\ length (Promise.decoding q) <= 1
  /\ (Promise.decoding q = [] <->
      exists o, Promise.heap q !! Promise._msg_queue q = Some (Promise.cell_of o)).
Proof.
  cbv zeta.
  pose proof (matches_run policy l evs (new_Remote m b p h s) Chain.init matches_init) as H.
  remember (inbound (run policy l evs (new_Remote m b p h s))) as q eqn:E. clear E.
  destruct H as (Hm & Ho & Hc).
  split; [exact Hm|].
  destruct (Chain.current _) as [[n r]|] eqn:Hcur.
  - destruct Hc as (d & p1 & p3 & rs & Hd & Hn & Hhd & (p2 & Hp12 & Hp23 & H1 & H2 & H3) & Hl).
    rewrite Hd. split; [simpl; lia|].
    split; [discriminate|]. intros [o Hq]. exfalso.
    destruct (links_tail_pending _ _ _ _ _ H3 Hl) as [rs' Hp].
    rewrite Hp in Hq. destruct o; discriminate.
  - destruct Hc as (_ & Hd & Hq). rewrite Hd. split; [simpl; lia|].
    split; [eauto | reflexivity].
Qed.

Lemma healthy_chain policy l : forall fs v,
  forallb (Chain.healthy l) fs = true ->
  exists v', snd (Chain.sequential policy l (fulfilled_with v) fs) = fulfilled_with v'.
Proof.
  induction fs as [|f fs IH]; intros v Hh; simpl; [eauto|].
  simpl in Hh. apply andb_prop in Hh as [Hf Hfs].
  destruct (finish_healthy policy l f Hf) as (-> & _). apply IH. exact Hfs.
Qed.

Lemma failing_block l f e :
  Chain.failure l f = Some e ->
  snd (Chain.finish log_and_reject l (Chain.outcome f))
  = rejected_with (Wrapped "Couldn't process remote message" e)
  /\ reported (Chain.block log_and_reject l f) = [Wrapped "Couldn't process remote message" e]
  /\ decode_calls (Chain.block log_and_reject l f) = [data f]
  /\ dispatched (Chain.block log_and_reject l f) = option_list (Chain.delivered f).
Proof.
  unfold Chain.failure, Chain.block, Chain.delivered.
  destruct (Chain.outcome f) as [[|exec]|e0]; simpl.
  - intros [= <-]. auto.
  - destruct (truthy exec); [destruct (l exec)|]; simpl; try discriminate.
    intros [= <-]. auto.
  - intros [= <-]. auto.
Qed.

(** X16.  With a catch handler that returns a rejected promise, the first
    frame that fails (in its decode or its dispatch) is the last one decoded:
    for the frames after it no decode is called, nothing is dispatched or
    published, and each of them logs one more wrapped error. *)
Theorem rejecting_handler_stops_the_chain l m b p h s (evs : list event)
    (done rest : list frame) (f : frame) (e : err) (n : nat) :
  frames_of evs = done ++ f :: rest ->
  forallb (Chain.healthy l) done = true ->
  Chain.failure l f = Some e ->
  Chain.total_latency (frames_of evs) <= n ->
  let printed := Promise.out (inbound (run log_and_reject l (evs ++ repeat ev_tick n)
                                         (new_Remote m b p h s))) in
  decode_calls printed = map data (done ++ [f])
  /\ dispatched printed = map Chain.decoded done ++ option_list (Chain.delivered f)
  /\ published printed = omap exec_of (done ++ [f])
  /\ length (reported printed) = S (length rest).
Proof.
  intros Hfs Hh Hf Hn. cbv zeta. rewrite out_run.
  destruct (chain_run_log log_and_reject l evs) as [_ Hl]. rewrite (Hl n Hn), Hfs.
  clear Hl Hn Hfs. unfold Chain.started.
  rewrite sequential_app. cbn [fst].
  destruct (sequential_healthy log_and_reject l done undefined Hh) as (H1 & H2 & H3 & H4).
  destruct (healthy_chain log_and_reject l done undefined Hh) as [v' Hv].
  rewrite H1, Hv.
  change (fst (Chain.sequential log_and_reject l (fulfilled_with v') (f :: rest)))
    with (Chain.block log_and_reject l f
          ++ fst (Chain.sequential log_and_reject l
                    (snd (Chain.finish log_and_reject l (Chain.outcome f))) rest)).
  destruct (failing_block l f e Hf) as (-> & R1 & R2 & R3).
  destruct (rejecting_handler_aborts l (Wrapped "Couldn't process remote message" e) rest)
    as [A1 A2].
  destruct (rejected_chain l rest (Wrapped "Couldn't process remote message" e)) as [A3 A4].
  rewrite !decode_calls_app, !dispatched_app, !published_app, !reported_app.
  rewrite H2, H3, H4, R1, R2, R3, A1, A2, A3, published_blocks, published_block.
  rewrite !app_nil_r, map_app, omap_app. simpl. rewrite A4.
  repeat split; reflexivity.
Qed.

Lemma rejecting_handler_stops_the_chain_witness :
  decode_calls (Promise.out (inbound (run log_and_reject (fun _ => None)
                                        (arrivals sample_frames ++ repeat ev_tick 4)
                                        (new_Remote "ws://host" "" "" "" "s1"))))
  = [1; 2].
Proof.
  destruct (rejecting_handler_stops_the_chain (fun _ => None) "ws://host" "" "" "" "s1"
              (arrivals sample_frames)
              [{| data := 1; answer := async 3 (fulfilled_with (message (JStr "a"))) |}]
              [{| data := 3; answer := async 1 (fulfilled_with (message JUndefined)) |}]
              {| data := 2; answer := sync_throw (Err "bad frame") |}
              (Err "bad frame") 4
              ltac:(reflexivity) ltac:(reflexivity) ltac:(reflexivity) ltac:(vm_compute; lia))
    as (H & _).
  exact H.
Defined.

(** X6.  An [error] event on the current transport, whose handlers are those
    of its own activation with the guard unset, is handled once: the handle
    is cleared, [remote_disconnected] and [remote_connection_failed] (URL of
    the activation, current attempt count) are published, and the reconnect
    timer is armed or [remote_connection_dead] published.  The [close] event
    that follows on that transport, clean or not, publishes nothing, arms no
    timer and leaves the object as it is. *)
Theorem error_then_close_handled_once (w : world) (i g : nat) (s : WebSocket) (a : activation)
    (wasClean : bool) :
  current_socket w = Some (i, s) -> onerror s = g ->
  onclose s = ws_closed_early g \/ onclose s = ws_closed_late g ->
  activations w !! g = Some a -> already_called_onclose a = false ->
  let w1 := deliver_error i w in
  let w2 := deliver_close i wasClean w1 in
  ws (this w1) = None
  /\ triggered w1
     = triggered w ++ remote_disconnected
         :: loss_notifications (ws_host_url a) true
              (_reconnect_attempt (this w)) (reconnect_limit (this w))
  /\ timers w1
     = timers w ++ reconnect_timers (next_timer w)
                     (_reconnect_attempt (this w)) (reconnect_limit (this w))
  /\ entered w1 = entered w ++ [(g, error_path)]
  /\ triggered w2 = triggered w1 /\ timers w2 = timers w1 /\ entered w2 = entered w1
  /\ this w2 = this w1.
Proof.
  intros Hcur He Hc Ha Hg.
  destruct (current_socket_lookup _ _ _ Hcur) as [Hh Hs].
  pose proof (lookup_lt_Some _ _ _ Hs) as Hlt.
  pose proof (lookup_lt_Some _ _ _ Ha) as Hlg.
  assert (deliver_error i w
          = _ws_closed (ws_host_url a) true
              (set_entered (entered w ++ [(g, error_path)])
                 (set_activations
                    (<[g := {| already_called_onclose := true;
                               ws_host_url := ws_host_url a |}]> (activations w))
                    (mark CLOSED i s w)))) as Hd.
  { unfold deliver_error. rewrite Hs, He. unfold run_ws_error, enter_once.
    cbn [activations mark set_sockets]. rewrite Ha, Hg. reflexivity. }
  cbv zeta. rewrite Hd.
  match goal with |- context [_ws_closed ?u ?e ?w0] => set (w0' := w0) end.
  pose proof (ws_closed_effects (ws_host_url a) true w0') as H. cbv zeta in H.
  destruct H as (Ht & Htm & Hso & Hth & Hac & Hen & _).
  assert (stop_channel w0' = set_this (set_ws None (this w0')) w0') as Hst.
  { pose proof (stop_channel_cases w0') as H.
    assert (current_socket w0' = Some (i, with_readyState CLOSED s)) as Hc0.
    { unfold current_socket, w0', mark. cbn. rewrite Hh.
      rewrite list_lookup_insert_eq by exact Hlt. reflexivity. }
    rewrite Hc0 in H. exact H. }
  assert (ws (this (_ws_closed (ws_host_url a) true w0')) = None) as Hnone
    by (rewrite Hth, Hst; reflexivity).
  split; [exact Hnone|]. split; [exact Ht|]. split; [exact Htm|]. split; [exact Hen|].
  assert (deliver_close i wasClean (_ws_closed (ws_host_url a) true w0')
          = mark CLOSED i (with_readyState CLOSED s) (_ws_closed (ws_host_url a) true w0')) as Hdc.
  { apply deliver_close_ignored with (g := g).
    - rewrite Hso, Hst. unfold w0', mark. cbn.
      apply list_lookup_insert_eq. exact Hlt.
    - exact Hc.
    - exists {| already_called_onclose := true; ws_host_url := ws_host_url a |}.
      split; [|reflexivity]. rewrite Hac. unfold w0'. cbn.
      apply list_lookup_insert_eq. exact Hlg. }
  rewrite Hdc. repeat split; reflexivity.
Qed.

Lemma error_then_close_handled_once_witness :
  let w1 := deliver_error 0 open_world in
  triggered w1 = [remote_connected; remote_disconnected;
                  remote_connection_failed "ws://host/api/sessions/s1/ws" 0]
  /\ triggered (deliver_close 0 false w1) = triggered w1.
Proof.
  pose proof (error_then_close_handled_once open_world 0 0
                {| url := "ws://host/api/sessions/s1/ws"; readyState := OPEN;
                   onclose := ws_closed_early 0; onerror := 0 |}
                {| already_called_onclose := false;
                   ws_host_url := "ws://host/api/sessions/s1/ws" |} false
                ltac:(reflexivity) ltac:(reflexivity) ltac:(left; reflexivity)
                ltac:(reflexivity) ltac:(reflexivity)) as (_ & H1 & _ & _ & H2 & _).
  split; [exact H1 | exact H2].
Defined.

Lemma inbound_only policy l evs : forall w w',
  inbound w = inbound w' ->
  inbound (run policy l evs w) = inbound (run policy l (List.filter is_inbound evs) w').
Proof.
  induction evs as [|e evs IH]; intros w w' H; [exact H|].
  pose proof (inbound_step policy l w e) as Hs.
  change (run policy l (e :: evs) w) with (run policy l evs (step policy l w e)).
  destruct e; cbn [List.filter is_inbound];
    try (apply IH; rewrite Hs; exact H);
    change (run policy l (?e :: ?evs) w') with (run policy l evs (step policy l w' e));
    apply IH; rewrite Hs; cbn; rewrite H; reflexivity.
Qed.

(** X17.  Only message tasks and the settling of decodes move the inbound
    chain: opening, closing, stopping and restarting transports, timers, bus
    publications and sends leave [_msg_queue] and its promises untouched, so
    the frames already received are processed as if these tasks had not
    happened. *)
Theorem connection_tasks_leave_queue_alone policy l (evs : list event) (w : world) :
  inbound (run policy l evs w) = inbound (run policy l (List.filter is_inbound evs) w)
  /\ forall e, is_inbound e = false -> inbound (step policy l w e) = inbound w.
Proof.
  split; [exact (inbound_only policy l evs w w eq_refl)|].
  intros e He. rewrite inbound_step. destruct e; try reflexivity; discriminate.
Qed.

Lemma connection_tasks_leave_queue_alone_witness :
  inbound (step utils_reject (fun _ => None) open_world call_stop_channel) = inbound open_world.
Proof.
  destruct (connection_tasks_leave_queue_alone utils_reject (fun _ => None) [] open_world)
    as [_ H].
  apply (H call_stop_channel). reflexivity.
Defined.

Lemma handle_all_fields success rs : forall s,
  fst (Ajax.handle_all success rs s)
  = fold_left (fun t r => Ajax.after (fst (fst r)) t) rs (fst s).
Proof.
  induction rs as [|r rs IH]; intros s; [reflexivity|].
  simpl. rewrite IH. reflexivity.
Qed.

Lemma handle_all_calls rs : forall s,
  snd (Ajax.handle_all false rs s) = snd s
  /\ length (snd (Ajax.handle_all true rs s)) = length (snd s) + length rs
  /\ map Ajax.data (snd (Ajax.handle_all true rs s))
     = map Ajax.data (snd s) ++ map (fun r => fst (fst r)) rs
  /\ (Forall (fun c => Ajax.seen c = Ajax.after (Ajax.data c) (Ajax.seen c)) (snd s) ->
      Forall (fun c => Ajax.seen c = Ajax.after (Ajax.data c) (Ajax.seen c))
        (snd (Ajax.handle_all true rs s))).
Proof.
  induction rs as [|r rs IH]; intros s.
  - simpl. rewrite app_nil_r. repeat split; auto.
  - simpl. destruct (IH (Ajax._on_success false r.1.1 r.1.2 r.2 s)) as (H1 & _).
    destruct (IH (Ajax._on_success true r.1.1 r.1.2 r.2 s)) as (_ & H2 & H3 & H4).
    split; [rewrite H1; reflexivity|].
    split; [rewrite H2; simpl; rewrite length_app; simpl; lia|].
    split; [rewrite H3; simpl; rewrite map_app, <- app_assoc; reflexivity|].
    intros Hs. apply H4. simpl. apply Forall_app. split; [exact Hs|].
    constructor; [|constructor]. simpl. unfold Ajax.after.
    destruct (truthy r.1.1) eqn:E; reflexivity.
Qed.

(** X18.  The handler made by [_on_success] overwrites [id] and [name] with
    those of every truthy response (with [undefined] where the response has
    no such property) and ignores a falsy one: after a series of responses
    the fields are those of the last truthy one, or unchanged if there was
    none.  The callback, when given, is called once per response, in order,
    after the fields are updated. *)
Theorem on_success_keeps_latest_identity (success : bool) (rs : list (json * json * json))
    (t0 : Ajax.target) :
  let s := Ajax.handle_all success rs (t0, []) in
  fst s = match last (List.filter truthy (map (fun r => fst (fst r)) rs)) with
          | Some d => {| Ajax.id := Ajax.get "id" d; Ajax.name := Ajax.get "name" d |}
          | None => t0
          end
  /\ map Ajax.data (snd s) = (if success then map (fun r => fst (fst r)) rs else [])
  /\ Forall (fun c => truthy (Ajax.data c) = true ->
                      Ajax.seen c = {| Ajax.id := Ajax.get "id" (Ajax.data c);
                                       Ajax.name := Ajax.get "name" (Ajax.data c) |})
       (snd s).
Proof.
  cbv zeta. split; [|split].
  - rewrite handle_all_fields. simpl. revert t0.
    induction rs as [|r rs IH]; intros t0; [reflexivity|].
    cbn [fold_left map List.filter]. rewrite IH. unfold Ajax.after.
    destruct (truthy r.1.1) eqn:E; [|reflexivity].
    destruct (last (List.filter truthy (map (fun r0 => r0.1.1) rs))) eqn:El.
    + apply last_Some in El as [l' El]. rewrite El, app_comm_cons, last_snoc. reflexivity.
    + apply last_None in El. rewrite El. reflexivity.
  - destruct success.
    + destruct (handle_all_calls rs (t0, [])) as (_ & _ & H & _). exact H.
    + destruct (handle_all_calls rs (t0, [])) as (H & _). rewrite H. reflexivity.
  - destruct success.
    + destruct (handle_all_calls rs (t0, [])) as (_ & _ & _ & H).
      eapply Forall_impl; [apply H; constructor|].
      intros c Hc Ht. simpl in Hc. rewrite Hc. unfold Ajax.after. rewrite Ht. reflexivity.
    + destruct (handle_all_calls rs (t0, [])) as (H & _). rewrite H. constructor.
Qed.

(** X19.  The URL of the first transport: an explicit [master_url] is used
    as it is; without it the [masterUrl] of the page body; without both, on a
    page served over [http...], the protocol with [http] replaced by [ws]
    (so [https:] gives [wss:]), ["//"] and the host.  The path
    ["/api/sessions/" + session_id + "/ws"] is appended in each case. *)
Theorem first_transport_url (m b rest h s : string) :
  let url_of w := url <$> (sockets (start_channel w) !! 0) in
  (m <> "" -> url_of (new_Remote m b ("http" +:+ rest) h s)
              = Some (m +:+ "/api/sessions/" +:+ s +:+ "/ws"))
  /\ (b <> "" -> url_of (new_Remote "" b ("http" +:+ rest) h s)
                 = Some (b +:+ "/api/sessions/" +:+ s +:+ "/ws"))
  /\ url_of (new_Remote "" "" ("http" +:+ rest) h s)
     = Some (("ws" +:+ rest +:+ "//" +:+ h) +:+ "/api/sessions/" +:+ s +:+ "/ws").
Proof.
  cbv zeta. repeat split.
  - intros Hm. apply String.eqb_neq in Hm. unfold new_Remote. rewrite Hm.
    cbn. rewrite Hm. reflexivity.
  - intros Hb. apply String.eqb_neq in Hb. unfold new_Remote. cbn. rewrite Hb. reflexivity.
Qed.

Lemma first_transport_url_witness :
  url <$> (sockets (start_channel (new_Remote "ws://master" "" "https:" "nb.example" "s1")) !! 0)
  = Some "ws://master/api/sessions/s1/ws".
Proof.
  destruct (first_transport_url "ws://master" "" "s:" "nb.example" "s1") as (H & _).
  apply H. discriminate.
Defined.

Lemma announces_refl w : announces w w.
Proof. exists []. rewrite !app_nil_r. auto. Qed.

Lemma announces_trans w1 w2 w3 : announces w1 w2 -> announces w2 w3 -> announces w1 w3.
Proof.
  intros (x & Hx & Lx & Fx) (y & Hy & Ly & Fy). exists (x ++ y).
  rewrite Hy, Hx, Ly, Lx, List.filter_app, !app_assoc.
  repeat split; auto. apply Forall_app; auto.
Qed.

Lemma announces_same w w' :
  triggered w' = triggered w -> logged (console w') = logged (console w) -> announces w w'.
Proof. intros H1 H2. exists []. rewrite H1, H2, !app_nil_r. auto. Qed.

Lemma logged_app a b : logged (a ++ b) = logged a ++ logged b.
Proof. apply omap_app. Qed.

Lemma announces_console_log e w :
  match e with log_status _ => False | _ => True end -> announces w (console_log e w).
Proof.
  intros He. apply announces_same; [reflexivity|].
  unfold console_log. cbn. rewrite logged_app. destruct e; try contradiction;
    cbn; rewrite app_nil_r; reflexivity.
Qed.

Lemma announces_setTimeout cb d w : announces w (setTimeout cb d w).
Proof. apply announces_same; reflexivity. Qed.

Lemma announces_trigger n w : emitted n -> announces w (trigger n w).
Proof.
  intros Hn. exists [n]. unfold trigger, listeners, console_log.
  destruct n; try contradiction; cbn; rewrite ?logged_app, ?app_nil_r; auto.
Qed.

Lemma announces_stop_channel w : announces w (stop_channel w).
Proof.
  pose proof (stop_channel_frame w) as H. cbv zeta in H.
  destruct H as (Ht & _ & _ & Hc & _).
  apply announces_same; [exact Ht | rewrite Hc; reflexivity].
Qed.

Lemma announces_stop_channel_close w : announces w (stop_channel_close w).
Proof.
  unfold stop_channel_close. repeat case_match; apply announces_same; reflexivity.
Qed.

Lemma announces_schedule_reconnect w : announces w (_schedule_reconnect w).
Proof.
  unfold _schedule_reconnect. destruct (_ <? _)%Z.
  - eapply announces_trans; [|apply announces_setTimeout]. apply announces_console_log. exact I.
  - eapply announces_trans; [|apply announces_console_log; exact I]. apply announces_trigger. exact I.
Qed.

Lemma announces_ws_closed u e w : announces w (_ws_closed u e w).
Proof.
  unfold _ws_closed.
  eapply announces_trans; [|apply announces_schedule_reconnect].
  apply announces_trans with (w2 := trigger remote_disconnected (stop_channel w)).
  - eapply announces_trans; [apply announces_stop_channel | apply announces_trigger; exact I].
  - destruct e; [|apply announces_refl].
    eapply announces_trans; [|apply announces_trigger; exact I]. apply announces_console_log. exact I.
Qed.

Lemma announces_start_channel w : announces w (start_channel w).
Proof.
  pose proof (start_channel_shape w) as H. cbv zeta in H.
  destruct H as (_ & _ & _ & _ & _ & Ht & Hc & _).
  apply announces_same; [exact Ht|]. rewrite Hc, logged_app. cbn. apply app_nil_r.
Qed.

Lemma announces_enter_once g path w a w' :
  enter_once g path w = Some (a, w') -> announces w w'.
Proof.
  unfold enter_once. intros H. repeat case_match; simplify_eq.
  apply announces_same; reflexivity.
Qed.

Lemma announces_send_input_reply input w : announces w (snd (send_input_reply input w)).
Proof.
  unfold send_input_reply. destruct (negb (is_connected w)); [apply announces_refl|].
  unfold _get_msg, utils_uuid. cbn [fst snd].
  apply announces_trans with (w2 := trigger (input_reply (JObj [("value", input)])) w);
    [apply announces_trigger; exact I|].
  remember (trigger (input_reply (JObj [("value", input)])) w) as w1 eqn:Hw1. clear Hw1.
  cbn. destruct (ws (this w1)); apply announces_same; reflexivity.
Qed.

Lemma announces_step policy l w e : own_task e = true -> announces w (step policy l w e).
Proof.
  intros He. destruct e; cbn [step].
  - unfold deliver_open. destruct (sockets w !! sid) as [s|]; [|apply announces_refl].
    unfold _ws_opened, _remote_connected.
    destruct (is_connected _).
    + eapply announces_trans; [|apply announces_trigger; exact I]. apply announces_same; reflexivity.
    + apply announces_same; reflexivity.
  - unfold deliver_close. destruct (sockets w !! sid) as [s|]; [|apply announces_refl].
    apply announces_trans with (w2 := mark CLOSED sid s w); [apply announces_same; reflexivity|].
    destruct (onclose s); cbn [run_close_handler].
    + unfold run_ws_closed. destruct (enter_once _ _ _) as [[a w1]|] eqn:E; [|apply announces_refl].
      apply announces_enter_once in E. destruct (negb wasClean); [|exact E].
      eapply announces_trans; [exact E | apply announces_ws_closed].
    + unfold run_ws_closed. destruct (enter_once _ _ _) as [[a w1]|] eqn:E; [|apply announces_refl].
      apply announces_enter_once in E. destruct (negb wasClean); [|exact E].
      eapply announces_trans; [exact E | apply announces_ws_closed].
    + apply announces_stop_channel_close.
  - unfold deliver_error. destruct (sockets w !! sid) as [s|]; [|apply announces_refl].
    apply announces_trans with (w2 := mark CLOSED sid s w); [apply announces_same; reflexivity|].
    unfold run_ws_error. destruct (enter_once _ _ _) as [[a w1]|] eqn:E; [|apply announces_refl].
    apply announces_enter_once in E.
    eapply announces_trans; [exact E | apply announces_ws_closed].
  - apply announces_same; reflexivity.
  - unfold fire_timer. destruct (find _ _) as [t|]; [|apply announces_refl].
    set (w0 := set_timers _ w).
    apply announces_trans with (w2 := w0); [apply announces_same; reflexivity|].
    destruct (callback t); cbn [run_timer].
    + unfold run_grace_switch. repeat case_match; apply announces_same; reflexivity.
    + apply announces_refl.
  - apply announces_same; reflexivity.
  - destruct n; try discriminate. apply announces_send_input_reply.
  - apply announces_start_channel.
  - apply announces_stop_channel.
  - apply announces_send_input_reply.
Qed.

Lemma announces_run policy l evs : forall w,
  forallb own_task evs = true -> announces w (run policy l evs w).
Proof.
  induction evs as [|e evs IH]; intros w H; [apply announces_refl|].
  cbn in H. apply andb_prop in H as [He Hevs].
  eapply announces_trans; [apply (announces_step policy l w e He)|]. apply IH. exact Hevs.
Qed.

(** X21.  As long as nobody else publishes status events on the bus, the
    console entries written by [record_status] are the [remote_connected]
    and [remote_disconnected] notifications the object has published, one
    entry for each, in the order of publication, and nothing else. *)
Theorem record_status_logs_own_notifications policy l m b p h s (evs : list event) :
  forallb own_task evs = true ->
  let w := run policy l evs (new_Remote m b p h s) in
  logged (console w) = List.filter has_record_status (triggered w)
  /\ Forall (fun n => n = remote_connected \/ n = remote_disconnected) (logged (console w)).
Proof.
  intros Hevs. cbv zeta.
  destruct (announces_run policy l evs (new_Remote m b p h s) Hevs) as (x & Hx & Lx & Fx).
  cbn in Hx, Lx. split; [rewrite Hx, Lx; reflexivity|].
  rewrite Lx. clear Lx Hx. induction Fx as [|n x Hn Fx IH]; [constructor|].
  cbn. destruct n; try contradiction; cbn; auto.
Qed.

Lemma record_status_logs_own_notifications_witness :
  logged (console (run utils_reject (fun _ => None)
                     [call_start_channel; ev_open 0; ev_error 0]
                     (new_Remote "ws://host" "" "" "" "s1")))
  = [remote_connected; remote_disconnected].
Proof.
  destruct (record_status_logs_own_notifications utils_reject (fun _ => None)
              "ws://host" "" "" "" "s1" [call_start_channel; ev_open 0; ev_error 0]
              ltac:(reflexivity)) as (H & _).
  exact H.
Defined.

Lemma on_success_keeps_latest_identity_witness :
  fst (Ajax.handle_all true
         [(JObj [("id", JStr "k1"); ("name", JStr "python")], JStr "success", JNull);
          (JNull, JStr "success", JNull);
          (JObj [("name", JStr "r")], JStr "success", JNull)]
         ({| Ajax.id := JUndefined; Ajax.name := JUndefined |}, []))
  = {| Ajax.id := JUndefined; Ajax.name := JStr "r" |}.
Proof.
  exact (proj1 (on_success_keeps_latest_identity true
                  [(JObj [("id", JStr "k1"); ("name", JStr "python")], JStr "success", JNull);
                   (JNull, JStr "success", JNull);
                   (JObj [("name", JStr "r")], JStr "success", JNull)]
                  {| Ajax.id := JUndefined; Ajax.name := JUndefined |})).
Defined.

Lemma transports_share_one_url_witness :
  let w := run utils_reject (fun _ => None) [call_start_channel; ev_error 0]
             (new_Remote "ws://host" "" "" "" "s1") in
  url <$> (sockets w !! 0) = Some "ws://host/api/sessions/s1/ws".
Proof.
  pose proof (transports_share_one_url utils_reject (fun _ => None) "ws://host" "" "" "" "s1"
                [call_start_channel; ev_error 0]) as H.
  cbv zeta in H. destruct H as (_ & _ & _ & _ & _ & H & _).
  exact (f_equal Some
           (H 0 {| url := "ws://host/api/sessions/s1/ws"; readyState := CLOSED;
                   onclose := ws_closed_early 0; onerror := 0 |} ltac:(reflexivity))).
Defined.

Lemma one_decode_in_flight_witness :
  let q := inbound (new_Remote "ws://host" "" "" "" "s1") in
  exists o, Promise.heap q !! Promise._msg_queue q = Some (Promise.cell_of o).
Proof.
  destruct (one_decode_in_flight utils_reject (fun _ => None) "ws://host" "" "" "" "s1" [])
    as (_ & _ & H).
  apply H. reflexivity.
Defined.

(** ** The reconnect timer *)

Lemma still_refl w : still w w.
Proof. unfold still. repeat split; auto. exists []. rewrite app_nil_r. auto. Qed.

Lemma still_trans w1 w2 w3 : still w1 w2 -> still w2 w3 -> still w1 w3.
Proof.
  intros (Hl & Ha & x & Hx & Fx) (Hl' & Ha' & y & Hy & Fy).
  unfold still. rewrite Hl', Hl. split; [reflexivity|]. split.
  - destruct Ha' as [->| ->]; auto.
  - exists (x ++ y). rewrite Hy, Hx, app_assoc. split; [reflexivity|].
    intros H0 H7. rewrite List.filter_app, (Fx H0 H7). simpl. apply Fy.
    + destruct Ha as [->| ->]; auto.
    + rewrite Hl. exact H7.
Qed.

Lemma still_fields w w' :
  _reconnect_attempt (this w') = _reconnect_attempt (this w) ->
  reconnect_limit (this w') = reconnect_limit (this w) ->
  triggered w' = triggered w -> still w w'.
Proof.
  intros H1 H2 H3. unfold still. rewrite H1, H2, H3. repeat split; auto.
  exists []. rewrite app_nil_r. auto.
Qed.

Lemma still_listeners n w : still w (listeners n w).
Proof.
  unfold still, listeners.
  destruct n; simpl; repeat split; auto; exists []; rewrite app_nil_r; auto.
Qed.

Lemma still_trigger n w : is_dead n = false -> still w (trigger n w).
Proof.
  intros Hn. unfold trigger. eapply still_trans; [|apply still_listeners].
  unfold still. simpl. repeat split; auto. exists [n]. split; [reflexivity|].
  intros _ _. simpl. rewrite Hn. reflexivity.
Qed.

Lemma still_stop_channel w : still w (stop_channel w).
Proof.
  pose proof (stop_channel_frame w) as H. cbv zeta in H.
  destruct H as (Ht & _ & _ & _ & _ & _ & _ & _ & _ & (_ & _ & _ & _ & Hr & Hl) & _).
  apply still_fields; assumption.
Qed.

Lemma still_stop_channel_close w : still w (stop_channel_close w).
Proof.
  unfold stop_channel_close. repeat case_match; apply still_fields; reflexivity.
Qed.

Lemma still_schedule_reconnect w : still w (_schedule_reconnect w).
Proof.
  unfold still, _schedule_reconnect.
  destruct (_ <? _)%Z eqn:E; simpl.
  - repeat split; auto. exists []. rewrite app_nil_r. auto.
  - repeat split; auto. exists [remote_connection_dead (_reconnect_attempt (this w))].
    split; [reflexivity|]. intros H0 H7. rewrite H0, H7 in E. discriminate.
Qed.

Lemma still_ws_closed u e w : still w (_ws_closed u e w).
Proof.
  unfold _ws_closed.
  eapply still_trans; [|apply still_schedule_reconnect].
  apply still_trans with (w2 := trigger remote_disconnected (stop_channel w)).
  - eapply still_trans; [apply still_stop_channel|]. apply still_trigger. reflexivity.
  - destruct e; [|apply still_refl].
    eapply still_trans; [|apply still_trigger; reflexivity].
    apply still_fields; reflexivity.
Qed.

Lemma still_enter_once g path w a w' : enter_once g path w = Some (a, w') -> still w w'.
Proof.
  unfold enter_once. intros H. repeat case_match; simplify_eq.
  apply still_fields; reflexivity.
Qed.

Lemma still_send_input_reply input w : still w (snd (send_input_reply input w)).
Proof.
  unfold send_input_reply. destruct (negb (is_connected w)); [apply still_refl|].
  unfold _get_msg, utils_uuid. cbn [fst snd].
  apply still_trans with (w2 := trigger (input_reply (JObj [("value", input)])) w);
    [apply still_trigger; reflexivity|].
  remember (trigger (input_reply (JObj [("value", input)])) w) as w1 eqn:Hw1. clear Hw1.
  cbn. destruct (ws (this w1)); apply still_fields; reflexivity.
Qed.

Lemma still_start_channel w : still w (start_channel w).
Proof.
  pose proof (start_channel_shape w) as H. cbv zeta in H.
  destruct H as (_ & _ & _ & _ & _ & Ht & _ & _ & _ & _ & _ & (_ & _ & _ & _ & Hr & Hl)).
  apply still_fields; assumption.
Qed.

Lemma still_step policy l w e : still w (step policy l w e).
Proof.
  destruct e; cbn [step].
  - unfold deliver_open. destruct (sockets w !! sid) as [s|]; [|apply still_refl].
    unfold _ws_opened, _remote_connected.
    destruct (is_connected _).
    + eapply still_trans; [|apply still_trigger; reflexivity]. apply still_fields; reflexivity.
    + apply still_fields; reflexivity.
  - unfold deliver_close. destruct (sockets w !! sid) as [s|]; [|apply still_refl].
    apply still_trans with (w2 := mark CLOSED sid s w); [apply still_fields; reflexivity|].
    destruct (onclose s); cbn [run_close_handler].
    + unfold run_ws_closed. destruct (enter_once _ _ _) as [[a w1]|] eqn:E; [|apply still_refl].
      apply still_enter_once in E. destruct (negb wasClean); [|exact E].
      eapply still_trans; [exact E | apply still_ws_closed].
    + unfold run_ws_closed. destruct (enter_once _ _ _) as [[a w1]|] eqn:E; [|apply still_refl].
      apply still_enter_once in E. destruct (negb wasClean); [|exact E].
      eapply still_trans; [exact E | apply still_ws_closed].
    + apply still_stop_channel_close.
  - unfold deliver_error. destruct (sockets w !! sid) as [s|]; [|apply still_refl].
    apply still_trans with (w2 := mark CLOSED sid s w); [apply still_fields; reflexivity|].
    unfold run_ws_error. destruct (enter_once _ _ _) as [[a w1]|] eqn:E; [|apply still_refl].
    apply still_enter_once in E.
    eapply still_trans; [exact E | apply still_ws_closed].
  - apply still_fields; reflexivity.
  - unfold fire_timer. destruct (find _ _) as [t|]; [|apply still_refl].
    set (w0 := set_timers _ w).
    apply still_trans with (w2 := w0); [apply still_fields; reflexivity|].
    destruct (callback t); cbn [run_timer]; [|apply still_refl].
    unfold run_grace_switch. repeat case_match; apply still_fields; reflexivity.
  - apply still_fields; reflexivity.
  - destruct n; try apply still_listeners. apply still_send_input_reply.
  - apply still_start_channel.
  - apply still_stop_channel.
  - apply still_send_input_reply.
Qed.

Lemma still_run policy l evs : forall w, still w (run policy l evs w).
Proof.
  induction evs as [|e evs IH]; intros w; [apply still_refl|].
  eapply still_trans; [apply (still_step policy l w e)|]. apply IH.
Qed.

Lemma dormant_still w w' : dormant w -> still w w' -> dormant w'.
Proof.
  intros (H0 & H7 & Hd) (Hl & Ha & x & Hx & Fx). unfold dormant.
  rewrite Hl, Hx, List.filter_app, Hd, (Fx H0 H7).
  repeat split; auto. destruct Ha as [->| ->]; auto.
Qed.

Lemma dormant_run policy l m b p h s evs : dormant (run policy l evs (new_Remote m b p h s)).
Proof.
  apply dormant_still with (w := new_Remote m b p h s); [|apply still_run].
  repeat split.
Qed.

(** Every task but a call of [start_channel] keeps the sockets there are. *)
Lemma sockets_step policy l w e :
  length (sockets (step policy l w e))
  = length (sockets w) + (if is_start_call e then 1 else 0).
Proof.
  assert (forall u w', keeps u w w' -> length (sockets w') = length (sockets w) + 0) as Hk.
  { intros u w' (_ & _ & _ & _ & _ & Hids & _).
    apply (f_equal length) in Hids. unfold socket_ids in Hids.
    rewrite !length_map in Hids. lia. }
  destruct e; cbn [step is_start_call].
  - unfold deliver_open. destruct (sockets w !! sid) as [s|] eqn:Hs; [|lia].
    apply (Hk "").
    eapply keeps_trans; [apply keeps_mark; exact Hs | apply keeps_ws_opened].
  - unfold deliver_close. destruct (sockets w !! sid) as [s|] eqn:Hs; [|lia].
    pose proof (keeps_mark "" CLOSED sid s w Hs) as Hm.
    destruct (onclose s); cbn [run_close_handler].
    + unfold run_ws_closed.
      destruct (enter_once _ _ _) as [[a w1]|] eqn:He; [|apply (Hk ""); exact Hm].
      destruct (keeps_enter_once (ws_host_url a) _ _ _ _ _ He) as [Hk1 _].
      apply (Hk (ws_host_url a)).
      eapply keeps_trans; [apply keeps_mark; exact Hs|].
      destruct (negb wasClean); [|exact Hk1].
      eapply keeps_trans; [exact Hk1 | apply keeps_ws_closed].
    + unfold run_ws_closed.
      destruct (enter_once _ _ _) as [[a w1]|] eqn:He; [|apply (Hk ""); exact Hm].
      destruct (keeps_enter_once (ws_host_url a) _ _ _ _ _ He) as [Hk1 _].
      apply (Hk (ws_host_url a)).
      eapply keeps_trans; [apply keeps_mark; exact Hs|].
      destruct (negb wasClean); [|exact Hk1].
      eapply keeps_trans; [exact Hk1 | apply keeps_ws_closed].
    + apply (Hk ""). eapply keeps_trans; [exact Hm | apply keeps_stop_channel_close].
  - unfold deliver_error. destruct (sockets w !! sid) as [s|] eqn:Hs; [|lia].
    unfold run_ws_error.
    destruct (enter_once _ _ _) as [[a w1]|] eqn:He;
      [|apply (Hk ""); apply keeps_mark; exact Hs].
    destruct (keeps_enter_once (ws_host_url a) _ _ _ _ _ He) as [Hk1 _].
    apply (Hk (ws_host_url a)).
    eapply keeps_trans; [apply keeps_mark; exact Hs|].
    eapply keeps_trans; [exact Hk1 | apply keeps_ws_closed].
  - cbn. lia.
  - unfold fire_timer. destruct (find _ _) as [t|]; [|lia].
    destruct (callback t); cbn [run_timer]; [|cbn; lia].
    apply (Hk ""). eapply keeps_trans; [|apply keeps_grace_switch].
    apply keeps_fields; reflexivity.
  - cbn. lia.
  - apply (Hk ""). apply keeps_publish.
  - pose proof (start_channel_shape w) as H. cbv zeta in H.
    destruct H as (_ & Hso & _). rewrite Hso, length_app, stop_channel_lengths. reflexivity.
  - apply (Hk ""). apply keeps_stop_channel.
  - apply (Hk ""). apply keeps_send_input_reply.
Qed.

Lemma sockets_run policy l evs : forall w,
  length (sockets (run policy l evs w))
  = length (sockets w) + length (List.filter is_start_call evs).
Proof.
  induction evs as [|e evs IH]; intros w; [simpl; lia|].
  change (run policy l (e :: evs) w) with (run policy l evs (step policy l w e)).
  rewrite IH, sockets_step. cbn [List.filter]. destruct (is_start_call e); simpl; lia.
Qed.

(** C6.  The code breaks the claim.  Nothing in the file counts a reconnect
    attempt: whatever happens to the object after the constructor (socket
    events, timers, publications on the bus, calls), [_reconnect_attempt] is
    0, no [remote_connection_dead] has been published, and the sockets
    created are those of the [start_channel] calls made by callers: no timer
    ever makes one.  In particular, after the loss of the first transport
    and the firing of the reconnect timer it armed, there is still one
    socket, no handle and no attempt counted. *)
Theorem no_reconnect_attempt_is_made policy l m b p h s (evs : list event) :
  let w := run policy l evs (new_Remote m b p h s) in
  _reconnect_attempt (this w) = 0%Z
  /\ List.filter is_dead (triggered w) = []
  /\ length (sockets w) = length (List.filter is_start_call evs)
  /\ let lost := run policy l [call_start_channel; ev_error 0; ev_timer 1]
                   (new_Remote m b p h s) in
     length (sockets lost) = 1 /\ ws (this lost) = None
     /\ List.filter is_reconnect (timers lost) = []
     /\ triggered lost
        = [remote_disconnected;
           remote_connection_failed (master_url (this lost) +:+ "/api/sessions/" +:+ s +:+ "/ws") 0].
Proof.
  cbv zeta. destruct (dormant_run policy l m b p h s evs) as (H0 & _ & Hd).
  split; [exact H0|]. split; [exact Hd|]. split; [apply sockets_run|].
  repeat split.
Qed.

(** C5.  The code breaks the second half of the claim.  In every state the
    page can reach, handling a loss ([_ws_closed]) arms the timer for
    [2^attempt] seconds, here [1000 * 2^0] ms as the attempt count is 0; but
    when that timer fires nothing runs: only the timer is gone, no socket is
    made, the handle is as the loss left it and the attempt counter is
    still 0.  So it is after a first transport has opened and closed
    uncleanly and the timer of 1000 ms has fired: one socket, no handle, no
    attempt counted. *)
Theorem reconnect_timer_does_nothing policy l m b p h s (evs : list event)
    (url : string) (error : bool) :
  let w := run policy l evs (new_Remote m b p h s) in
  let a := _reconnect_attempt (this w) in
  let w1 := _ws_closed url error w in
  let armed := {| timer_id := next_timer w; delay_ms := 1000 * 2 ^ a; callback := do_reconnect |} in
  let w2 := fire_timer (timer_id armed) w1 in
  (a < reconnect_limit (this w))%Z
  /\ timers w1 = timers w ++ [armed]
  /\ w2 = set_timers (timers w) w1
  /\ sockets w2 = sockets w1 /\ this w2 = this w1
  /\ _reconnect_attempt (this w2) = a /\ a = 0%Z
  /\ let lost := run policy l [call_start_channel; ev_open 0; ev_close 0 false]
                   (new_Remote m b p h s) in
     let fired := step policy l lost (ev_timer 1) in
     List.filter is_reconnect (timers lost)
     = [{| timer_id := 1; delay_ms := 1000; callback := do_reconnect |}]
     /\ fired = set_timers (List.filter (fun t => negb (is_reconnect t)) (timers lost)) lost
     /\ length (sockets fired) = 1 /\ ws (this fired) = None
     /\ _reconnect_attempt (this fired) = 0%Z.
Proof.
  intros w a w1 armed w2.
  destruct (dormant_run policy l m b p h s evs) as (H0 & H7 & _). fold w in H0, H7.
  assert (a < reconnect_limit (this w))%Z as Hlt by (unfold a; rewrite H0, H7; lia).
  pose proof (timers_ok_run policy l evs _ (timers_ok_new m b p h s)) as [Hfresh _].
  fold w in Hfresh.
  pose proof (timers_ws_closed url error w Hlt) as Ht. fold w1 a armed in Ht.
  pose proof (attempt_ws_closed url error w) as Ha. fold w1 a in Ha.
  destruct (find_fresh_timer (timers w) (next_timer w) armed Hfresh eq_refl) as [Hfind Hfilter].
  assert (w2 = set_timers (timers w) w1) as E.
  { unfold w2, fire_timer. rewrite Ht. simpl timer_id. rewrite Hfind, Hfilter. reflexivity. }
  split; [exact Hlt|]. split; [exact Ht|]. split; [exact E|].
  split; [rewrite E; reflexivity|]. split; [rewrite E; reflexivity|].
  split; [rewrite E; exact Ha|]. split; [exact H0|].
  vm_compute. repeat split.
Qed.
